(** * The mention extension of the document editor

    A shallow embedding of [src/components/documentDetail/mention.ts]:
    the [Mention] node extension (render functions, attribute rendering,
    markdown serialisation, the suggestion command and its [allow]
    predicate, the Backspace shortcut) and [updateMentionNodeNames].

    The extension runs on top of the tiptap / ProseMirror libraries.  The
    library operations it calls ([mergeAttributes], [getRenderedAttributes],
    [resolve], [nodeAfter], [nodesBetween], [insertContentAt],
    [insertText]) are modelled here after the libraries' sources, for
    documents whose text carries no marks. *)

From Stdlib Require Import String Ascii List Bool Arith Lia.
Import ListNotations.
Open Scope string_scope.
Open Scope list_scope.
Open Scope nat_scope.

(* ------------------------------------------------------------------ *)
(** ** JavaScript values                                                *)
(* ------------------------------------------------------------------ *)

(** The values that occur in node attributes and HTML attributes:
    [string | null | undefined]. *)
Inductive JSValue :=
| Undefined
| Null
| Str (s : string).

(** [String(v)], as performed by a template literal [`${v}`]. *)
Definition toString (v : JSValue) : string :=
  match v with
  | Undefined => "undefined"
  | Null => "null"
  | Str s => s
  end.

(** [!!v] *)
Definition truthy (v : JSValue) : bool :=
  match v with
  | Str "" => false
  | Str _ => true
  | _ => false
  end.

(** [a ?? b] *)
Definition nullish (a b : JSValue) : JSValue :=
  match a with
  | Str _ => a
  | _ => b
  end.

(** [a || b] *)
Definition js_or (a b : JSValue) : JSValue :=
  if truthy a then a else b.

Definition JSValue_eqb (a b : JSValue) : bool :=
  match a, b with
  | Undefined, Undefined => true
  | Null, Null => true
  | Str s, Str t => String.eqb s t
  | _, _ => false
  end.

(** [s.split(sep)] for a one-character separator. *)
Fixpoint split_from (sep : ascii) (cur s : string) : list string :=
  match s with
  | EmptyString => [cur]
  | String c rest =>
      if Ascii.eqb c sep then cur :: split_from sep EmptyString rest
      else split_from sep (cur ++ String c EmptyString) rest
  end.

Definition split (sep : ascii) (s : string) : list string :=
  split_from sep EmptyString s.

(** [l.join(sep)] *)
Fixpoint join (sep : string) (l : list string) : string :=
  match l with
  | [] => EmptyString
  | [x] => x
  | x :: rest => x ++ sep ++ join sep rest
  end.

(** [l.includes(x)] *)
Definition includes (l : list string) (x : string) : bool :=
  existsb (String.eqb x) l.

(** [s.startsWith(p)] *)
Definition startsWith (s p : string) : bool := String.prefix p s.

(* ------------------------------------------------------------------ *)
(** ** Plain objects used as attribute records                          *)
(* ------------------------------------------------------------------ *)

(** A [Record<string, any>]: keys in insertion order, each key once. *)
Definition Object := list (string * JSValue).

(** [o[k]] *)
Fixpoint get (o : Object) (k : string) : JSValue :=
  match o with
  | [] => Undefined
  | (k', v) :: rest => if String.eqb k' k then v else get rest k
  end.

(** [k in o] *)
Fixpoint hasKey (o : Object) (k : string) : bool :=
  match o with
  | [] => false
  | (k', _) :: rest => String.eqb k' k || hasKey rest k
  end.

(** [o[k] = v] *)
Fixpoint set (o : Object) (k : string) (v : JSValue) : Object :=
  match o with
  | [] => [(k, v)]
  | (k', v') :: rest =>
      if String.eqb k' k then (k', v) :: rest else (k', v') :: set rest k v
  end.

(* ------------------------------------------------------------------ *)
(** ** The document model                                               *)
(* ------------------------------------------------------------------ *)

(** One state of a content expression's automaton: whether the content
    may end here, and the outgoing edges (node type name, next state). *)
Record MatchState := {
  validEnd : bool;
  next : list (string * nat);
}.

(** A [ContentMatch]: a state of the automaton of one content
    expression. *)
Record ContentMatch := {
  automaton : list MatchState;
  current : nat;
}.

Record NodeType := {
  name : string;
  isLeaf : bool;
  isInline : bool;
  inlineContent : bool;
  contentMatch : ContentMatch;
}.

(** See [addAttributes]: the attributes of a mention node. *)
Record MentionNodeAttrs := {
  id : JSValue;
  label : JSValue;
}.

(** A document node.  A text node holds its characters; any other node
    holds its type, its attributes and its children. *)
#[local] Unset Elimination Schemes.
Inductive PMNode :=
| PMText (text : string)
| PMElem (type : NodeType) (attrs : MentionNodeAttrs) (content : list PMNode).
#[local] Set Elimination Schemes.

Definition textType : NodeType :=
  {| name := "text"; isLeaf := true; isInline := true; inlineContent := false;
     contentMatch := {| automaton := [ {| validEnd := true; next := [] |} ];
                        current := 0 |} |}.

Definition node_type (n : PMNode) : NodeType :=
  match n with
  | PMText _ => textType
  | PMElem t _ _ => t
  end.

(** [node.attrs]; a text node has none. *)
Definition node_attrs (n : PMNode) : MentionNodeAttrs :=
  match n with
  | PMText _ => {| id := Undefined; label := Undefined |}
  | PMElem _ a _ => a
  end.

(** [node.text] *)
Definition node_text (n : PMNode) : option string :=
  match n with
  | PMText s => Some s
  | PMElem _ _ _ => None
  end.

(* ------------------------------------------------------------------ *)
(** ** tiptap: merging and rendering HTML attributes                    *)
(* ------------------------------------------------------------------ *)

(** A [DOMOutputSpec]: a string, or an array [[tag, attrs, ...children]]. *)
#[local] Unset Elimination Schemes.
Inductive DOMOutputSpec :=
| DOMString (s : string)
| DOMArray (tag : string) (attrs : Object) (children : list DOMOutputSpec).
#[local] Set Elimination Schemes.

(** The console: the messages passed to [console.warn], oldest first. *)
Definition Console (A : Type) : Type := A * list string.

Definition ret {A} (a : A) : Console A := (a, []).

Definition bind {A B} (m : Console A) (f : A -> Console B) : Console B :=
  let '(a, w1) := m in
  let '(b, w2) := f a in
  (b, w1 ++ w2).

Definition warn (msg : string) : Console unit := (tt, [msg]).

Notation "m ;; k" := (bind m (fun _ => k))
  (at level 61, right associativity).

Section Rendering.

(** How [mergeAttributes] combines two truthy [style] values differs
    between tiptap releases; the extension never sets a [style]. *)
Variable mergeStyle : JSValue -> JSValue -> JSValue.

(** The body of [Object.entries(item).forEach(...)] in
    [mergeAttributes]. *)
Definition mergeEntry (mergedAttributes : Object) (entry : string * JSValue)
  : Object :=
  let '(key, value) := entry in
  let exists_ := get mergedAttributes key in
  if negb (truthy exists_) then set mergedAttributes key value
  else if String.eqb key "class" then
    let valueClasses :=
      if truthy value then split " "%char (toString value) else [] in
    let existingClasses :=
      if truthy exists_ then split " "%char (toString exists_) else [] in
    let insertClasses :=
      filter (fun valueClass => negb (includes existingClasses valueClass))
             valueClasses in
    set mergedAttributes key (Str (join " " (existingClasses ++ insertClasses)))
  else if String.eqb key "style" then
    set mergedAttributes key (mergeStyle exists_ value)
  else set mergedAttributes key value.

(** [mergeAttributes(...objects)] *)
Definition mergeAttributes (objects : list Object) : Object :=
  fold_left (fun items item => fold_left mergeEntry item items) objects [].

(** One entry of the object returned by [addAttributes], completed with
    tiptap's defaults. *)
Record AttributeSpec := {
  attr_type : string;
  attr_name : string;
  attr_default : JSValue;
  attr_rendered : bool;
  attr_renderHTML : option (MentionNodeAttrs -> Object);
}.

(** [node.attrs[name]] for the two attributes of the extension. *)
Definition attr_lookup (a : MentionNodeAttrs) (n : string) : JSValue :=
  if String.eqb n "id" then id a
  else if String.eqb n "label" then label a
  else Undefined.

(** tiptap's [getRenderedAttributes]: the attributes registered for the
    type of the node that are to be rendered, each rendered and all
    merged. *)
Definition getRenderedAttributes (node : PMNode)
    (extensionAttributes : list AttributeSpec) : Object :=
  fold_left (fun attributes attribute => mergeAttributes [attributes; attribute])
    (map (fun item =>
            match attr_renderHTML item with
            | None => [(attr_name item, attr_lookup (node_attrs node) (attr_name item))]
            | Some f => f (node_attrs node)
            end)
         (filter attr_rendered
            (filter (fun attribute =>
                       String.eqb (attr_type attribute) (name (node_type node)))
                    extensionAttributes)))
    [].

(* ------------------------------------------------------------------ *)
(** ** The Mention extension: options                                   *)
(* ------------------------------------------------------------------ *)

(** The data fields of [MentionOptions]; [suggestion_char] is
    [suggestion.char]. *)
Record OptionsData := {
  HTMLAttributes : Object;
  deleteTriggerWithBackspace : bool;
  suggestion_char : JSValue;
}.

(** The argument of the render functions: [{ options, node }].  A render
    function sees the data fields of the options. *)
Record RenderProps := {
  options : OptionsData;
  node : PMNode;
}.

(** [MentionOptions].  [renderHTML] takes its receiver [this] first: it
    is called as a method of the options object. *)
Record MentionOptions := {
  data : OptionsData;
  renderLabel : option (RenderProps -> string);
  renderText : RenderProps -> string;
  renderHTML : OptionsData -> RenderProps -> DOMOutputSpec;
}.

(** [name: "mention"] *)
Definition mention_name : string := "mention".

Definition getHrefFromNode (node : PMNode) : string :=
  "/thoughts/" ++ toString (id (node_attrs node)).

(** [addOptions().renderText] *)
Definition default_renderText (props : RenderProps) : string :=
  toString (suggestion_char (options props))
  ++ toString (nullish (label (node_attrs (node props)))
                       (id (node_attrs (node props)))).

(** [addOptions().renderHTML] *)
Definition default_renderHTML (this : OptionsData) (props : RenderProps)
  : DOMOutputSpec :=
  DOMArray "a"
    (mergeAttributes
       [ [("class", Str "mention"); ("href", Str (getHrefFromNode (node props)))];
         HTMLAttributes this;
         HTMLAttributes (options props) ])
    [DOMString
       (toString (suggestion_char (options props))
        ++ toString (nullish (label (node_attrs (node props)))
                             (id (node_attrs (node props)))))].

(** [addOptions()] *)
Definition addOptions : MentionOptions :=
  {| data := {| HTMLAttributes := [];
                deleteTriggerWithBackspace := false;
                suggestion_char := Str "@" |};
     renderLabel := None;
     renderText := default_renderText;
     renderHTML := default_renderHTML |}.

(** [addAttributes()], registered by tiptap for the type of the
    extension. *)
Definition addAttributes : list AttributeSpec :=
  [ {| attr_type := mention_name;
       attr_name := "id";
       attr_default := Null;
       attr_rendered := true;
       attr_renderHTML := Some (fun attributes =>
         if negb (truthy (id attributes)) then []
         else [("data-id", id attributes)]) |};
    {| attr_type := mention_name;
       attr_name := "label";
       attr_default := Null;
       attr_rendered := true;
       attr_renderHTML := Some (fun attributes =>
         if negb (truthy (label attributes)) then []
         else [("data-label", label attributes)]) |} ].

Definition deprecation_warning : string :=
  "renderLabel is deprecated use renderText and renderHTML instead".

(** [Mention.renderHTML({ node, HTMLAttributes })] *)
Definition Mention_renderHTML (this_options : MentionOptions)
    (node : PMNode) (HTMLAttributes_ : Object) : Console DOMOutputSpec :=
  match renderLabel this_options with
  | Some renderLabel_ =>
      warn deprecation_warning ;;
      ret (DOMArray "a"
             (mergeAttributes
                [ [("data-type", Str mention_name)];
                  HTMLAttributes (data this_options);
                  HTMLAttributes_ ])
             [DOMString (renderLabel_ {| options := data this_options;
                                         node := node |})])
  | None =>
      let mergedOptions :=
        {| HTMLAttributes :=
             mergeAttributes
               [ [("data-type", Str mention_name)];
                 HTMLAttributes (data this_options);
                 HTMLAttributes_ ];
           deleteTriggerWithBackspace :=
             deleteTriggerWithBackspace (data this_options);
           suggestion_char := suggestion_char (data this_options) |} in
      let html :=
        renderHTML this_options (data this_options)
          {| options := mergedOptions; node := node |} in
      match html with
      | DOMString s =>
          ret (DOMArray "a"
                 (mergeAttributes
                    [ [("data-type", Str mention_name)];
                      HTMLAttributes (data this_options);
                      HTMLAttributes_ ])
                 [DOMString s])
      | _ => ret html
      end
  end.

(** [Mention.renderText({ node })] *)
Definition Mention_renderText (this_options : MentionOptions)
    (node : PMNode) : Console string :=
  match renderLabel this_options with
  | Some renderLabel_ =>
      warn deprecation_warning ;;
      ret (renderLabel_ {| options := data this_options; node := node |})
  | None =>
      ret (renderText this_options
             {| options := data this_options; node := node |})
  end.

(** The markup of a node as tiptap serialises it: [renderHTML] called
    with the attributes rendered from [addAttributes]. *)
Definition serializeHTML (this_options : MentionOptions) (node : PMNode)
  : Console DOMOutputSpec :=
  Mention_renderHTML this_options node
    (getRenderedAttributes node addAttributes).

(* ------------------------------------------------------------------ *)
(** ** Markdown storage                                                 *)
(* ------------------------------------------------------------------ *)

(** The markdown serialiser state, as far as the extension touches it:
    the arguments of the calls to [state.write], oldest first. *)
Record MarkdownSerializerState := {
  written : list string;
}.

Definition write (state : MarkdownSerializerState) (content : string)
  : MarkdownSerializerState :=
  {| written := written state ++ [content] |}.

(** [addStorage().markdown]: [parse] is an object of parse rules. *)
Record MarkdownStorage := {
  serialize : MarkdownSerializerState -> PMNode -> MarkdownSerializerState;
  parse : Object;
}.

Definition addStorage_markdown : MarkdownStorage :=
  {| serialize := fun state node =>
       write state
         ("[@" ++ toString (nullish (label (node_attrs node))
                                    (id (node_attrs node)))
          ++ "](" ++ getHrefFromNode node ++ ")");
     parse := [] |}.

End Rendering.

(* ------------------------------------------------------------------ *)
(** ** ProseMirror: sizes, positions and traversal                      *)
(* ------------------------------------------------------------------ *)

(** [node.nodeSize]: a text node counts its characters, a leaf counts
    one, any other node counts its content and its two boundaries. *)
Fixpoint nodeSize (n : PMNode) : nat :=
  match n with
  | PMText s => String.length s
  | PMElem t _ cs => if isLeaf t then 1 else 2 + list_sum (map nodeSize cs)
  end.

(** [fragment.size] *)
Definition fragmentSize (cs : list PMNode) : nat :=
  list_sum (map nodeSize cs).

(** [node.content] *)
Definition node_content (n : PMNode) : list PMNode :=
  match n with
  | PMText _ => []
  | PMElem _ _ cs => cs
  end.

(** A document is indexed by integer positions that count tokens: the
    start and the end of a node that is not a leaf, a leaf node, and a
    character.  The token view of a node is used to state what an edit
    does to the document. *)
Inductive Token :=
| TOpen (t : NodeType) (a : MentionNodeAttrs)
| TClose
| TLeaf (t : NodeType) (a : MentionNodeAttrs)
| TChar (c : ascii).

Fixpoint tokens (n : PMNode) : list Token :=
  match n with
  | PMText s => map TChar (list_ascii_of_string s)
  | PMElem t a cs =>
      if isLeaf t then [TLeaf t a]
      else TOpen t a :: flat_map tokens cs ++ [TClose]
  end.

(** The tokens of a fragment; position [p] of a document [doc] lies
    before token [p] of [fragmentTokens (node_content doc)]. *)
Definition fragmentTokens (cs : list PMNode) : list Token :=
  flat_map tokens cs.

(** [ResolvedPos]: the path lists, outermost first, the ancestors of the
    position, each with the index of the child the position points into
    and the absolute position where that child starts. *)
Record ResolvedPos := {
  pos : nat;
  path : list (PMNode * nat * nat);
  parentOffset : nat;
}.

(** The descent of [ResolvedPos.resolve] below one ancestor: at each
    level [Fragment.findIndex] gives the child at [parentOffset], and the
    descent stops at a child boundary or inside a text node. *)
Definition resolveChildren (node : PMNode)
    (resolveNode : PMNode -> nat -> nat -> list (PMNode * nat * nat) * nat)
    (parentOffset start : nat) :=
  fix findIndex (cs : list PMNode) (index offset : nat) {struct cs}
    : list (PMNode * nat * nat) * nat :=
    match cs with
    | [] => ([(node, index, start + offset)], parentOffset)
    | child :: rest =>
        let end_ := offset + nodeSize child in
        if parentOffset <=? offset then
          ([(node, index, start + offset)], parentOffset)
        else if end_ <=? parentOffset then findIndex rest (S index) end_
        else
          match child with
          | PMText _ => ([(node, index, start + offset)], parentOffset)
          | PMElem _ _ _ =>
              let '(below, po) :=
                resolveNode child (parentOffset - offset - 1) (start + offset + 1) in
              ((node, index, start + offset) :: below, po)
          end
    end.

Fixpoint resolveNode (node : PMNode) (parentOffset start : nat) {struct node}
  : list (PMNode * nat * nat) * nat :=
  match node with
  | PMText _ => ([], parentOffset)
  | PMElem _ _ cs =>
      resolveChildren node resolveNode parentOffset start cs 0 0
  end.

(** [doc.resolve(pos)]; [None] stands for the [RangeError] thrown when
    the position is outside the document. *)
Definition resolve (doc : PMNode) (pos_ : nat) : option ResolvedPos :=
  if pos_ <=? fragmentSize (node_content doc) then
    let '(path_, parentOffset_) := resolveNode doc pos_ 0 in
    Some {| pos := pos_; path := path_; parentOffset := parentOffset_ |}
  else None.

Definition innermost (rp : ResolvedPos) : option (PMNode * nat * nat) :=
  last (map Some (path rp)) None.

(** [$pos.parent] *)
Definition parent (rp : ResolvedPos) : option PMNode :=
  option_map (fun e => fst (fst e)) (innermost rp).

(** [$pos.index()] *)
Definition index (rp : ResolvedPos) : option nat :=
  option_map (fun e => snd (fst e)) (innermost rp).

(** [$pos.depth] *)
Definition depth (rp : ResolvedPos) : nat := length (path rp) - 1.

(** [textNode.cut(from, to)], on the text. *)
Definition slice (s : string) (from to : nat) : string :=
  substring from (to - from) s.

(** [$pos.nodeAfter], computed from the innermost path entry: the node
    directly after the position, or the part of the text node after it
    when the position points into one. *)
Definition nodeAfterOf (e : PMNode * nat * nat) (pos_ : nat) : option PMNode :=
  let '(parent_, index_, childStart) := e in
  match nth_error (node_content parent_) index_ with
  | None => None
  | Some child =>
      let dOff := pos_ - childStart in
      if 0 <? dOff then
        match child with
        | PMText s => Some (PMText (slice s dOff (String.length s)))
        | PMElem _ _ _ => Some child
        end
      else Some child
  end.

Definition nodeAfter (rp : ResolvedPos) : option PMNode :=
  match innermost rp with
  | None => None
  | Some e => nodeAfterOf e (pos rp)
  end.

(** [$pos.nodeBefore], likewise. *)
Definition nodeBeforeOf (e : PMNode * nat * nat) (pos_ : nat) : option PMNode :=
  let '(parent_, index_, childStart) := e in
  let dOff := pos_ - childStart in
  if 0 <? dOff then
    match nth_error (node_content parent_) index_ with
    | Some (PMText s) => Some (PMText (slice s 0 dOff))
    | other => other
    end
  else
    match index_ with
    | 0 => None
    | S i => nth_error (node_content parent_) i
    end.

Definition nodeBefore (rp : ResolvedPos) : option PMNode :=
  match innermost rp with
  | None => None
  | Some e => nodeBeforeOf e (pos rp)
  end.

(** [fragment.nodesBetween(from, to, f, nodeStart)] with the state [S]
    the callback works on threaded through the calls.  The callback
    answers whether its result was not [false], that is, whether the
    children of the node are to be visited. *)
Definition nodesBetweenChildren {S : Type}
    (f : PMNode -> nat -> S -> bool * S)
    (nodesBetweenNode : PMNode -> nat -> nat -> nat -> S -> S)
    (from to nodeStart : nat) :=
  fix loop (cs : list PMNode) (pos_ : nat) (s : S) {struct cs} : S :=
    match cs with
    | [] => s
    | child :: rest =>
        if pos_ <? to then
          let end_ := pos_ + nodeSize child in
          let s' :=
            if from <? end_ then
              let '(descend, s1) := f child (nodeStart + pos_) s in
              if descend && (0 <? fragmentSize (node_content child)) then
                let start := pos_ + 1 in
                nodesBetweenNode child
                  (Nat.max 0 (from - start))
                  (Nat.min (fragmentSize (node_content child)) (to - start))
                  (nodeStart + start) s1
              else s1
            else s in
          loop rest end_ s'
        else s
    end.

(** [node.nodesBetween(from, to, f, startPos)] *)
Fixpoint nodesBetweenNode {S : Type} (f : PMNode -> nat -> S -> bool * S)
    (n : PMNode) (from to nodeStart : nat) (s : S) {struct n} : S :=
  match n with
  | PMText _ => s
  | PMElem _ _ cs =>
      nodesBetweenChildren f (nodesBetweenNode f) from to nodeStart cs 0 s
  end.

Definition nodesBetween {S : Type} (doc : PMNode) (from to : nat)
    (f : PMNode -> nat -> S -> bool * S) (s : S) : S :=
  nodesBetweenNode f doc from to 0 s.

(* ------------------------------------------------------------------ *)
(** ** ProseMirror: content expressions                                 *)
(* ------------------------------------------------------------------ *)

Definition matchState (cm : ContentMatch) : MatchState :=
  nth (current cm) (automaton cm) {| validEnd := false; next := [] |}.

(** [match.matchType(type)]; the argument is [None] when the looked-up
    type is [undefined]. *)
Definition matchType (cm : ContentMatch) (type : option NodeType)
  : option ContentMatch :=
  match type with
  | None => None
  | Some t =>
      match find (fun e => String.eqb (fst e) (name t)) (next (matchState cm)) with
      | Some e => Some {| automaton := automaton cm; current := snd e |}
      | None => None
      end
  end.

(** [match.matchFragment(frag)] *)
Fixpoint matchFragment (cm : ContentMatch) (frag : list PMNode)
  : option ContentMatch :=
  match frag with
  | [] => Some cm
  | child :: rest =>
      match matchType cm (Some (node_type child)) with
      | Some cm' => matchFragment cm' rest
      | None => None
      end
  end.

(** [node.canReplace(from, to, replacement)], on child indices. *)
Definition canReplace (n : PMNode) (from to : nat) (replacement : list PMNode)
  : bool :=
  match matchFragment (contentMatch (node_type n)) (firstn from (node_content n)) with
  | None => false
  | Some contentMatchAt =>
      match matchFragment contentMatchAt replacement with
      | None => false
      | Some one =>
          match matchFragment one (skipn to (node_content n)) with
          | None => false
          | Some two => validEnd (matchState two)
          end
      end
  end.

(** [type.validContent(content)]; no marks are to be checked. *)
Definition validContent (t : NodeType) (content_ : list PMNode) : bool :=
  match matchFragment (contentMatch t) content_ with
  | Some result => validEnd (matchState result)
  | None => false
  end.

(* ------------------------------------------------------------------ *)
(** ** ProseMirror: replacing a range                                   *)
(* ------------------------------------------------------------------ *)

(** [fragment.cut(from, to)], the loop over the children. *)
Definition cutChildren (cutNode : PMNode -> nat -> nat -> PMNode)
    (from to : nat) :=
  fix loop (cs : list PMNode) (pos_ : nat) {struct cs} : list PMNode :=
    match cs with
    | [] => []
    | child :: rest =>
        if pos_ <? to then
          let end_ := pos_ + nodeSize child in
          if from <? end_ then
            (if (pos_ <? from) || (to <? end_) then
               match child with
               | PMText s =>
                   PMText (slice s (Nat.max 0 (from - pos_))
                                   (Nat.min (String.length s) (to - pos_)))
               | PMElem _ _ _ =>
                   cutNode child
                     (Nat.max 0 (from - pos_ - 1))
                     (Nat.min (fragmentSize (node_content child)) (to - pos_ - 1))
               end
             else child) :: loop rest end_
          else loop rest end_
        else []
    end.

(** [node.cut(from, to)] *)
Fixpoint cutNode (n : PMNode) (from to : nat) {struct n} : PMNode :=
  match n with
  | PMText s => PMText (slice s from to)
  | PMElem t a cs =>
      if (from =? 0) && (to =? fragmentSize cs) then n
      else PMElem t a
             (if from <? to then cutChildren cutNode from to cs 0 else [])
  end.

(** [fragment.cut(from, to)] *)
Definition cut (cs : list PMNode) (from to : nat) : list PMNode :=
  if (from =? 0) && (to =? fragmentSize cs) then cs
  else if from <? to then cutChildren cutNode from to cs 0 else [].

(** [fragment.append(other)]: adjacent text nodes are joined (no marks
    tell them apart). *)
Fixpoint append (this other : list PMNode) : list PMNode :=
  match this with
  | [] => other
  | [PMText s] =>
      match other with
      | PMText t :: rest => PMText (s ++ t) :: rest
      | _ => PMText s :: other
      end
  | child :: rest => child :: append rest other
  end.

(** The index [Fragment.findIndex] gives for a position that has this
    fragment's node as its parent: a boundary between children, or a
    place inside a text child.  There is none when the position lies
    inside a deeper node. *)
Fixpoint indexAt (cs : list PMNode) (p index_ offset : nat) : option nat :=
  match cs with
  | [] => if p =? offset then Some index_ else None
  | child :: rest =>
      let end_ := offset + nodeSize child in
      if p <=? offset then Some index_
      else if end_ <=? p then indexAt rest p (S index_) end_
      else
        match child with
        | PMText _ => Some index_
        | PMElem _ _ _ => None
        end
  end.

(** The descent of [replace]: the child that has both ends of the range
    strictly inside it, replaced within.  The outer [None] says no child
    has. *)
Definition replaceChildren
    (replaceNode : PMNode -> nat -> nat -> option PMNode) (from to : nat) :=
  fix loop (cs : list PMNode) (offset : nat) {struct cs}
    : option (option (list PMNode)) :=
    match cs with
    | [] => None
    | child :: rest =>
        let end_ := offset + nodeSize child in
        if (offset <? from) && (to <? end_) then
          match child with
          | PMText _ => None
          | PMElem _ _ _ =>
              Some (option_map (fun inner => inner :: rest)
                      (replaceNode child (from - offset - 1) (to - offset - 1)))
          end
        else option_map (option_map (cons child)) (loop rest end_)
    end.

(** The document a [ReplaceStep(from, to, slice)] with a closed slice
    produces, when the slice fits the range as it is: both ends have the
    same parent, and [parent.canReplace] accepts the new children.
    [guard] is a further condition on the parent, its range and depth.
    The parent is closed over its new content ([close] in [replace]),
    which throws a [RangeError] when [checkContent] refuses it.  [None]
    stands for that error and for every case outside the direct fit, in
    which ProseMirror searches for another fit. *)
Fixpoint replaceNode (guard : PMNode -> nat -> nat -> nat -> bool)
    (slice_ : list PMNode) (depth_ : nat) (n : PMNode) (from to : nat)
    {struct n} : option PMNode :=
  match n with
  | PMText _ => None
  | PMElem t a cs =>
      match replaceChildren (replaceNode guard slice_ (S depth_)) from to cs 0 with
      | Some inner => option_map (PMElem t a) inner
      | None =>
          match indexAt cs from 0 0, indexAt cs to 0 0 with
          | Some i, Some j =>
              if (from <=? to) && canReplace n i j slice_
                 && guard n from to depth_
              then
                let content_ :=
                  append (append (cut cs 0 from) slice_)
                         (cut cs to (fragmentSize cs)) in
                if validContent t content_ then Some (PMElem t a content_)
                else None
              else None
          | _, _ => None
          end
      end
  end.

Inductive Step :=
| ReplaceStep (from to : nat) (slice_ : list PMNode).

(** A text selection. *)
Record Selection := {
  anchor : nat;
  head : nat;
}.

Definition sel_from (s : Selection) : nat := Nat.min (anchor s) (head s).
Definition sel_to (s : Selection) : nat := Nat.max (anchor s) (head s).
Definition sel_empty (s : Selection) : bool := anchor s =? head s.

(** [stepMap.map(pos, 1)] for the map of one replace step. *)
Definition mapPos (from to newSize p : nat) : nat :=
  if p <? from then p
  else if p <=? to then
    if (to - from =? 0) || negb (p =? from) then from + newSize else from
  else p + newSize - (to - from).

(** A [Transaction]: the current document, the steps so far and the
    selection, which is a text selection mapped through each step. *)
Record Transaction := {
  tr_doc : PMNode;
  tr_steps : list Step;
  tr_selection : Selection;
}.

(** [tr.step(new ReplaceStep(from, to, slice))] *)
Definition applyStep (guard : PMNode -> nat -> nat -> nat -> bool)
    (tr : Transaction) (from to : nat) (slice_ : list PMNode)
  : option Transaction :=
  if from <=? to then
    match replaceNode guard slice_ 0 (tr_doc tr) from to with
    | Some doc' =>
        Some {| tr_doc := doc';
                tr_steps := tr_steps tr ++ [ReplaceStep from to slice_];
                tr_selection :=
                  {| anchor := mapPos from to (fragmentSize slice_)
                                 (anchor (tr_selection tr));
                     head := mapPos from to (fragmentSize slice_)
                               (head (tr_selection tr)) |} |}
    | None => None
    end
  else None.

Definition noGuard (parent_ : PMNode) (from to depth_ : nat) : bool := true.

(** [tr.replaceWith(from, to, content)] *)
Definition replaceWith (tr : Transaction) (from to : nat)
    (content_ : list PMNode) : option Transaction :=
  if (from =? to) && (fragmentSize content_ =? 0) then Some tr
  else applyStep noGuard tr from to content_.

(** [tr.deleteRange(from, to)].  A range that covers the whole content
    of its parent is deleted as it is when the parent may be empty or is
    the document; otherwise ProseMirror deletes an enclosing node, which
    is outside this model. *)
Definition deleteGuard (parent_ : PMNode) (from to depth_ : nat) : bool :=
  negb ((from =? 0) && (to =? fragmentSize (node_content parent_)))
  || (depth_ =? 0)
  || validEnd (matchState (contentMatch (node_type parent_))).

Definition deleteRange (tr : Transaction) (from to : nat)
  : option Transaction :=
  if from =? to then
    if to <=? fragmentSize (node_content (tr_doc tr)) then Some tr else None
  else applyStep deleteGuard tr from to [].

(** [tr.insertText(text, from, to)] with both positions given. *)
Definition insertText (tr : Transaction) (text : string) (from to : nat)
  : option Transaction :=
  if String.eqb text "" then deleteRange tr from to
  else
    match applyStep noGuard tr from to [PMText text] with
    | Some tr' =>
        if negb (sel_empty (tr_selection tr'))
           && (sel_to (tr_selection tr') =? from + String.length text)
        then Some {| tr_doc := tr_doc tr'; tr_steps := tr_steps tr';
                     tr_selection :=
                       {| anchor := sel_to (tr_selection tr');
                          head := sel_to (tr_selection tr') |} |}
        else Some tr'
    | None => None
    end.

(** [Selection.near($pos)] where [$pos] is in a node with inline
    content: the cursor at that position.  Elsewhere ProseMirror
    searches for a nearby selection, which is outside this model. *)
Definition near (doc_ : PMNode) (p : nat) : option Selection :=
  match resolve doc_ p with
  | Some rp =>
      match parent rp with
      | Some parent_ =>
          if inlineContent (node_type parent_)
          then Some {| anchor := p; head := p |}
          else None
      | None => None
      end
  | None => None
  end.

(* ------------------------------------------------------------------ *)
(** ** The editor state                                                 *)
(* ------------------------------------------------------------------ *)

Record Schema := {
  nodes : list NodeType;
}.

(** [schema.nodes[name]] *)
Definition schema_nodes (schema_ : Schema) (name_ : string) : option NodeType :=
  find (fun t => String.eqb (name t) name_) (nodes schema_).

Record EditorState := {
  doc : PMNode;
  selection : Selection;
  schema : Schema;
}.

(** The node type the extension registers: [name: "mention"],
    [group: "inline"], [inline: true], [atom: true], no content. *)
Definition mentionType : NodeType :=
  {| name := mention_name; isLeaf := true; isInline := true;
     inlineContent := false;
     contentMatch := {| automaton := [ {| validEnd := true; next := [] |} ];
                        current := 0 |} |}.

(** [state.tr] *)
Definition state_tr (state : EditorState) : Transaction :=
  {| tr_doc := doc state; tr_steps := []; tr_selection := selection state |}.

(** [state.apply(tr)], as far as the document and the selection go. *)
Definition state_apply (state : EditorState) (tr : Transaction) : EditorState :=
  {| doc := tr_doc tr; selection := tr_selection tr; schema := schema state |}.

(** The content passed to [insertContentAt], as JSON. *)
Inductive JSONContent :=
| JSONNode (type : string) (attrs : MentionNodeAttrs)
| JSONText (text : string).

(** [type.computeAttrs(attrs)]: an attribute that is not given takes
    its default, [null] for both attributes of the extension. *)
Definition computeAttrs (a : MentionNodeAttrs) : MentionNodeAttrs :=
  {| id := match id a with Undefined => Null | v => v end;
     label := match label a with Undefined => Null | v => v end |}.

(** [schema.nodeFromJSON(json)]; [None] stands for the error thrown for
    an unknown node type or an empty text. *)
Definition nodeFromJSON (schema_ : Schema) (json : JSONContent) : option PMNode :=
  match json with
  | JSONText text =>
      if String.eqb text "" then None else Some (PMText text)
  | JSONNode type attrs_ =>
      option_map (fun t => PMElem t (computeAttrs attrs_) [])
                 (schema_nodes schema_ type)
  end.

Fixpoint nodesFromJSON (schema_ : Schema) (value : list JSONContent)
  : option (list PMNode) :=
  match value with
  | [] => Some []
  | json :: rest =>
      match nodeFromJSON schema_ json, nodesFromJSON schema_ rest with
      | Some n, Some ns => Some (n :: ns)
      | _, _ => None
      end
  end.

Definition isText (n : PMNode) : bool :=
  match n with
  | PMText _ => true
  | PMElem _ _ _ => false
  end.

Definition isBlock (n : PMNode) : bool := negb (isInline (node_type n)).

Record Range := {
  from : nat;
  to : nat;
}.

(** tiptap's [insertContentAt(range, value)] with its default options
    ([updateSelection: true]), for content that is neither text only nor
    blocks only: the range is replaced by the nodes made from [value]
    and the selection moves to the end of the insertion
    ([selectionToInsertionEnd]). *)
Definition insertContentAt (schema_ : Schema) (tr : Transaction)
    (position : Range) (value : list JSONContent) : option Transaction :=
  match nodesFromJSON schema_ value with
  | None => None
  | Some content_ =>
      let isOnlyTextContent := forallb isText content_ in
      let isOnlyBlockContent := forallb isBlock content_ in
      if isOnlyTextContent || isOnlyBlockContent then None
      else
        match replaceWith tr (from position) (to position) content_ with
        | None => None
        | Some tr' =>
            let end_ := from position + fragmentSize content_ in
            match near (tr_doc tr') end_ with
            | Some sel =>
                Some {| tr_doc := tr_doc tr'; tr_steps := tr_steps tr';
                        tr_selection := sel |}
            | None => None
            end
        end
  end.

(** [selection.collapseToEnd()] *)
Definition collapseToEnd (s : Selection) : Selection :=
  {| anchor := sel_to s; head := sel_to s |}.

(* ------------------------------------------------------------------ *)
(** ** The Mention extension: suggestion, shortcut, label refresh       *)
(* ------------------------------------------------------------------ *)

(** [addOptions().suggestion.command({ editor, range, props })].  The
    chain [focus().insertContentAt(...).run()] leaves the document and
    the selection of [focus()] as they are and dispatches the
    transaction; the selection the window shows is the editor's.
    [None] stands for an error thrown on the way, and for a range that
    the content does not fit as it is (see [replaceNode]). *)
Definition suggestion_command (state : EditorState) (range : Range)
    (props : MentionNodeAttrs) : option EditorState :=
  match resolve (doc state) (sel_to (selection state)) with
  | None => None
  | Some to_ =>
      let nodeAfter_ := nodeAfter to_ in
      let overrideSpace :=
        match nodeAfter_ with
        | Some n =>
            match node_text n with
            | Some text => startsWith text " "
            | None => false
            end
        | None => false
        end in
      let range :=
        if overrideSpace
        then {| from := from range; to := to range + 1 |}
        else range in
      match insertContentAt (schema state) (state_tr state) range
              [ JSONNode mention_name props; JSONText " " ] with
      | None => None
      | Some tr =>
          let state' := state_apply state tr in
          Some {| doc := doc state';
                  selection := collapseToEnd (selection state');
                  schema := schema state' |}
      end
  end.

Definition isSome {A} (o : option A) : bool :=
  match o with
  | Some _ => true
  | None => false
  end.

(** [addOptions().suggestion.allow({ state, range })]; [None] stands
    for the [RangeError] of [resolve]. *)
Definition suggestion_allow (state : EditorState) (range : Range)
  : option bool :=
  match resolve (doc state) (from range) with
  | None => None
  | Some from_ =>
      let type := schema_nodes (schema state) mention_name in
      match parent from_ with
      | None => None
      | Some parent_ =>
          let allow :=
            isSome (matchType (contentMatch (node_type parent_)) type) in
          Some allow
      end
  end.

(** The callback the Backspace shortcut passes to [nodesBetween]; its
    state is [isMention] and the transaction, [None] once [insertText]
    has failed. *)
Definition backspaceVisit (this_options : OptionsData)
    (node_ : PMNode) (pos_ : nat) (s : bool * option Transaction)
  : bool * (bool * option Transaction) :=
  let '(isMention, tr) := s in
  if String.eqb (name (node_type node_)) mention_name then
    (false,
     (true,
      match tr with
      | Some tr_ =>
          insertText tr_
            (if deleteTriggerWithBackspace this_options then ""
             else toString (js_or (suggestion_char this_options) (Str "")))
            pos_ (pos_ + nodeSize node_)
      | None => None
      end))
  else (true, (isMention, tr)).

(** [addKeyboardShortcuts().Backspace], the command it runs on a fresh
    transaction: the result of the command and the transaction; [None]
    where [insertText] gives none. *)
Definition Backspace (this_options : OptionsData) (state : EditorState)
  : option (bool * Transaction) :=
  let tr := state_tr state in
  let isMention := false in
  let selection_ := selection state in
  let empty := sel_empty selection_ in
  let anchor_ := anchor selection_ in
  if negb empty then Some (false, tr)
  else
    match nodesBetween (doc state) (anchor_ - 1) anchor_
            (backspaceVisit this_options) (isMention, Some tr) with
    | (isMention', Some tr') => Some (isMention', tr')
    | (_, None) => None
    end.

(** Modelled from the spec: [getAllNodesWithType] of [utils/tiptap],
    which is not part of the sources at hand.  The label refresher is to
    "walk all mention nodes in the document"; the helper collects, in
    document order, the attributes and the position of every node of
    the given type, and changes nothing. *)
Definition getAllNodesWithType (editor : EditorState) (type : string)
  : list (MentionNodeAttrs * nat) :=
  nodesBetween (doc editor) 0 (fragmentSize (node_content (doc editor)))
    (fun node_ pos_ found =>
       (true,
        if String.eqb (name (node_type node_)) type
        then found ++ [(node_attrs node_, pos_)]
        else found))
    [].

(** [updateMentionNodeNames(editor)]: the editor afterwards and the
    value the returned promise resolves to.  Everything after the first
    statement is commented out in the source. *)
Definition updateMentionNodeNames (editor : EditorState) : EditorState * unit :=
  let mentions := getAllNodesWithType editor "mention" in
  (editor, tt).

(** The plugin state of [@tiptap/suggestion] after a transaction, as far
    as the popup goes: the suggestion is active, and the popup rendered,
    only when a match of the trigger pattern is found before the cursor
    and [allow] accepts its range. *)
Definition suggestion_active (state : EditorState) (match_ : option Range)
  : option bool :=
  match match_ with
  | None => Some false
  | Some range =>
      match suggestion_allow state range with
      | Some true => Some true
      | Some false => Some false
      | None => None
      end
  end.

(* ------------------------------------------------------------------ *)
(** ** Well-formed documents and helpers for the statements             *)
(* ------------------------------------------------------------------ *)

(** ProseMirror has no empty text nodes. *)
Fixpoint noEmptyText (n : PMNode) : bool :=
  match n with
  | PMText s => negb (String.eqb s "")
  | PMElem _ _ cs => forallb noEmptyText cs
  end.

(** The mention type is a leaf ([atom: true], no content): a node with
    children is never a mention. *)
Fixpoint mentionsAreLeaves (n : PMNode) : bool :=
  match n with
  | PMText _ => true
  | PMElem t _ cs =>
      (negb (String.eqb (name t) mention_name) || isLeaf t)
      && forallb mentionsAreLeaves cs
  end.

(** The character at a position, when the token there is one. *)
Definition charAt (toks : list Token) (p : nat) : option ascii :=
  match nth_error toks p with
  | Some (TChar c) => Some c
  | _ => None
  end.

Definition isSpace (c : option ascii) : bool :=
  match c with
  | Some c => Ascii.eqb c " "%char
  | None => false
  end.

(** The tokens of a text. *)
Definition textTokens (s : string) : list Token :=
  map TChar (list_ascii_of_string s).

Definition dom_attrs (d : DOMOutputSpec) : Object :=
  match d with
  | DOMString _ => []
  | DOMArray _ a _ => a
  end.

(** One way tiptap has combined two [style] values. *)
Definition joinStyle (a b : JSValue) : JSValue :=
  Str (toString a ++ "; " ++ toString b)%string.

(** The first character of a text node. *)
Definition firstChar (n : option PMNode) : option ascii :=
  match n with
  | Some (PMText (String c _)) => Some c
  | _ => None
  end.

(** A position is aligned with a fragment that starts at [p] when it
    does not fall strictly inside a child that is not a text. *)
Fixpoint aligned (cs : list PMNode) (p q : nat) : bool :=
  match cs with
  | [] => true
  | c :: rest =>
      let e := p + nodeSize c in
      (negb ((p <? q) && (q <? e)) || isText c) && aligned rest e q
  end.

(** Two nodes with the same type and attributes. *)
Definition sameShell (n n' : PMNode) : Prop :=
  match n, n' with
  | PMElem t a _, PMElem t' a' _ => t' = t /\ a' = a
  | _, _ => False
  end.

(** The text the Backspace shortcut puts in place of a mention. *)
Definition backspaceText (o : OptionsData) : string :=
  if deleteTriggerWithBackspace o then ""
  else toString (js_or (suggestion_char o) (Str "")).

(** What the callback of the shortcut makes of its state at a mention
    that starts at [p]. *)
Definition backspaceResult (o : OptionsData) (p : nat)
    (s : bool * option Transaction) : bool * option Transaction :=
  (true,
   match snd s with
   | Some tr => insertText tr (backspaceText o) p (p + 1)
   | None => None
   end).

(** The nodes the suggestion command inserts. *)
Definition mentionContent (props : MentionNodeAttrs) : list PMNode :=
  [PMElem mentionType (computeAttrs props) []; PMText " "].

(** Induction on a node with the hypothesis for every child. *)
Fixpoint PMNode_ind' (P : PMNode -> Prop)
    (Htext : forall s, P (PMText s))
    (Helem : forall t a cs, Forall P cs -> P (PMElem t a cs))
    (n : PMNode) {struct n} : P n :=
  match n with
  | PMText s => Htext s
  | PMElem t a cs =>
      Helem t a cs
        ((fix children (l : list PMNode) : Forall P l :=
            match l with
            | [] => Forall_nil P
            | c :: rest =>
                Forall_cons c (PMNode_ind' P Htext Helem c) (children rest)
            end) cs)
  end.

(** A small schema and documents to run the extension on. *)
Module Sample.

Definition inlineStar : ContentMatch :=
  {| automaton := [ {| validEnd := true;
                       next := [("text", 0); ("mention", 0)] |} ];
     current := 0 |}.

Definition blockPlus : ContentMatch :=
  {| automaton := [ {| validEnd := false; next := [("paragraph", 1); ("image", 1)] |};
                    {| validEnd := true; next := [("paragraph", 1); ("image", 1)] |} ];
     current := 0 |}.

Definition paragraphType : NodeType :=
  {| name := "paragraph"; isLeaf := false; isInline := false;
     inlineContent := true; contentMatch := inlineStar |}.

Definition imageType : NodeType :=
  {| name := "image"; isLeaf := true; isInline := false;
     inlineContent := false;
     contentMatch := {| automaton := [ {| validEnd := true; next := [] |} ];
                        current := 0 |} |}.

Definition docType : NodeType :=
  {| name := "doc"; isLeaf := false; isInline := false;
     inlineContent := false; contentMatch := blockPlus |}.

Definition noAttrs : MentionNodeAttrs := {| id := Undefined; label := Undefined |}.

Definition sampleSchema : Schema :=
  {| nodes := [docType; paragraphType; imageType; textType; mentionType] |}.

Definition john : MentionNodeAttrs :=
  {| id := Str "doc123"; label := Str "John's Notes" |}.

(** [<doc><p>hi @jo there</p></doc>], the cursor after [@jo]. *)
Definition typing : EditorState :=
  {| doc := PMElem docType noAttrs
              [PMElem paragraphType noAttrs [PMText "hi @jo there"]];
     selection := {| anchor := 7; head := 7 |};
     schema := sampleSchema |}.

(** [<doc><p>hi @jo</p></doc>], the cursor at the end. *)
Definition typingAtEnd : EditorState :=
  {| doc := PMElem docType noAttrs
              [PMElem paragraphType noAttrs [PMText "hi @jo"]];
     selection := {| anchor := 7; head := 7 |};
     schema := sampleSchema |}.

(** [<doc><p>hi <mention/> x</p><p><mention/></p></doc>], the cursor
    after the first mention. *)
Definition mentioned : EditorState :=
  {| doc := PMElem docType noAttrs
              [PMElem paragraphType noAttrs
                 [PMText "hi "; PMElem mentionType john []; PMText " x"];
               PMElem paragraphType noAttrs [PMElem mentionType john []]];
     selection := {| anchor := 5; head := 5 |};
     schema := sampleSchema |}.

(** [<doc><image/><p>x</p></doc>] *)
Definition withImage : EditorState :=
  {| doc := PMElem docType noAttrs
              [PMElem imageType noAttrs [];
               PMElem paragraphType noAttrs [PMText "x"]];
     selection := {| anchor := 2; head := 2 |};
     schema := sampleSchema |}.

(** The state after a candidate is chosen in [typing]. *)
Definition typingDone : EditorState :=
  Eval vm_compute in
    match suggestion_command typing {| from := 4; to := 7 |} john with
    | Some state' => state'
    | None => typing
    end.

(** The transaction of Backspace in [mentioned], by default options. *)
Definition mentionedBackspaced : Transaction :=
  Eval vm_compute in
    match insertText (state_tr mentioned) "@" 4 5 with
    | Some tr => tr
    | None => state_tr mentioned
    end.

(** The cursor of [mentioned], resolved. *)
Definition mentionedCursor : ResolvedPos :=
  Eval vm_compute in
    match resolve (doc mentioned) 5 with
    | Some rp => rp
    | None => {| pos := 0; path := []; parentOffset := 0 |}
    end.

(** Position 1 of [withImage], between the image and the paragraph. *)
Definition afterImage : ResolvedPos :=
  Eval vm_compute in
    match resolve (doc withImage) 1 with
    | Some rp => rp
    | None => {| pos := 0; path := []; parentOffset := 0 |}
    end.

(** The two ends of the range the command replaces in [typing],
    resolved: the range of [@jo] and the space behind it. *)
Definition typingFrom : ResolvedPos :=
  Eval vm_compute in
    match resolve (doc typing) 4 with
    | Some rp => rp
    | None => {| pos := 0; path := []; parentOffset := 0 |}
    end.

Definition typingTo : ResolvedPos :=
  Eval vm_compute in
    match resolve (doc typing) 8 with
    | Some rp => rp
    | None => {| pos := 0; path := []; parentOffset := 0 |}
    end.

(** [<doc><p>hi @jo  there</p></doc>], the cursor after [@jo] and two
    spaces behind it. *)
Definition typingTwoSpaces : EditorState :=
  {| doc := PMElem docType noAttrs
              [PMElem paragraphType noAttrs [PMText "hi @jo  there"]];
     selection := {| anchor := 7; head := 7 |};
     schema := sampleSchema |}.

(** Options with [deleteTriggerWithBackspace] set. *)
Definition deleting : OptionsData :=
  {| HTMLAttributes := [];
     deleteTriggerWithBackspace := true;
     suggestion_char := Str "@" |}.

(** A mention whose id is set and empty. *)
Definition emptyId : MentionNodeAttrs :=
  {| id := Str ""; label := Str "Notes" |}.

(** Options with a render function of the user's own. *)
Definition customOptions : MentionOptions :=
  {| data := {| HTMLAttributes := [];
                deleteTriggerWithBackspace := false;
                suggestion_char := Str "@" |};
     renderLabel := None;
     renderText := default_renderText;
     renderHTML := fun _ props =>
       DOMArray "span" [("class", Str "chip")]
         [DOMString (toString (id (node_attrs (node props))))] |}.

End Sample.

(* ------------------------------------------------------------------ *)
(** ** Where a replacement fits as it is                                *)
(* ------------------------------------------------------------------ *)

(** [$pos.start()]: the position where the content of the parent
    starts. *)
Definition start (rp : ResolvedPos) : nat := pos rp - parentOffset rp.

(** Whether a content match stays in its state over a node of a type. *)
Definition loopsOn (cm : ContentMatch) (t : NodeType) : bool :=
  match matchType cm (Some t) with
  | Some cm' => current cm' =? current cm
  | None => false
  end.

(** A node whose content expression is a star over types that include
    the text, the mention and the types of the children it has, as the
    [inline*] of a paragraph is: it takes these nodes in any number and
    order, and none. *)
Definition takesInline (n : PMNode) : bool :=
  let cm := contentMatch (node_type n) in
  validEnd (matchState cm)
  && loopsOn cm textType && loopsOn cm mentionType
  && forallb (fun c => loopsOn cm (node_type c)) (node_content n).

(** [within n s P]: [P] is [n] or a node inside [n], and the content of
    [P] starts [s] positions after the content of [n] does. *)
Inductive within : PMNode -> nat -> PMNode -> Prop :=
| within_here t a cs : within (PMElem t a cs) 0 (PMElem t a cs)
| within_child t a before c after s P :
    isLeaf (node_type c) = false ->
    within c s P ->
    within (PMElem t a (before ++ c :: after)) (fragmentSize before + 1 + s) P.

(* ------------------------------------------------------------------ *)
(** ** The suggestion popup ([mention.render])                          *)
(* ------------------------------------------------------------------ *)

(** What a call returns, or the [TypeError] it throws on reading a
    property of [undefined]. *)
Inductive Outcome (A : Type) :=
| Returns (a : A)
| Throws.

Arguments Returns {A} a.
Arguments Throws {A}.

(** A [clientRect] callback, known by a number. *)
Definition ClientRect := nat.

(** The props the suggestion plugin passes to [onStart] and [onUpdate];
    every props object has the same keys, [clientRect] possibly
    [null]. *)
Record SuggestionProps := {
  clientRect : option ClientRect;
  query : string;
}.

(** The props of [onKeyDown]: the key of the event. *)
Record KeyDownProps := {
  key : string;
}.

(** What the [onKeyDown] of the rendered component does with a key: its
    result, and whether it calls the [hide] it is given. *)
Record KeyDownEffect := {
  result : bool;
  callsHide : bool;
}.

(** The imperative handle of the rendered component, [null] when it
    exposes none.  [MentionHandler] is not among the sources at hand;
    the popup code is modelled for any such component. *)
Definition Component := option (KeyDownProps -> KeyDownEffect).

(** A [ReactRenderer]: [updateProps] merges the new props over the old
    ones, which replaces them as the keys are the same. *)
Record ReactRenderer := {
  rr_props : SuggestionProps;
  rr_ref : Component;
  rr_destroyed : bool;
}.

Definition updateProps (r : ReactRenderer) (props : SuggestionProps)
  : ReactRenderer :=
  {| rr_props := props; rr_ref := rr_ref r; rr_destroyed := rr_destroyed r |}.

(** [renderer.destroy()]: the component is unmounted, and with that
    its ref is reset to [null]. *)
Definition rr_destroy (r : ReactRenderer) : ReactRenderer :=
  {| rr_props := rr_props r; rr_ref := None; rr_destroyed := true |}.

(** A tippy instance, as far as the popup code drives it. *)
Record TippyInstance := {
  getReferenceClientRect : ClientRect;
  isVisible : bool;
  isDestroyed : bool;
}.

(** [instance.setProps({ getReferenceClientRect })]; ignored once the
    instance is destroyed. *)
Definition setProps (i : TippyInstance) (r : ClientRect) : TippyInstance :=
  if isDestroyed i then i
  else {| getReferenceClientRect := r; isVisible := isVisible i;
          isDestroyed := false |}.

(** [instance.hide()] *)
Definition tippy_hide (i : TippyInstance) : TippyInstance :=
  if isDestroyed i then i
  else {| getReferenceClientRect := getReferenceClientRect i;
          isVisible := false; isDestroyed := false |}.

(** [instance.destroy()] *)
Definition tippy_destroy (i : TippyInstance) : TippyInstance :=
  if isDestroyed i then i
  else {| getReferenceClientRect := getReferenceClientRect i;
          isVisible := false; isDestroyed := true |}.

(** [tippy("body", { getReferenceClientRect, showOnCreate: true, ... })]:
    one instance, for the one [body] of the page, shown at once. *)
Definition tippy (r : ClientRect) : list TippyInstance :=
  [ {| getReferenceClientRect := r; isVisible := true; isDestroyed := false |} ].

(** The variables [reactRenderer] and [popup] of the closure that
    [render] returns; [None] while unassigned. *)
Record PopupState := {
  reactRenderer : option ReactRenderer;
  popup : option (list TippyInstance);
}.

(** [mention.render()] *)
Definition mention_render : PopupState :=
  {| reactRenderer := None; popup := None |}.

(** [onStart(props)] *)
Definition onStart (MentionHandler : Component) (st : PopupState)
    (props : SuggestionProps) : PopupState * Outcome (option bool) :=
  match clientRect props with
  | None => (st, Returns None)
  | Some rect =>
      ({| reactRenderer :=
            Some {| rr_props := props; rr_ref := MentionHandler;
                    rr_destroyed := false |};
          popup := Some (tippy rect) |},
       Returns None)
  end.

(** [onUpdate(props)] *)
Definition onUpdate (st : PopupState) (props : SuggestionProps)
  : PopupState * Outcome (option bool) :=
  match reactRenderer st with
  | None => (st, Throws)
  | Some renderer =>
      let st1 := {| reactRenderer := Some (updateProps renderer props);
                    popup := popup st |} in
      match clientRect props with
      | None => (st1, Returns None)
      | Some rect =>
          match popup st1 with
          | Some (first :: rest) =>
              ({| reactRenderer := reactRenderer st1;
                  popup := Some (setProps first rect :: rest) |},
               Returns None)
          | _ => (st1, Throws)
          end
      end
  end.

(** [onKeyDown(props)]: the call of [hide] inside the component throws
    when there is no popup, and the error passes through. *)
Definition onKeyDown (st : PopupState) (props : KeyDownProps)
  : PopupState * Outcome (option bool) :=
  match reactRenderer st with
  | None => (st, Throws)
  | Some renderer =>
      match rr_ref renderer with
      | None => (st, Returns None)
      | Some ref =>
          let effect := ref props in
          if callsHide effect then
            match popup st with
            | Some (first :: rest) =>
                ({| reactRenderer := reactRenderer st;
                    popup := Some (tippy_hide first :: rest) |},
                 Returns (Some (result effect)))
            | _ => (st, Throws)
            end
          else (st, Returns (Some (result effect)))
      end
  end.

(** [onExit()] *)
Definition onExit (st : PopupState) : PopupState * Outcome (option bool) :=
  match popup st with
  | Some (first :: rest) =>
      let st1 := {| reactRenderer := reactRenderer st;
                    popup := Some (tippy_destroy first :: rest) |} in
      match reactRenderer st1 with
      | None => (st1, Throws)
      | Some renderer =>
          ({| reactRenderer := Some (rr_destroy renderer);
              popup := popup st1 |},
           Returns None)
      end
  | _ => (st, Throws)
  end.

(** The calls the suggestion plugin makes on the renderer. *)
Inductive PopupEvent :=
| OnStart (props : SuggestionProps)
| OnUpdate (props : SuggestionProps)
| OnKeyDown (props : KeyDownProps)
| OnExit.

Definition popupStep (MentionHandler : Component) (st : PopupState)
    (e : PopupEvent) : PopupState * Outcome (option bool) :=
  match e with
  | OnStart props => onStart MentionHandler st props
  | OnUpdate props => onUpdate st props
  | OnKeyDown props => onKeyDown st props
  | OnExit => onExit st
  end.

(** The state after a sequence of calls; a call that throws leaves the
    closure as far as it got, and the next call finds it so. *)
Definition popupRun (MentionHandler : Component) (st : PopupState)
    (events : list PopupEvent) : PopupState :=
  fold_left (fun st e => fst (popupStep MentionHandler st e)) events st.

(** Whether some [onStart] of the sequence came with a [clientRect]. *)
Definition started (events : list PopupEvent) : bool :=
  existsb (fun e =>
             match e with
             | OnStart props => isSome (clientRect props)
             | _ => false
             end) events.

Definition throws {A} (o : Outcome A) : bool :=
  match o with
  | Throws => true
  | Returns _ => false
  end.

(** What holds of the closure after any sequence of calls: nothing is
    assigned before the first [onStart] with a [clientRect], and from
    then on there are a renderer and exactly one tippy instance, hidden
    if destroyed. *)
Definition popupInv (wasStarted : bool) (st : PopupState) : Prop :=
  if wasStarted then
    exists renderer instance,
      st = {| reactRenderer := Some renderer; popup := Some [instance] |}
      /\ (isDestroyed instance = true -> isVisible instance = false)
  else st = mention_render.

(** The position the popup is anchored to after a run of updates. *)
Definition lastRect (r0 : ClientRect) (updates : list SuggestionProps)
  : ClientRect :=
  fold_left (fun r props =>
               match clientRect props with
               | Some r' => r'
               | None => r
               end) updates r0.

(** What the closure held each time an [onStart] with a [clientRect]
    assigned its variables anew, oldest first: the renderer and the
    popup of before stay on the page, and no later call reaches
    them. *)
Fixpoint leftBehind (MentionHandler : Component) (st : PopupState)
    (events : list PopupEvent) : list PopupState :=
  match events with
  | [] => []
  | e :: rest =>
      match e with
      | OnStart props => if isSome (clientRect props) then [st] else []
      | _ => []
      end ++ leftBehind MentionHandler (fst (popupStep MentionHandler st e)) rest
  end.

(** A closure with nothing live: its renderer, if any, is destroyed, and
    so is each of its popups, none of them visible. *)
Definition closed (st : PopupState) : bool :=
  match reactRenderer st with
  | Some renderer => rr_destroyed renderer
  | None => true
  end
  && match popup st with
     | Some instances =>
         forallb (fun i => isDestroyed i && negb (isVisible i)) instances
     | None => true
     end.

(** The calls come in sessions, as the suggestion plugin makes them: an
    [onStart] with a [clientRect] comes first or after an [onExit],
    never while a session is open. *)
Fixpoint orderly (open : bool) (events : list PopupEvent) : bool :=
  match events with
  | [] => true
  | OnStart props :: rest =>
      if isSome (clientRect props) then negb open && orderly true rest
      else orderly open rest
  | OnExit :: rest => orderly false rest
  | _ :: rest => orderly open rest
  end.

Definition isOnStart (e : PopupEvent) : bool :=
  match e with
  | OnStart _ => true
  | _ => false
  end.


(** [startsAt n p m]: [m] is a node inside [n], and its extent starts
    [p] positions after the content of [n] does, counted as
    [nodesBetween] counts for its callback. *)
Inductive startsAt : PMNode -> nat -> PMNode -> Prop :=
| startsAt_child t a before c after :
    startsAt (PMElem t a (before ++ c :: after)) (fragmentSize before) c
| startsAt_deeper t a before c after p m :
    startsAt c p m ->
    startsAt (PMElem t a (before ++ c :: after)) (fragmentSize before + 1 + p) m.

(** Whether the token right before a position is a node named
    [mention]. *)
Definition mentionBefore (toks : list Token) (p : nat) : bool :=
  match p with
  | 0 => false
  | S q =>
      match nth_error toks q with
      | Some (TLeaf ty _) => String.eqb (name ty) mention_name
      | _ => false
      end
  end.

(* ------------------------------------------------------------------ *)
(** ** Parsing a mention back from markup                               *)
(* ------------------------------------------------------------------ *)

(** A DOM element, as far as the parse rules read it. *)
Record Element := {
  tagName : string;
  attributes : list (string * string);
}.

(** [element.getAttribute(name)]: [null] when there is none. *)
Fixpoint lookupAttribute (l : list (string * string)) (k : string)
  : option string :=
  match l with
  | [] => None
  | (k', v) :: rest => if String.eqb k' k then Some v else lookupAttribute rest k
  end.

Definition getAttribute (element : Element) (k : string) : JSValue :=
  match lookupAttribute (attributes element) k with
  | Some v => Str v
  | None => Null
  end.

(** [element.setAttribute(name, value)], on the attribute list. *)
Fixpoint setAttribute (l : list (string * string)) (k v : string)
  : list (string * string) :=
  match l with
  | [] => [(k, v)]
  | (k', v') :: rest =>
      if String.eqb k' k then (k', v) :: rest
      else (k', v') :: setAttribute rest k v
  end.

(** ProseMirror's [renderSpec] on an array [[tag, attrs, ...]]: every
    attribute whose value is not [null] or [undefined] is set on the new
    element.  A string renders as a text node, which is no element. *)
Definition renderSpec (spec : DOMOutputSpec) : option Element :=
  match spec with
  | DOMString _ => None
  | DOMArray tag attrs_ _ =>
      Some {| tagName := tag;
              attributes :=
                fold_left (fun l entry =>
                             match snd entry with
                             | Str v => setAttribute l (fst entry) v
                             | _ => l
                             end) attrs_ [] |}
  end.

(** [addAttributes().id.parseHTML] *)
Definition parseHTML_id (element : Element) : JSValue :=
  getAttribute element "data-id".

(** [addAttributes().label.parseHTML] *)
Definition parseHTML_label (element : Element) : JSValue :=
  getAttribute element "data-label".

(** [parseHTML()]: the one rule, with the selector
    [a[data-type="mention"]]. *)
Definition parseHTML_matches (element : Element) : bool :=
  String.eqb (tagName element) "a"
  && JSValue_eqb (getAttribute element "data-type") (Str mention_name).

(** The attributes of the node tiptap makes of an element the rule
    matches: each attribute as its [parseHTML] reads it, its default
    ([null]) when that gives [null]. *)
Definition parseMention (element : Element) : option MentionNodeAttrs :=
  if parseHTML_matches element then
    Some {| id := match parseHTML_id element with
                  | Undefined | Null => Null
                  | v => v
                  end;
            label := match parseHTML_label element with
                     | Undefined | Null => Null
                     | v => v
                     end |}
  else None.

(** An attribute that is not truthy parses back as [null]. *)
Definition normalized (v : JSValue) : JSValue :=
  if truthy v then v else Null.

(** Each key occurs once, as in an object. *)
Definition uniqueKeys (o : Object) : Prop := NoDup (map fst o).

(** A key other than [class] and [style], which [mergeAttributes]
    combines in ways of their own. *)
Definition plainKey (k : string) : Prop := k <> "class" /\ k <> "style".

(** The attributes [renderHTML] merges before it hands over to the
    render function of the options: [data-type], the configured
    attributes, then [data-id] and [data-label]. *)
Definition nodeAttributes (mergeStyle : JSValue -> JSValue -> JSValue)
    (d : OptionsData) (n : PMNode) : Object :=
  mergeAttributes mergeStyle
    [ [("data-type", Str mention_name)]; HTMLAttributes d;
      getRenderedAttributes mergeStyle n addAttributes ].

(** Whether a character occurs in a string. *)
Fixpoint occurs (c : ascii) (s : string) : bool :=
  match s with
  | EmptyString => false
  | String c' rest => Ascii.eqb c' c || occurs c rest
  end.

(** The classes of an attribute record, read as [mergeAttributes] reads
    the classes of the record it merges into. *)
Definition classes (attrs_ : Object) : list string :=
  if truthy (get attrs_ "class")
  then split " "%char (toString (get attrs_ "class"))
  else [].

(** The state with the cursor moved to a position. *)
Definition withCursor (state : EditorState) (p : nat) : EditorState :=
  {| doc := doc state; selection := {| anchor := p; head := p |};
     schema := schema state |}.

(** More sample values. *)
Module MoreSamples.

(** [Sample.mentioned] with the cursor behind the text ["hi "]. *)
Definition cursorAfterText : EditorState :=
  {| doc := doc Sample.mentioned;
     selection := {| anchor := 4; head := 4 |};
     schema := schema Sample.mentioned |}.

(** Options without a trigger character. *)
Definition noChar : OptionsData :=
  {| HTMLAttributes := []; deleteTriggerWithBackspace := false;
     suggestion_char := Undefined |}.

(** Options that bring classes of their own. *)
Definition styled : MentionOptions :=
  {| data := {| HTMLAttributes := [("class", Str "big mention bold")];
                deleteTriggerWithBackspace := false;
                suggestion_char := Str "#" |};
     renderLabel := None;
     renderText := default_renderText;
     renderHTML := default_renderHTML joinStyle |}.

(** Two sessions of the popup, the second one still open. *)
Definition twoSessions : list PopupEvent :=
  [ OnStart {| clientRect := Some 1; query := "" |};
    OnUpdate {| clientRect := None; query := "jo" |};
    OnExit;
    OnStart {| clientRect := Some 2; query := "" |};
    OnKeyDown {| key := "ArrowDown" |} ].

(** A parent whose content expression is [mention? text*], and a
    document with one in it. *)
Definition leadType : NodeType :=
  {| name := "lead"; isLeaf := false; isInline := false;
     inlineContent := true;
     contentMatch :=
       {| automaton := [ {| validEnd := true;
                            next := [("mention", 1); ("text", 1)] |};
                         {| validEnd := true; next := [("text", 1)] |} ];
          current := 0 |} |}.

Definition leadDoc : PMNode :=
  PMElem Sample.docType Sample.noAttrs
    [PMElem leadType Sample.noAttrs [PMText "ab"]].

End MoreSamples.
(* ------------------------------------------------------------------ *)
(** * Properties                                                        *)
(* ------------------------------------------------------------------ *)

(** ** Tokens and sizes *)

Lemma fragmentTokens_cons c cs :
  fragmentTokens (c :: cs) = tokens c ++ fragmentTokens cs.
Proof. reflexivity. Qed.

Lemma fragmentTokens_app a b :
  fragmentTokens (a ++ b) = fragmentTokens a ++ fragmentTokens b.
Proof. unfold fragmentTokens. apply flat_map_app. Qed.

Lemma fragmentSize_cons c cs :
  fragmentSize (c :: cs) = nodeSize c + fragmentSize cs.
Proof. reflexivity. Qed.

Lemma textTokens_length s : length (textTokens s) = String.length s.
Proof.
  unfold textTokens. rewrite length_map.
  induction s; simpl; auto.
Qed.

Lemma tokens_length n : length (tokens n) = nodeSize n.
Proof.
  induction n as [s | t a cs IH] using PMNode_ind'.
  - apply textTokens_length.
  - simpl. destruct (isLeaf t); [reflexivity|].
    simpl. rewrite length_app. simpl.
    assert (H : length (flat_map tokens cs) = list_sum (map nodeSize cs)).
    { induction IH as [|c cs Hc _ IHcs]; simpl; [reflexivity|].
      rewrite length_app, Hc, IHcs. reflexivity. }
    rewrite H. lia.
Qed.

Lemma fragmentTokens_length cs :
  length (fragmentTokens cs) = fragmentSize cs.
Proof.
  induction cs as [|c cs IH]; [reflexivity|].
  rewrite fragmentTokens_cons, fragmentSize_cons, length_app, tokens_length.
  now rewrite IH.
Qed.

Lemma tokens_elem t a cs :
  isLeaf t = false ->
  tokens (PMElem t a cs) = TOpen t a :: fragmentTokens cs ++ [TClose].
Proof. intros H. simpl. now rewrite H. Qed.

Lemma nodeSize_elem t a cs :
  isLeaf t = false -> nodeSize (PMElem t a cs) = 2 + fragmentSize cs.
Proof. intros H. simpl. now rewrite H. Qed.

(** ** Texts *)

Lemma textTokens_append s t :
  textTokens (s ++ t) = textTokens s ++ textTokens t.
Proof.
  unfold textTokens. rewrite <- map_app. f_equal.
  induction s; simpl; [reflexivity | now f_equal].
Qed.

Lemma textTokens_substring s : forall a b,
  textTokens (substring a b s) = firstn b (skipn a (textTokens s)).
Proof.
  unfold textTokens.
  induction s as [|c s IH]; intros a b.
  - destruct a, b; reflexivity.
  - destruct a as [|a].
    + destruct b as [|b]; [reflexivity|]. simpl. f_equal. apply (IH 0 b).
    + simpl. apply IH.
Qed.

Lemma firstn_skipn_comm' {A} (l : list A) a b :
  firstn (b - a) (skipn a l) = skipn a (firstn b l).
Proof.
  revert a b. induction l as [|x l IH]; intros a b.
  - now rewrite !skipn_nil, !firstn_nil, skipn_nil.
  - destruct a as [|a]; simpl.
    + now rewrite Nat.sub_0_r.
    + destruct b as [|b]; simpl; [reflexivity|]. apply IH.
Qed.

Lemma textTokens_slice s a b :
  textTokens (slice s a b) = skipn a (firstn b (textTokens s)).
Proof. unfold slice. rewrite textTokens_substring. apply firstn_skipn_comm'. Qed.

(** ** Joining and cutting fragments *)

Lemma fragmentTokens_append a b :
  fragmentTokens (append a b) = fragmentTokens a ++ fragmentTokens b.
Proof.
  induction a as [|x a IH]; [reflexivity|].
  destruct x as [s | t at_ cs].
  - destruct a as [|y a].
    + destruct b as [|[s' | t' a' cs'] b]; simpl.
      * now rewrite !app_nil_r.
      * rewrite app_nil_r.
        change (map TChar (list_ascii_of_string (s ++ s'))) with (textTokens (s ++ s')).
        rewrite textTokens_append. unfold textTokens. now rewrite app_assoc.
      * now rewrite app_nil_r.
    + change (append (PMText s :: y :: a) b) with (PMText s :: append (y :: a) b).
      rewrite !fragmentTokens_cons, IH, fragmentTokens_cons. now rewrite app_assoc.
  - assert (E : append (PMElem t at_ cs :: a) b = PMElem t at_ cs :: append a b).
    { destruct a; reflexivity. }
    rewrite E, !fragmentTokens_cons, IH. now rewrite app_assoc.
Qed.
Ltac bools :=
  repeat match goal with
  | H : (_ <? _) = true |- _ => apply Nat.ltb_lt in H
  | H : (_ <? _) = false |- _ => apply Nat.ltb_ge in H
  | H : (_ <=? _) = true |- _ => apply Nat.leb_le in H
  | H : (_ <=? _) = false |- _ => apply Nat.leb_gt in H
  | H : (_ =? _) = true |- _ => apply Nat.eqb_eq in H
  | H : (_ =? _) = false |- _ => apply Nat.eqb_neq in H
  | H : (_ && _) = true |- _ => apply andb_true_iff in H; destruct H
  | H : (_ || _) = false |- _ => apply orb_false_iff in H; destruct H
  | H : negb _ = true |- _ => apply negb_true_iff in H
  | H : negb _ = false |- _ => apply negb_false_iff in H
  end.

Lemma aligned_before cs : forall p q, q <= p -> aligned cs p q = true.
Proof.
  induction cs as [|c cs IH]; intros p q Hq; simpl; [reflexivity|].
  rewrite IH by lia.
  destruct (p <? q) eqn:E; bools; [lia|]. reflexivity.
Qed.

Lemma indexAt_aligned cs : forall q i p j,
  indexAt cs q i p = Some j -> aligned cs p q = true.
Proof.
  induction cs as [|c cs IH]; intros q i p j H; simpl in *; [reflexivity|].
  destruct (q <=? p) eqn:E1; bools.
  - rewrite aligned_before by lia.
    destruct (p <? q) eqn:E; bools; [lia|]. reflexivity.
  - destruct (p + nodeSize c <=? q) eqn:E2; bools.
    + rewrite (IH _ _ _ _ H).
      destruct (q <? p + nodeSize c) eqn:E; bools; [lia|].
      now rewrite andb_false_r.
    + rewrite aligned_before by lia.
      destruct c; [now rewrite orb_true_r | discriminate].
Qed.

Lemma aligned_here p q e c :
  negb ((p <? q) && (q <? e)) || isText c = true ->
  isText c = true \/ q <= p \/ e <= q.
Proof.
  intros H. apply orb_true_iff in H as [H|H]; [|now left]. right.
  apply negb_true_iff, andb_false_iff in H as [H|H]; bools; lia.
Qed.

Lemma skipn_firstn_nil {A} (l : list A) a b : b <= a -> skipn a (firstn b l) = [].
Proof.
  intros H. apply skipn_all2. rewrite length_firstn. lia.
Qed.

Lemma cutChildren_tokens cs : forall p f t,
  aligned cs p f = true -> aligned cs p t = true ->
  fragmentTokens (cutChildren cutNode f t cs p)
  = skipn (f - p) (firstn (t - p) (fragmentTokens cs)).
Proof.
  induction cs as [|c cs IH]; intros p f t Hf Ht.
  - simpl. now rewrite firstn_nil, skipn_nil.
  - cbn [cutChildren]. cbn [aligned] in Hf, Ht.
    apply andb_true_iff in Hf as [Hf1 Hf2].
    apply andb_true_iff in Ht as [Ht1 Ht2].
    apply aligned_here in Hf1. apply aligned_here in Ht1.
    specialize (IH (p + nodeSize c) f t Hf2 Ht2).
    rewrite fragmentTokens_cons, firstn_app, skipn_app, length_firstn, tokens_length.
    destruct (p <? t) eqn:Ept; bools.
    2:{ replace (t - p) with 0 by lia. simpl. now rewrite !skipn_nil. }
    destruct (f <? p + nodeSize c) eqn:Efe; bools.
    2:{ rewrite IH.
        rewrite (skipn_all2 (firstn (t - p) (tokens c)))
          by (rewrite length_firstn, tokens_length; lia).
        simpl.
        destruct (Nat.le_gt_cases (nodeSize c) (t - p)).
        - f_equal; [lia | f_equal; lia].
        - replace (t - p - nodeSize c) with 0 by lia.
          replace (t - (p + nodeSize c)) with 0 by lia.
          simpl. now rewrite !skipn_nil. }
    rewrite fragmentTokens_cons, IH.
    replace (f - (p + nodeSize c)) with 0 by lia. rewrite skipn_O.
    assert (Hrest :
      skipn (f - p - Nat.min (t - p) (nodeSize c)) (firstn (t - p - nodeSize c) (fragmentTokens cs))
      = firstn (t - (p + nodeSize c)) (fragmentTokens cs)).
    { destruct (Nat.le_gt_cases (nodeSize c) (t - p)).
      - replace (f - p - Nat.min (t - p) (nodeSize c)) with 0 by lia.
        rewrite skipn_O. f_equal. lia.
      - replace (t - p - nodeSize c) with 0 by lia.
        replace (t - (p + nodeSize c)) with 0 by lia.
        simpl. now rewrite skipn_nil. }
    rewrite Hrest. f_equal.
    destruct ((p <? f) || (t <? p + nodeSize c)) eqn:Epart.
    + destruct c as [s | ty a ch].
      * cbn [tokens nodeSize] in *.
        change (map TChar (list_ascii_of_string ?x)) with (textTokens x).
        rewrite textTokens_slice. rewrite Nat.max_0_l.
        f_equal.
        destruct (Nat.le_gt_cases (String.length s) (t - p)).
        -- rewrite Nat.min_l by lia.
           rewrite !firstn_all2 by (rewrite textTokens_length; lia). reflexivity.
        -- rewrite Nat.min_r by lia. reflexivity.
      * exfalso.
        destruct Hf1 as [Hf1|Hf1]; [discriminate|].
        destruct Ht1 as [Ht1|Ht1]; [discriminate|].
        apply orb_true_iff in Epart as [E|E]; bools; lia.
    + bools.
      replace (f - p) with 0 by lia. rewrite skipn_O.
      rewrite firstn_all2 by (rewrite tokens_length; lia). reflexivity.
Qed.

Lemma cut_tokens cs f t :
  aligned cs 0 f = true -> aligned cs 0 t = true ->
  fragmentTokens (cut cs f t) = skipn f (firstn t (fragmentTokens cs)).
Proof.
  intros Hf Ht. unfold cut.
  destruct ((f =? 0) && (t =? fragmentSize cs)) eqn:E; bools.
  - subst. rewrite skipn_O, firstn_all2; [reflexivity|].
    rewrite fragmentTokens_length. lia.
  - destruct (f <? t) eqn:E2; bools.
    + rewrite cutChildren_tokens by assumption. now rewrite !Nat.sub_0_r.
    + now rewrite skipn_firstn_nil.
Qed.
(** ** Replacing a range *)

Lemma fragmentSize_app a b :
  fragmentSize (a ++ b) = fragmentSize a + fragmentSize b.
Proof.
  unfold fragmentSize. rewrite map_app, list_sum_app. reflexivity.
Qed.

Lemma aligned_after cs : forall p q,
  p + fragmentSize cs <= q -> aligned cs p q = true.
Proof.
  induction cs as [|c cs IH]; intros p q Hq; cbn [aligned]; [reflexivity|].
  rewrite fragmentSize_cons in Hq.
  rewrite IH by lia.
  destruct (q <? p + nodeSize c) eqn:E; bools; [lia|].
  now rewrite andb_false_r.
Qed.

Lemma replaceChildren_spec rec f t cs : forall p r,
  replaceChildren rec f t cs p = Some r ->
  exists pre c post,
    cs = pre ++ c :: post
    /\ isText c = false
    /\ p + fragmentSize pre < f
    /\ t < p + fragmentSize pre + nodeSize c
    /\ r = option_map (fun inner => pre ++ inner :: post)
             (rec c (f - (p + fragmentSize pre) - 1)
                    (t - (p + fragmentSize pre) - 1)).
Proof.
  induction cs as [|c cs IH]; intros p r H; cbn [replaceChildren] in H.
  - discriminate.
  - destruct ((p <? f) && (t <? p + nodeSize c)) eqn:E.
    + bools. destruct c as [s | ty a ch]; [discriminate|].
      injection H as <-.
      exists [], (PMElem ty a ch), cs. cbn [fragmentSize map list_sum app].
      rewrite !Nat.add_0_r. repeat split; auto.
    + destruct (replaceChildren rec f t cs (p + nodeSize c)) as [r'|] eqn:E';
        [|discriminate].
      injection H as <-.
      destruct (IH _ _ E') as (pre & c' & post & -> & Hc & Hlo & Hhi & ->).
      exists (c :: pre), c', post.
      rewrite fragmentSize_cons, !Nat.add_assoc.
      repeat split; auto.
      destruct (rec c' _ _); reflexivity.
Qed.

Lemma replaceNode_tokens guard slice_ n :
  forall depth_ from_ to_ n',
    from_ <= to_ ->
    replaceNode guard slice_ depth_ n from_ to_ = Some n' ->
    sameShell n n'
    /\ fragmentTokens (node_content n')
       = firstn from_ (fragmentTokens (node_content n))
         ++ fragmentTokens slice_
         ++ skipn to_ (fragmentTokens (node_content n)).
Proof.
  induction n as [s | ty a cs IH] using PMNode_ind';
    intros depth_ from_ to_ n' Hle H.
  - discriminate.
  - cbn [replaceNode] in H.
    destruct (replaceChildren (replaceNode guard slice_ (S depth_)) from_ to_ cs 0)
      as [r|] eqn:Edesc.
    + apply replaceChildren_spec in Edesc
        as (pre & c & post & -> & Hc & Hlo & Hhi & ->).
      cbn [Nat.add] in *.
      destruct (replaceNode guard slice_ (S depth_) c
                  (from_ - fragmentSize pre - 1) (to_ - fragmentSize pre - 1))
        as [inner|] eqn:Einner; [|discriminate].
      cbn [option_map] in H.
      assert (Hn : n' = PMElem ty a (pre ++ inner :: post)) by congruence.
      subst n'. clear H. split; [now split|]. cbn [node_content].
      apply Forall_app in IH as [_ IH]. apply Forall_cons_iff in IH as [IHc _].
      apply IHc in Einner as [Hty Htok]; [|lia].
      destruct c as [s | cty ca cch]; [discriminate|].
      destruct inner as [s' | ity ia ich]; [contradiction|].
      destruct Hty as [-> ->]. cbn [node_content] in *.
      assert (Hleaf : isLeaf cty = false).
      { destruct (isLeaf cty) eqn:El; [|reflexivity].
        simpl in Hhi. rewrite El in Hhi. lia. }
      rewrite nodeSize_elem in Hhi by assumption.
      rewrite !fragmentTokens_app, !fragmentTokens_cons.
      rewrite !tokens_elem by assumption.
      rewrite Htok.
      set (F := from_ - fragmentSize pre - 1) in *.
      set (T := to_ - fragmentSize pre - 1) in *.
      assert (HF : F <= length (fragmentTokens cch))
        by (rewrite fragmentTokens_length; lia).
      assert (HT : T <= length (fragmentTokens cch))
        by (rewrite fragmentTokens_length; lia).
      rewrite firstn_app, skipn_app, fragmentTokens_length.
      rewrite (firstn_all2 (fragmentTokens pre))
        by (rewrite fragmentTokens_length; lia).
      rewrite (skipn_all2 (fragmentTokens pre))
        by (rewrite fragmentTokens_length; lia).
      replace (from_ - fragmentSize pre) with (S F) by lia.
      replace (to_ - fragmentSize pre) with (S T) by lia.
      cbn [firstn skipn app].
      rewrite <- !app_assoc.
      rewrite (firstn_app F (fragmentTokens cch)), (skipn_app T (fragmentTokens cch)).
      replace (F - length (fragmentTokens cch)) with 0 by lia.
      replace (T - length (fragmentTokens cch)) with 0 by lia.
      cbn [firstn skipn app]. rewrite app_nil_r. reflexivity.
    + destruct (indexAt cs from_ 0 0) as [i|] eqn:Ei; [|discriminate].
      destruct (indexAt cs to_ 0 0) as [j|] eqn:Ej; [|discriminate].
      destruct ((from_ <=? to_) && canReplace (PMElem ty a cs) i j slice_
                && guard (PMElem ty a cs) from_ to_ depth_); [|discriminate].
      cbv zeta in H.
      destruct (validContent ty _); [|discriminate].
      match type of H with Some ?x = _ => assert (Hn : n' = x) by congruence end.
      subst n'. clear H. split; [now split|]. cbn [node_content].
      apply indexAt_aligned in Ei, Ej.
      rewrite !fragmentTokens_append.
      rewrite !cut_tokens;
        try assumption;
        try (apply aligned_before; lia);
        try (apply aligned_after; lia).
      rewrite skipn_O, <- app_assoc.
      rewrite (firstn_all2 (n := fragmentSize cs))
        by (rewrite fragmentTokens_length; lia).
      reflexivity.
Qed.
(** ** The traversal of the Backspace shortcut *)

Lemma nth_error_TLeaf_text s i t a :
  nth_error (textTokens s) i <> Some (TLeaf t a).
Proof.
  unfold textTokens. intros H.
  apply nth_error_In, in_map_iff in H as (c & Hc & _). discriminate.
Qed.

Lemma backspaceVisit_mention o n pos_ s :
  name (node_type n) = mention_name ->
  nodeSize n = 1 ->
  backspaceVisit o n pos_ s = (false, backspaceResult o pos_ s).
Proof.
  intros Hname Hsize. unfold backspaceVisit, backspaceResult, backspaceText.
  destruct s as [isMention tr]. rewrite Hname, String.eqb_refl, Hsize.
  reflexivity.
Qed.

Lemma backspaceVisit_other o n pos_ s :
  String.eqb (name (node_type n)) mention_name = false ->
  backspaceVisit o n pos_ s = (true, s).
Proof.
  intros Hname. unfold backspaceVisit.
  destruct s as [isMention tr]. now rewrite Hname.
Qed.

Lemma nodesBetween_mention o n :
  forall p nodeStart s ty a,
    forallb mentionsAreLeaves (node_content n) = true ->
    nth_error (fragmentTokens (node_content n)) p = Some (TLeaf ty a) ->
    name ty = mention_name ->
    nodesBetweenNode (backspaceVisit o) n p (p + 1) nodeStart s
    = backspaceResult o (nodeStart + p) s.
Proof.
  induction n as [s0 | nty na cs IH] using PMNode_ind';
    intros p nodeStart s ty a Hwf Htok Hname.
  - destruct p; discriminate.
  - cbn [nodesBetweenNode node_content] in *.
    assert (Hloop : forall pos_,
      pos_ <= p ->
      nth_error (fragmentTokens cs) (p - pos_) = Some (TLeaf ty a) ->
      nodesBetweenChildren (backspaceVisit o) (nodesBetweenNode (backspaceVisit o))
        p (p + 1) nodeStart cs pos_ s
      = backspaceResult o (nodeStart + p) s).
    { clear Htok. induction cs as [|c cs IHcs]; intros pos_ Hpos Htok.
      - destruct (p - pos_); discriminate.
      - cbn [nodesBetweenChildren].
        apply Forall_cons_iff in IH as [IHc IHrest].
        cbn [forallb] in Hwf. apply andb_true_iff in Hwf as [Hwfc Hwfrest].
        specialize (IHcs IHrest Hwfrest).
        replace (pos_ <? p + 1) with true by (symmetry; apply Nat.ltb_lt; lia).
        rewrite fragmentTokens_cons in Htok.
        destruct (p <? pos_ + nodeSize c) eqn:Ein; bools.
        + rewrite nth_error_app1 in Htok by (rewrite tokens_length; lia).
          destruct c as [txt | cty ca cch].
          * exfalso. exact (nth_error_TLeaf_text _ _ _ _ Htok).
          * destruct (isLeaf cty) eqn:Eleaf.
            -- (* the mention itself *)
               simpl in Htok, Ein. rewrite Eleaf in Htok, Ein.
               assert (Hp : p - pos_ = 0) by lia. rewrite Hp in Htok.
               simpl in Htok. injection Htok as -> ->.
               assert (p = pos_) by lia. subst pos_.
               assert (Hsize : nodeSize (PMElem ty a cch) = 1)
                 by (simpl; now rewrite Eleaf).
               rewrite backspaceVisit_mention by assumption.
               cbn [andb]. rewrite Hsize.
               destruct cs as [|c' cs']; cbn [nodesBetweenChildren].
               ++ reflexivity.
               ++ replace (p + 1 <? p + 1) with false
                    by (symmetry; apply Nat.ltb_ge; lia).
                  reflexivity.
            -- (* an ancestor of the mention *)
               rewrite tokens_elem in Htok by assumption.
               rewrite nodeSize_elem in Ein by assumption.
               destruct (p - pos_) as [|k] eqn:Ek; [discriminate|].
               cbn [nth_error] in Htok.
               assert (Hk : k < fragmentSize cch).
               { destruct (Nat.lt_ge_cases k (fragmentSize cch)); [assumption|].
                 exfalso. rewrite nth_error_app2 in Htok
                   by (rewrite fragmentTokens_length; lia).
                 destruct (k - length (fragmentTokens cch)) as [|[|]];
                   discriminate. }
               rewrite nth_error_app1 in Htok
                 by (rewrite fragmentTokens_length; lia).
               cbn [mentionsAreLeaves] in Hwfc. rewrite Eleaf in Hwfc.
               rewrite orb_false_r in Hwfc.
               apply andb_true_iff in Hwfc as [Hnm Hwfch].
               apply negb_true_iff in Hnm.
               rewrite backspaceVisit_other by assumption.
               cbn [node_content andb].
               replace (0 <? fragmentSize cch) with true
                 by (symmetry; apply Nat.ltb_lt; lia).
               rewrite Nat.max_0_l.
               replace (p - (pos_ + 1)) with k by lia.
               replace (Nat.min (fragmentSize cch) (p + 1 - (pos_ + 1)))
                 with (k + 1) by lia.
               rewrite (IHc k _ _ ty a Hwfch Htok Hname).
               replace (nodeStart + (pos_ + 1) + k) with (nodeStart + p) by lia.
               rewrite nodeSize_elem by assumption.
               destruct cs as [|c' cs']; cbn [nodesBetweenChildren].
               ++ reflexivity.
               ++ replace (pos_ + (2 + fragmentSize cch) <? p + 1) with false
                    by (symmetry; apply Nat.ltb_ge; lia).
                  reflexivity.
        + rewrite nth_error_app2 in Htok by (rewrite tokens_length; lia).
          rewrite tokens_length in Htok.
          apply IHcs; [lia|].
          replace (p - (pos_ + nodeSize c)) with (p - pos_ - nodeSize c) by lia.
          exact Htok. }
    apply Hloop; [lia|]. now rewrite Nat.sub_0_r.
Qed.
(** ** The nodes next to a position and the tokens there *)

Lemma nodeAfter_nodeAfterOf rp :
  nodeAfter rp =
  match innermost rp with
  | Some e => nodeAfterOf e (pos rp)
  | None => None
  end.
Proof.
  unfold nodeAfter, nodeAfterOf.
  destruct (innermost rp) as [[[parent_ index_] childStart]|]; reflexivity.
Qed.

Lemma firstChar_text s : firstChar (Some (PMText s)) = charAt (textTokens s) 0.
Proof. destruct s; reflexivity. Qed.

Lemma charAt_skipn toks d i : charAt (skipn d toks) i = charAt toks (d + i).
Proof. unfold charAt. now rewrite nth_error_skipn. Qed.

Lemma charAt_app1 a b i : i < length a -> charAt (a ++ b) i = charAt a i.
Proof. intros H. unfold charAt. now rewrite nth_error_app1. Qed.

Lemma charAt_app2 a b i :
  length a <= i -> charAt (a ++ b) i = charAt b (i - length a).
Proof. intros H. unfold charAt. now rewrite nth_error_app2. Qed.

Lemma charAt_elem_head t a cs rest :
  charAt (tokens (PMElem t a cs) ++ rest) 0 = None.
Proof. simpl. destruct (isLeaf t); reflexivity. Qed.

Lemma last_Some_cons {A} (x : A) l e :
  last (map Some l) None = Some e -> last (map Some (x :: l)) None = Some e.
Proof.
  destruct l as [|y l]; [discriminate|]. intros H. exact H.
Qed.

Lemma resolveNode_nodeAfter n :
  forall po start path_ po',
    isText n = false ->
    noEmptyText n = true ->
    po <= fragmentSize (node_content n) ->
    resolveNode n po start = (path_, po') ->
    exists e,
      last (map Some path_) None = Some e
      /\ firstChar (nodeAfterOf e (start + po))
         = charAt (fragmentTokens (node_content n)) po.
Proof.
  induction n as [s | nty na all IH] using PMNode_ind';
    intros po start path_ po' Hnt Hwf Hpo Hres.
  - discriminate.
  - cbn [resolveNode node_content noEmptyText] in *.
    assert (Hloop : forall cs pre index_ offset path_ po',
      all = pre ++ cs ->
      index_ = length pre ->
      offset = fragmentSize pre ->
      offset <= po <= offset + fragmentSize cs ->
      resolveChildren (PMElem nty na all) resolveNode po start cs index_ offset
        = (path_, po') ->
      exists e,
        last (map Some path_) None = Some e
        /\ firstChar (nodeAfterOf e (start + po))
           = charAt (fragmentTokens cs) (po - offset)).
    { clear Hres path_ po'.
      induction cs as [|c cs IHcs];
        intros pre index_ offset path_ po' Hall Hidx Hoff Hrange Hres;
        cbn [resolveChildren] in Hres.
      - injection Hres as <- <-. eexists. split; [reflexivity|].
        cbn [nodeAfterOf node_content]. subst index_ all.
        rewrite app_nil_r.
        replace (nth_error pre (length pre)) with (@None PMNode)
          by (symmetry; apply nth_error_None; lia).
        destruct (po - offset); reflexivity.
      - rewrite fragmentSize_cons in Hrange.
        assert (Hchild : nth_error all index_ = Some c).
        { subst all index_. rewrite nth_error_app2 by lia.
          now rewrite Nat.sub_diag. }
        assert (Hwfc : noEmptyText c = true).
        { subst all. rewrite forallb_app in Hwf.
          apply andb_true_iff in Hwf as [_ Hwf]. cbn [forallb] in Hwf.
          now apply andb_true_iff in Hwf as [Hwf _]. }
        destruct (po <=? offset) eqn:E1; bools.
        + injection Hres as <- <-. eexists. split; [reflexivity|].
          cbn [nodeAfterOf node_content]. rewrite Hchild.
          replace (start + po - (start + offset)) with 0 by lia.
          replace (po - offset) with 0 by lia.
          cbn [Nat.ltb Nat.leb]. rewrite fragmentTokens_cons.
          destruct c as [s | cty ca cch].
          * rewrite firstChar_text.
            change (tokens (PMText s)) with (textTokens s).
            rewrite charAt_app1; [reflexivity|].
            rewrite textTokens_length. cbn [noEmptyText] in Hwfc.
            destruct s; [discriminate | simpl; lia].
          * now rewrite charAt_elem_head.
        + rewrite fragmentTokens_cons.
          destruct (offset + nodeSize c <=? po) eqn:E2; bools.
          * apply (IHcs (pre ++ [c])) in Hres.
            -- destruct Hres as (e & He & Hfc). exists e. split; [assumption|].
               rewrite Hfc, charAt_app2 by (rewrite tokens_length; lia).
               rewrite tokens_length. f_equal. lia.
            -- subst all. now rewrite <- app_assoc.
            -- rewrite length_app. simpl. lia.
            -- rewrite fragmentSize_app, fragmentSize_cons. cbn. lia.
            -- lia.
          * destruct c as [s | cty ca cch].
            -- injection Hres as <- <-. eexists. split; [reflexivity|].
               cbn [nodeAfterOf node_content]. rewrite Hchild.
               replace (start + po - (start + offset)) with (po - offset) by lia.
               replace (0 <? po - offset) with true
                 by (symmetry; apply Nat.ltb_lt; lia).
               rewrite firstChar_text, textTokens_slice.
               rewrite firstn_all2 by (rewrite textTokens_length; lia).
               rewrite charAt_skipn, Nat.add_0_r.
               change (tokens (PMText s)) with (textTokens s).
               rewrite charAt_app1; [reflexivity|].
               rewrite textTokens_length. simpl in E2. lia.
            -- destruct (resolveNode (PMElem cty ca cch) (po - offset - 1)
                          (start + offset + 1)) as [below po''] eqn:Ebelow.
               injection Hres as <- <-.
               assert (Hleaf : isLeaf cty = false).
               { destruct (isLeaf cty) eqn:El; [|reflexivity].
                 simpl in E2. rewrite El in E2. lia. }
               rewrite nodeSize_elem in E2 by assumption.
               assert (IHc : exists e,
                 last (map Some below) None = Some e
                 /\ firstChar (nodeAfterOf e (start + offset + 1 + (po - offset - 1)))
                    = charAt (fragmentTokens cch) (po - offset - 1)).
               { subst all. apply Forall_app in IH as [_ IH].
                 apply Forall_cons_iff in IH as [IHc _].
                 eapply IHc; eauto. cbn [node_content]. lia. }
               destruct IHc as (e & He & Hfc). exists e.
               split; [now apply last_Some_cons|].
               replace (start + offset + 1 + (po - offset - 1)) with (start + po)
                 in Hfc by lia.
               rewrite Hfc. rewrite tokens_elem by assumption.
               assert (Hk : po - offset = S (po - offset - 1)) by lia.
               remember (po - offset - 1) as k eqn:Ek. rewrite Hk.
               unfold charAt. cbn [nth_error app].
               rewrite <- app_assoc.
               destruct (Nat.lt_ge_cases k (fragmentSize cch)).
               ++ rewrite nth_error_app1 by (rewrite fragmentTokens_length; lia).
                  reflexivity.
               ++ rewrite nth_error_app2 by (rewrite fragmentTokens_length; lia).
                  rewrite fragmentTokens_length.
                  replace (k - fragmentSize cch) with 0 by lia.
                  cbn [nth_error app].
                  replace (nth_error (fragmentTokens cch) k)
                    with (@None Token)
                    by (symmetry; apply nth_error_None;
                        rewrite fragmentTokens_length; lia).
                  reflexivity. }
    destruct (Hloop all [] 0 0 path_ po' eq_refl eq_refl eq_refl) as (e & He & Hfc).
    + cbn. lia.
    + exact Hres.
    + exists e. split; [assumption|]. now rewrite Nat.sub_0_r in Hfc.
Qed.
Lemma nodeBefore_nodeBeforeOf rp :
  nodeBefore rp =
  match innermost rp with
  | Some e => nodeBeforeOf e (pos rp)
  | None => None
  end.
Proof.
  unfold nodeBefore, nodeBeforeOf.
  destruct (innermost rp) as [[[parent_ index_] childStart]|]; reflexivity.
Qed.

Lemma leaf_before_boundary pre cs i ty a ch :
  i = length pre ->
  match i with
  | 0 => None
  | S j => nth_error (pre ++ cs) j
  end = Some (PMElem ty a ch) ->
  isLeaf ty = true ->
  1 <= fragmentSize pre
  /\ nth_error (fragmentTokens (pre ++ cs)) (fragmentSize pre - 1)
     = Some (TLeaf ty a).
Proof.
  intros Hi H Hleaf. destruct i as [|j]; [discriminate|].
  destruct (exists_last (l := pre)) as (pre' & x & ->).
  { intros ->. discriminate. }
  rewrite length_app in Hi. simpl in Hi.
  rewrite <- app_assoc in H. rewrite nth_error_app2 in H by lia.
  replace (j - length pre') with 0 in H by lia. simpl in H.
  injection H as ->.
  rewrite fragmentSize_app, fragmentSize_cons.
  replace (nodeSize (PMElem ty a ch)) with 1 by (simpl; now rewrite Hleaf).
  change (fragmentSize []) with 0.
  split; [lia|].
  rewrite <- app_assoc, fragmentTokens_app.
  rewrite nth_error_app2 by (rewrite fragmentTokens_length; lia).
  rewrite fragmentTokens_length.
  replace (fragmentSize pre' + (1 + 0) - 1 - fragmentSize pre') with 0 by lia.
  simpl. now rewrite Hleaf.
Qed.

Lemma resolveNode_nodeBefore n :
  forall po start path_ po',
    isText n = false ->
    po <= fragmentSize (node_content n) ->
    resolveNode n po start = (path_, po') ->
    exists e,
      last (map Some path_) None = Some e
      /\ forall ty a ch,
           nodeBeforeOf e (start + po) = Some (PMElem ty a ch) ->
           isLeaf ty = true ->
           1 <= po
           /\ nth_error (fragmentTokens (node_content n)) (po - 1)
              = Some (TLeaf ty a).
Proof.
  induction n as [s | nty na all IH] using PMNode_ind';
    intros po start path_ po' Hnt Hpo Hres.
  - discriminate.
  - cbn [resolveNode node_content] in *.
    assert (Hloop : forall cs pre index_ offset path_ po',
      all = pre ++ cs ->
      index_ = length pre ->
      offset = fragmentSize pre ->
      offset <= po <= offset + fragmentSize cs ->
      resolveChildren (PMElem nty na all) resolveNode po start cs index_ offset
        = (path_, po') ->
      exists e,
        last (map Some path_) None = Some e
        /\ forall ty a ch,
             nodeBeforeOf e (start + po) = Some (PMElem ty a ch) ->
             isLeaf ty = true ->
             1 <= po
             /\ nth_error (fragmentTokens all) (po - 1) = Some (TLeaf ty a)).
    { clear Hres path_ po'.
      assert (Hboundary : forall cs pre index_ offset,
        all = pre ++ cs -> index_ = length pre -> offset = fragmentSize pre ->
        po = offset ->
        forall ty a ch,
          nodeBeforeOf (PMElem nty na all, index_, start + offset) (start + po)
            = Some (PMElem ty a ch) ->
          isLeaf ty = true ->
          1 <= po
          /\ nth_error (fragmentTokens all) (po - 1) = Some (TLeaf ty a)).
      { intros cs pre index_ offset Hall Hidx Hoff Hpo' ty a ch Hnb Hleaf.
        cbn [nodeBeforeOf node_content] in Hnb.
        replace (start + po - (start + offset)) with 0 in Hnb by lia.
        cbn [Nat.ltb Nat.leb] in Hnb. subst all po offset.
        exact (leaf_before_boundary pre cs index_ ty a ch Hidx Hnb Hleaf). }
      induction cs as [|c cs IHcs];
        intros pre index_ offset path_ po' Hall Hidx Hoff Hrange Hres;
        cbn [resolveChildren] in Hres.
      - injection Hres as <- <-. eexists. split; [reflexivity|].
        apply (Hboundary [] pre); auto. cbn in Hrange. lia.
      - rewrite fragmentSize_cons in Hrange.
        assert (Hchild : nth_error all index_ = Some c).
        { subst all index_. rewrite nth_error_app2 by lia.
          now rewrite Nat.sub_diag. }
        destruct (po <=? offset) eqn:E1; bools.
        + injection Hres as <- <-. eexists. split; [reflexivity|].
          apply (Hboundary (c :: cs) pre); auto. lia.
        + destruct (offset + nodeSize c <=? po) eqn:E2; bools.
          * apply (IHcs (pre ++ [c])) in Hres; auto.
            -- subst all. now rewrite <- app_assoc.
            -- rewrite length_app. simpl. lia.
            -- rewrite fragmentSize_app, fragmentSize_cons. cbn. lia.
            -- lia.
          * destruct c as [s | cty ca cch].
            -- injection Hres as <- <-. eexists. split; [reflexivity|].
               intros ty a ch Hnb. exfalso.
               cbn [nodeBeforeOf node_content] in Hnb. rewrite Hchild in Hnb.
               destruct (0 <? start + po - (start + offset)) eqn:E3; bools;
                 [discriminate | lia].
            -- destruct (resolveNode (PMElem cty ca cch) (po - offset - 1)
                          (start + offset + 1)) as [below po''] eqn:Ebelow.
               injection Hres as <- <-.
               assert (Hleafc : isLeaf cty = false).
               { destruct (isLeaf cty) eqn:El; [|reflexivity].
                 simpl in E2. rewrite El in E2. lia. }
               rewrite nodeSize_elem in E2 by assumption.
               assert (IHc : exists e,
                 last (map Some below) None = Some e
                 /\ forall ty a ch,
                      nodeBeforeOf e (start + offset + 1 + (po - offset - 1))
                        = Some (PMElem ty a ch) ->
                      isLeaf ty = true ->
                      1 <= po - offset - 1
                      /\ nth_error (fragmentTokens cch) (po - offset - 1 - 1)
                         = Some (TLeaf ty a)).
               { pose proof IH as IH'. rewrite Hall in IH'.
                 apply Forall_app in IH' as [_ IH'].
                 apply Forall_cons_iff in IH' as [IHc _].
                 eapply IHc; eauto. cbn [node_content]. lia. }
               destruct IHc as (e & He & Hnb). exists e.
               split; [now apply last_Some_cons|].
               intros ty a ch Hb Hleaf.
               replace (start + offset + 1 + (po - offset - 1)) with (start + po)
                 in Hnb by lia.
               destruct (Hnb ty a ch Hb Hleaf) as [H1 Hth]. split; [lia|].
               subst all. rewrite fragmentTokens_app, fragmentTokens_cons.
               rewrite tokens_elem by assumption.
               rewrite nth_error_app2 by (rewrite fragmentTokens_length; lia).
               rewrite fragmentTokens_length.
               replace (po - 1 - fragmentSize pre) with (S (po - offset - 1 - 1))
                 by lia.
               cbn [app nth_error]. rewrite <- app_assoc.
               rewrite nth_error_app1; [exact Hth|].
               apply nth_error_Some. congruence. }
    destruct (Hloop all [] 0 0 path_ po' eq_refl eq_refl eq_refl) as (e & He & Hnb).
    + cbn. lia.
    + exact Hres.
    + exists e. split; assumption.
Qed.

Lemma resolve_nodeBefore doc_ p rp ty a ch :
  isText doc_ = false ->
  resolve doc_ p = Some rp ->
  nodeBefore rp = Some (PMElem ty a ch) ->
  isLeaf ty = true ->
  1 <= p
  /\ nth_error (fragmentTokens (node_content doc_)) (p - 1) = Some (TLeaf ty a).
Proof.
  intros Hnt H Hnb Hleaf. unfold resolve in H.
  destruct (p <=? fragmentSize (node_content doc_)) eqn:E; [|discriminate].
  bools.
  destruct (resolveNode doc_ p 0) as [path_ po] eqn:Eres.
  injection H as <-.
  destruct (resolveNode_nodeBefore doc_ p 0 path_ po Hnt E Eres)
    as (e & He & Hfc).
  rewrite nodeBefore_nodeBeforeOf in Hnb. unfold innermost in Hnb.
  cbn [path pos] in Hnb. rewrite He in Hnb.
  exact (Hfc ty a ch Hnb Hleaf).
Qed.
(** ** The insertion of the suggestion command *)

Lemma insertContentAt_mention sch tr range props tr' :
  schema_nodes sch mention_name = Some mentionType ->
  insertContentAt sch tr range [JSONNode mention_name props; JSONText " "]
    = Some tr' ->
  from range <= to range
  /\ replaceNode noGuard (mentionContent props) 0 (tr_doc tr)
       (from range) (to range) = Some (tr_doc tr')
  /\ tr_selection tr' = {| anchor := from range + 2; head := from range + 2 |}.
Proof.
  intros Hsch H. unfold insertContentAt in H.
  cbn [nodesFromJSON nodeFromJSON] in H. rewrite Hsch in H.
  cbn -[replaceWith near] in H.
  fold (mentionContent props) in H.
  destruct (replaceWith tr (from range) (to range) (mentionContent props))
    as [tr1|] eqn:Erep; [|discriminate].
  unfold replaceWith in Erep. cbn [mentionContent] in Erep.
  replace (fragmentSize [PMElem mentionType (computeAttrs props) []; PMText " "])
    with 2 in * by reflexivity.
  rewrite andb_false_r in Erep. fold (mentionContent props) in Erep.
  unfold applyStep in Erep.
  destruct (from range <=? to range) eqn:Ele; [|discriminate]. bools.
  destruct (replaceNode noGuard (mentionContent props) 0 (tr_doc tr)
              (from range) (to range)) as [doc'|] eqn:Edoc; [|discriminate].
  injection Erep as <-. cbn [tr_doc tr_steps] in H.
  unfold near in H.
  destruct (resolve doc' (from range + 2)) as [rp|]; [|discriminate].
  destruct (parent rp) as [parent_|]; [|discriminate].
  destruct (inlineContent (node_type parent_)); [|discriminate].
  injection H as <-. cbn [tr_doc tr_selection]. auto.
Qed.

Lemma startsWith_space n :
  match n with
  | Some n =>
      match node_text n with
      | Some text => startsWith text " "
      | None => false
      end
  | None => false
  end = isSpace (firstChar n).
Proof.
  destruct n as [[s | t a cs]|]; try reflexivity.
  destruct s as [|c s]; [reflexivity|].
  cbn [node_text firstChar isSpace startsWith prefix].
  destruct (ascii_dec c " ") as [->|Hne].
  - simpl. destruct s; reflexivity.
  - replace (Ascii.eqb c " ") with false
      by (symmetry; now apply Ascii.eqb_neq).
    destruct (ascii_dec " " c); [congruence | reflexivity].
Qed.

Lemma resolve_nodeAfter doc_ p rp :
  isText doc_ = false ->
  noEmptyText doc_ = true ->
  resolve doc_ p = Some rp ->
  firstChar (nodeAfter rp) = charAt (fragmentTokens (node_content doc_)) p.
Proof.
  intros Hnt Hwf H. unfold resolve in H.
  destruct (p <=? fragmentSize (node_content doc_)) eqn:E; [|discriminate].
  bools.
  destruct (resolveNode doc_ p 0) as [path_ po] eqn:Eres.
  injection H as <-.
  destruct (resolveNode_nodeAfter doc_ p 0 path_ po Hnt Hwf E Eres)
    as (e & He & Hfc).
  rewrite nodeAfter_nodeAfterOf. unfold innermost. cbn [path pos].
  rewrite He. exact Hfc.
Qed.

Lemma skipn_nth_error {A} (l : list A) n x :
  nth_error l n = Some x -> skipn n l = x :: skipn (S n) l.
Proof.
  revert n. induction l as [|y l IH]; intros [|n] H; try discriminate.
  - injection H as ->. reflexivity.
  - simpl in *. now apply IH.
Qed.

(** ** Steps and their tokens *)

Lemma applyStep_tokens guard tr from_ to_ slice_ tr' :
  applyStep guard tr from_ to_ slice_ = Some tr' ->
  fragmentTokens (node_content (tr_doc tr'))
  = firstn from_ (fragmentTokens (node_content (tr_doc tr)))
    ++ fragmentTokens slice_
    ++ skipn to_ (fragmentTokens (node_content (tr_doc tr)))
  /\ tr_steps tr' = tr_steps tr ++ [ReplaceStep from_ to_ slice_].
Proof.
  unfold applyStep. intros H.
  destruct (from_ <=? to_) eqn:Ele; [|discriminate]. bools.
  destruct (replaceNode guard slice_ 0 (tr_doc tr) from_ to_) as [doc'|] eqn:E;
    [|discriminate].
  injection H as <-. cbn [tr_doc tr_steps].
  apply replaceNode_tokens in E as [_ E]; auto.
Qed.

Lemma insertText_tokens tr text from_ to_ tr' :
  from_ < to_ ->
  insertText tr text from_ to_ = Some tr' ->
  fragmentTokens (node_content (tr_doc tr'))
  = firstn from_ (fragmentTokens (node_content (tr_doc tr)))
    ++ textTokens text
    ++ skipn to_ (fragmentTokens (node_content (tr_doc tr)))
  /\ tr_steps tr'
     = tr_steps tr
       ++ [ReplaceStep from_ to_
             (if String.eqb text "" then [] else [PMText text])].
Proof.
  intros Hlt H. unfold insertText in H.
  destruct (String.eqb text "") eqn:Etext.
  - apply String.eqb_eq in Etext. subst text.
    unfold deleteRange in H.
    replace (from_ =? to_) with false in H
      by (symmetry; apply Nat.eqb_neq; lia).
    now apply applyStep_tokens in H.
  - destruct (applyStep noGuard tr from_ to_ [PMText text]) as [tr1|] eqn:E;
      [|discriminate].
    apply applyStep_tokens in E as [Htok Hsteps].
    cbn [fragmentTokens flat_map tokens] in Htok. rewrite app_nil_r in Htok.
    destruct (negb (sel_empty (tr_selection tr1))
              && (sel_to (tr_selection tr1) =? from_ + String.length text));
      injection H as <-; cbn [tr_doc tr_steps]; auto.
Qed.

(** ** Resolving a position *)

Lemma resolveNode_path_nonempty n : forall po start,
  isText n = false -> fst (resolveNode n po start) <> [].
Proof.
  destruct n as [s | t a cs]; intros po start Hnt; [discriminate|].
  cbn [resolveNode]. clear Hnt.
  generalize (PMElem t a cs) as node_. intros node_.
  assert (H : forall i off,
    fst (resolveChildren node_ resolveNode po start cs i off) <> []);
    [|apply H].
  induction cs as [|c cs IH]; intros i off; cbn [resolveChildren].
  - cbn. congruence.
  - destruct (po <=? off); [cbn; congruence|].
    destruct (off + nodeSize c <=? po); [apply IH|].
    destruct c; [cbn; congruence|].
    match goal with
    | |- context [resolveNode ?x ?y ?z] => destruct (resolveNode x y z)
    end.
    cbn. congruence.
Qed.

(** [allow] answers at every position of the document. *)
Lemma allow_defined state range :
  isText (doc state) = false ->
  from range <= fragmentSize (node_content (doc state)) ->
  exists rp parent_,
    resolve (doc state) (from range) = Some rp
    /\ parent rp = Some parent_
    /\ suggestion_allow state range
       = Some (isSome (matchType (contentMatch (node_type parent_))
                                 (schema_nodes (schema state) mention_name))).
Proof.
  intros Hnt Hle. unfold suggestion_allow, resolve.
  replace (from range <=? fragmentSize (node_content (doc state))) with true
    by (symmetry; now apply Nat.leb_le).
  pose proof (resolveNode_path_nonempty (doc state) (from range) 0 Hnt) as Hne.
  destruct (resolveNode (doc state) (from range) 0) as [path_ po].
  cbn [fst] in Hne.
  assert (Hlast : exists e, last (map Some path_) None = Some e).
  { clear -Hne. induction path_ as [|x l IH]; [congruence|].
    destruct l as [|y l]; [now exists x|].
    destruct IH as [e He]; [discriminate|]. exists e. exact He. }
  destruct Hlast as [[[parent_ i] cstart] He].
  eexists _, parent_. split; [reflexivity|].
  unfold parent, innermost. cbn [path]. rewrite He. cbn. auto.
Qed.

(** ** Rendering *)

Section RenderingFacts.
Variable mergeStyle : JSValue -> JSValue -> JSValue.

Lemma hasKey_set o k v k' :
  hasKey (set o k v) k' = hasKey o k' || String.eqb k k'.
Proof.
  induction o as [|[k0 v0] o IH]; simpl.
  - now rewrite orb_false_r.
  - destruct (String.eqb k0 k) eqn:E; simpl.
    + apply String.eqb_eq in E. subst k0.
      destruct (String.eqb k k'); simpl; auto. now rewrite orb_false_r.
    + rewrite IH. now rewrite orb_assoc.
Qed.

Lemma get_set_other o k v k' :
  String.eqb k k' = false -> get (set o k v) k' = get o k'.
Proof.
  intros Hk. induction o as [|[k0 v0] o IH]; simpl.
  - now rewrite Hk.
  - destruct (String.eqb k0 k) eqn:E; simpl.
    + apply String.eqb_eq in E. subst k0. now rewrite Hk.
    + now rewrite IH.
Qed.

Lemma hasKey_mergeEntry m e k :
  hasKey (mergeEntry mergeStyle m e) k = hasKey m k || String.eqb (fst e) k.
Proof.
  destruct e as [key value]. unfold mergeEntry. simpl fst.
  destruct (negb (truthy (get m key))); [apply hasKey_set|].
  destruct (String.eqb key "class"); [apply hasKey_set|].
  destruct (String.eqb key "style"); apply hasKey_set.
Qed.

Lemma get_mergeEntry_other m e k :
  String.eqb (fst e) k = false -> get (mergeEntry mergeStyle m e) k = get m k.
Proof.
  destruct e as [key value]. unfold mergeEntry. simpl fst. intros Hk.
  destruct (negb (truthy (get m key))); [now apply get_set_other|].
  destruct (String.eqb key "class"); [now apply get_set_other|].
  destruct (String.eqb key "style"); now apply get_set_other.
Qed.

Lemma hasKey_mergeItem item : forall m k,
  hasKey (fold_left (mergeEntry mergeStyle) item m) k = hasKey m k || hasKey item k.
Proof.
  induction item as [|[k0 v0] item IH]; intros m k; cbn [fold_left hasKey].
  - now rewrite orb_false_r.
  - rewrite IH, hasKey_mergeEntry. cbn [fst]. now rewrite orb_assoc.
Qed.

Lemma get_mergeItem_other item : forall m k,
  hasKey item k = false ->
  get (fold_left (mergeEntry mergeStyle) item m) k = get m k.
Proof.
  induction item as [|[k0 v0] item IH]; intros m k Hk; cbn [fold_left hasKey] in *.
  - reflexivity.
  - apply orb_false_iff in Hk as [H1 H2].
    rewrite IH by assumption. now apply get_mergeEntry_other.
Qed.

Lemma mergeAttributes_snoc objs o :
  mergeAttributes mergeStyle (objs ++ [o]) =
  fold_left (mergeEntry mergeStyle) o (mergeAttributes mergeStyle objs).
Proof. unfold mergeAttributes. now rewrite fold_left_app. Qed.

Lemma hasKey_mergeAttributes objs k :
  hasKey (mergeAttributes mergeStyle objs) k = existsb (fun o => hasKey o k) objs.
Proof.
  induction objs as [|o objs IH] using rev_ind.
  - reflexivity.
  - rewrite mergeAttributes_snoc, hasKey_mergeItem, IH, existsb_app. simpl.
    now rewrite orb_false_r.
Qed.

Lemma get_mergeAttributes_first o objs k :
  existsb (fun o => hasKey o k) objs = false ->
  get (mergeAttributes mergeStyle (o :: objs)) k = get (mergeAttributes mergeStyle [o]) k.
Proof.
  induction objs as [|o' objs IH] using rev_ind; intros H.
  - reflexivity.
  - rewrite existsb_app in H. simpl in H. rewrite orb_false_r in H.
    apply orb_false_iff in H as [H1 H2].
    change (o :: objs ++ [o']) with ((o :: objs) ++ [o']).
    rewrite mergeAttributes_snoc, get_mergeItem_other by assumption. auto.
Qed.

Lemma hasKey_getRenderedAttributes n k :
  name (node_type n) = mention_name ->
  hasKey (getRenderedAttributes mergeStyle n addAttributes) k =
  (truthy (id (node_attrs n)) && String.eqb "data-id" k)
  || (truthy (label (node_attrs n)) && String.eqb "data-label" k).
Proof.
  intros Hname. unfold getRenderedAttributes, addAttributes.
  cbn [filter attr_type]. rewrite Hname. simpl.
  destruct (truthy (id (node_attrs n))), (truthy (label (node_attrs n))); simpl;
    unfold mergeAttributes; simpl;
    rewrite ?orb_false_r; reflexivity.
Qed.
End RenderingFacts.
Lemma truthy_Str s : s <> "" -> truthy (Str s) = true.
Proof. destruct s; [congruence | reflexivity]. Qed.

(** ** Where a replacement fits as it is *)

Lemma PMElem_inj t a cs t' a' cs' :
  PMElem t a cs = PMElem t' a' cs' -> t = t' /\ a = a' /\ cs = cs'.
Proof.
  intros H. repeat split.
  - exact (f_equal node_type H).
  - exact (f_equal node_attrs H).
  - exact (f_equal node_content H).
Qed.

Lemma within_elem n s P : within n s P -> isText n = false /\ isText P = false.
Proof.
  induction 1 as [t a cs | t a before c after s P Hleaf Hw IH].
  - split; reflexivity.
  - split; [reflexivity | apply IH].
Qed.

Lemma within_bound n s P :
  within n s P ->
  s + fragmentSize (node_content P) <= fragmentSize (node_content n).
Proof.
  induction 1 as [t a cs | t a before c after s P Hleaf Hw IH];
    cbn [node_content] in *; [lia|].
  rewrite fragmentSize_app, fragmentSize_cons.
  destruct c as [x | ct ca cc]; [now apply within_elem in Hw|].
  cbn [node_type node_content] in *. rewrite nodeSize_elem by assumption. lia.
Qed.

Lemma indexAt_range cs : forall p i off j,
  indexAt cs p i off = Some j -> p <= off + fragmentSize cs.
Proof.
  induction cs as [|c cs IH]; intros p i off j H; cbn [indexAt] in H.
  - destruct (p =? off) eqn:E; [|discriminate]. bools. cbn. lia.
  - rewrite fragmentSize_cons.
    destruct (p <=? off) eqn:E1; bools; [lia|].
    destruct (off + nodeSize c <=? p) eqn:E2; bools.
    + apply IH in H. lia.
    + lia.
Qed.

(** The parent a position resolves to, where its content starts, and
    the index of the position in it. *)
Lemma resolveNode_within n :
  forall po st path_ po',
    isText n = false ->
    po <= fragmentSize (node_content n) ->
    resolveNode n po st = (path_, po') ->
    exists P i cstart,
      last (map Some path_) None = Some (P, i, cstart)
      /\ within n (po - po') P
      /\ po' <= po
      /\ indexAt (node_content P) po' 0 0 = Some i
      /\ cstart = st + (po - po') + fragmentSize (firstn i (node_content P))
      /\ fragmentSize (firstn i (node_content P)) <= po'.
Proof.
  induction n as [x | nty na all IH] using PMNode_ind';
    intros po st path_ po' Hnt Hpo Hres; [discriminate|].
  cbn [resolveNode node_content] in *.
  assert (Hloop : forall cs pre index_ offset path_ po',
    all = pre ++ cs ->
    index_ = length pre ->
    offset = fragmentSize pre ->
    offset <= po <= offset + fragmentSize cs ->
    indexAt all po 0 0 = indexAt cs po index_ offset ->
    resolveChildren (PMElem nty na all) resolveNode po st cs index_ offset
      = (path_, po') ->
    exists P i cstart,
      last (map Some path_) None = Some (P, i, cstart)
      /\ within (PMElem nty na all) (po - po') P
      /\ po' <= po
      /\ indexAt (node_content P) po' 0 0 = Some i
      /\ cstart = st + (po - po') + fragmentSize (firstn i (node_content P))
      /\ fragmentSize (firstn i (node_content P)) <= po').
  { clear Hres path_ po'.
    assert (Hstop : forall cs pre index_ offset,
      all = pre ++ cs -> index_ = length pre -> offset = fragmentSize pre ->
      offset <= po ->
      indexAt all po 0 0 = Some index_ ->
      exists P i cstart,
        last (map Some [(PMElem nty na all, index_, st + offset)]) None
          = Some (P, i, cstart)
        /\ within (PMElem nty na all) (po - po) P
        /\ po <= po
        /\ indexAt (node_content P) po 0 0 = Some i
        /\ cstart = st + (po - po) + fragmentSize (firstn i (node_content P))
        /\ fragmentSize (firstn i (node_content P)) <= po).
    { intros cs pre index_ offset Hall Hidx Hoff Hle Hat.
      exists (PMElem nty na all), index_, (st + offset).
      rewrite Nat.sub_diag. cbn [node_content].
      assert (Hfirst : firstn index_ all = pre).
      { subst all index_. rewrite firstn_app, Nat.sub_diag, firstn_all.
        cbn. now rewrite app_nil_r. }
      rewrite Hfirst, <- Hoff.
      repeat split; auto; try constructor; lia. }
    induction cs as [|c cs IHcs];
      intros pre index_ offset path_ po' Hall Hidx Hoff Hrange Hinv Hres;
      cbn [resolveChildren] in Hres.
    - injection Hres as <- <-. apply (Hstop [] pre); auto; [lia|].
      rewrite Hinv. cbn [indexAt]. cbn in Hrange.
      replace (po =? offset) with true by (symmetry; apply Nat.eqb_eq; lia).
      reflexivity.
    - rewrite fragmentSize_cons in Hrange. cbn [indexAt] in Hinv.
      destruct (po <=? offset) eqn:E1.
      + injection Hres as <- <-. apply (Hstop (c :: cs) pre); auto. lia.
      + destruct (offset + nodeSize c <=? po) eqn:E2.
        * bools. apply (IHcs (pre ++ [c])) in Hres; auto.
          -- subst all. now rewrite <- app_assoc.
          -- rewrite length_app. simpl. lia.
          -- rewrite fragmentSize_app, fragmentSize_cons. cbn. lia.
          -- lia.
        * bools. destruct c as [x | cty ca cch].
          -- injection Hres as <- <-. apply (Hstop (PMText x :: cs) pre); auto.
             lia.
          -- destruct (resolveNode (PMElem cty ca cch) (po - offset - 1)
                        (st + offset + 1)) as [below po''] eqn:Ebelow.
             injection Hres as <- <-.
             assert (Hleafc : isLeaf cty = false).
             { destruct (isLeaf cty) eqn:El; [|reflexivity].
               simpl in E2. rewrite El in E2. lia. }
             rewrite nodeSize_elem in E2, Hrange by assumption.
             assert (IHc := IH). rewrite Hall in IHc.
             apply Forall_app in IHc as [_ IHc].
             apply Forall_cons_iff in IHc as [IHc _].
             apply IHc in Ebelow; [|reflexivity | cbn [node_content]; lia].
             destruct Ebelow as (P & i & cstart & Hlast & Hw & Hle & Hat & Hcs & Hfs).
             exists P, i, cstart.
             split; [now apply last_Some_cons|].
             split.
             { replace (po - po'') with
                 (fragmentSize pre + 1 + (po - offset - 1 - po'')) by lia.
               rewrite Hall. now constructor. }
             repeat split; auto; lia. }
  apply (Hloop all [] 0 0); auto. cbn. lia.
Qed.

(** A resolved position, its parent, the start of the parent and the
    index in it. *)
Lemma resolve_within doc_ p rp :
  isText doc_ = false ->
  resolve doc_ p = Some rp ->
  exists P i,
    parent rp = Some P
    /\ index rp = Some i
    /\ pos rp = p
    /\ within doc_ (start rp) P
    /\ parentOffset rp <= p
    /\ indexAt (node_content P) (parentOffset rp) 0 0 = Some i
    /\ innermost rp
       = Some (P, i, start rp + fragmentSize (firstn i (node_content P)))
    /\ fragmentSize (firstn i (node_content P)) <= parentOffset rp.
Proof.
  intros Hnt H. unfold resolve in H.
  destruct (p <=? fragmentSize (node_content doc_)) eqn:E; [|discriminate].
  bools.
  destruct (resolveNode doc_ p 0) as [path_ po] eqn:Er.
  assert (Hrp : rp = {| pos := p; path := path_; parentOffset := po |})
    by congruence.
  subst rp. clear H.
  apply resolveNode_within in Er; auto.
  destruct Er as (P & i & cstart & Hlast & Hw & Hle & Hat & Hcs & Hfs).
  exists P, i. unfold parent, index, innermost, start. cbn [pos path parentOffset].
  rewrite Hlast. cbn [option_map fst snd]. subst cstart.
  repeat split; auto.
Qed.

(** One start, one node. *)
Lemma split_unique (before : list PMNode) :
  forall before' c c' after after' k k',
    before ++ c :: after = before' ++ c' :: after' ->
    fragmentSize before + k = fragmentSize before' + k' ->
    k < nodeSize c -> k' < nodeSize c' ->
    before = before' /\ c = c' /\ after = after'.
Proof.
  induction before as [|x before IH];
    intros [|x' before'] c c' after after' k k' Heq Hsz Hk Hk';
    cbn [app] in Heq.
  - assert (c = c') by congruence. assert (after = after') by congruence. auto.
  - assert (c = x') by congruence. subst x'.
    rewrite fragmentSize_cons in Hsz. cbn in Hsz. lia.
  - assert (x = c') by congruence. subst x.
    rewrite fragmentSize_cons in Hsz. cbn in Hsz. lia.
  - assert (x = x') by congruence. subst x'.
    assert (Hrest : before ++ c :: after = before' ++ c' :: after') by congruence.
    rewrite !fragmentSize_cons in Hsz.
    destruct (IH before' c c' after after' k k' Hrest) as (-> & -> & ->);
      auto; lia.
Qed.

Lemma within_functional n s P :
  within n s P -> forall P', within n s P' -> P' = P.
Proof.
  induction 1 as [t a cs | t a before c after s P Hleaf Hw IH]; intros P' H'.
  - remember (PMElem t a cs) as n eqn:En. remember 0 as z eqn:Ez.
    destruct H' as [t' a' cs' | t' a' before' c' after' s' P' Hleaf' Hw'];
      [reflexivity | lia].
  - remember (PMElem t a (before ++ c :: after)) as n eqn:En.
    remember (fragmentSize before + 1 + s) as z eqn:Ez.
    destruct H' as [t' a' cs' | t' a' before' c' after' s' P' Hleaf' Hw'];
      [lia|].
    apply PMElem_inj in En as (_ & _ & Hcs).
    pose proof (within_bound _ _ _ Hw) as Hb.
    pose proof (within_bound _ _ _ Hw') as Hb'.
    assert (Hc : nodeSize c = 2 + fragmentSize (node_content c)).
    { destruct c as [x | ct ca cc]; [now apply within_elem in Hw|].
      now apply nodeSize_elem. }
    assert (Hc' : nodeSize c' = 2 + fragmentSize (node_content c')).
    { destruct c' as [x | ct ca cc]; [now apply within_elem in Hw'|].
      now apply nodeSize_elem. }
    destruct (split_unique before' before c' c after' after (1 + s') (1 + s))
      as (-> & -> & ->); auto; try lia.
    apply IH. replace s with s' by lia. exact Hw'.
Qed.

(** A range that reaches no child strictly inside it is replaced at
    this level. *)
Lemma replaceChildren_before rec f t cs : forall off,
  f <= off -> replaceChildren rec f t cs off = None.
Proof.
  induction cs as [|c cs IH]; intros off Hle; cbn [replaceChildren];
    [reflexivity|].
  replace (off <? f) with false by (symmetry; apply Nat.ltb_ge; lia).
  cbn [andb]. rewrite IH by lia. reflexivity.
Qed.

Lemma replaceChildren_here rec f t cs : forall i off k,
  indexAt cs f i off = Some k -> f <= t ->
  replaceChildren rec f t cs off = None.
Proof.
  induction cs as [|c cs IH]; intros i off k Hat Hle;
    cbn [replaceChildren indexAt] in *; [reflexivity|].
  destruct (f <=? off) eqn:E1; bools.
  - replace (off <? f) with false by (symmetry; apply Nat.ltb_ge; lia).
    cbn [andb]. rewrite replaceChildren_before by lia. reflexivity.
  - destruct (off + nodeSize c <=? f) eqn:E2; bools.
    + replace (t <? off + nodeSize c) with false
        by (symmetry; apply Nat.ltb_ge; lia).
      rewrite andb_false_r. now rewrite (IH _ _ _ Hat).
    + destruct c as [x | ct ca cc]; [|discriminate].
      destruct ((off <? f) && (t <? off + nodeSize (PMText x)));
        [reflexivity|].
      rewrite replaceChildren_before by lia. reflexivity.
Qed.

(** A range strictly inside a child is replaced inside that child. *)
Lemma replaceChildren_descend rec f t c after before : forall off,
  isText c = false ->
  off + fragmentSize before < f -> f <= t ->
  t < off + fragmentSize before + nodeSize c ->
  replaceChildren rec f t (before ++ c :: after) off
  = Some (option_map (fun inner => before ++ inner :: after)
            (rec c (f - (off + fragmentSize before) - 1)
                   (t - (off + fragmentSize before) - 1))).
Proof.
  intros off Hc. revert off.
  induction before as [|x before IH]; intros off Hlo Hle Hhi;
    cbn [app replaceChildren].
  - cbn in Hlo, Hhi. rewrite Nat.add_0_r in *.
    replace (off <? f) with true by (symmetry; apply Nat.ltb_lt; lia).
    replace (t <? off + nodeSize c) with true
      by (symmetry; apply Nat.ltb_lt; lia).
    cbn [andb]. destruct c as [y | ct ca cc]; [discriminate|].
    cbn [fragmentSize map list_sum app]. rewrite ?Nat.add_0_r.
    destruct (rec _ _ _); reflexivity.
  - rewrite fragmentSize_cons in *.
    replace (t <? off + nodeSize x) with false
      by (symmetry; apply Nat.ltb_ge; lia).
    rewrite andb_false_r, IH by lia.
    replace (off + nodeSize x + fragmentSize before)
      with (off + (nodeSize x + fragmentSize before)) by lia.
    cbn [option_map].
    destruct (rec c _ _); reflexivity.
Qed.

(** *** Content expressions that are a star *)

Lemma loopsOn_matchType cm t :
  loopsOn cm t = true -> matchType cm (Some t) = Some cm.
Proof.
  unfold loopsOn, matchType.
  destruct (find _ _) as [e|]; [|discriminate].
  intros H. bools. destruct cm as [au cur]. cbn in *. now subst.
Qed.

Lemma loops_matchFragment cm l :
  forallb (fun c => loopsOn cm (node_type c)) l = true ->
  matchFragment cm l = Some cm.
Proof.
  induction l as [|c l IH]; intros H; cbn [matchFragment forallb] in *;
    [reflexivity|].
  bools. rewrite loopsOn_matchType by assumption. auto.
Qed.

Lemma forallb_firstn {A} (f : A -> bool) l : forall k,
  forallb f l = true -> forallb f (firstn k l) = true.
Proof.
  induction l as [|x l IH]; intros [|k] H; cbn [firstn forallb] in *; auto.
  bools. rewrite IH by assumption. now rewrite andb_true_r.
Qed.

Lemma forallb_skipn {A} (f : A -> bool) l : forall k,
  forallb f l = true -> forallb f (skipn k l) = true.
Proof.
  induction l as [|x l IH]; intros [|k] H; cbn [skipn forallb] in *; auto.
  bools. auto.
Qed.

Lemma loops_canReplace n i j slice_ :
  validEnd (matchState (contentMatch (node_type n))) = true ->
  forallb (fun c => loopsOn (contentMatch (node_type n)) (node_type c))
          (node_content n) = true ->
  forallb (fun c => loopsOn (contentMatch (node_type n)) (node_type c))
          slice_ = true ->
  canReplace n i j slice_ = true.
Proof.
  intros Hend Hcs Hslice. unfold canReplace.
  rewrite loops_matchFragment by now apply forallb_firstn.
  rewrite loops_matchFragment by assumption.
  rewrite loops_matchFragment by now apply forallb_skipn.
  exact Hend.
Qed.

Lemma loops_validContent t content_ :
  validEnd (matchState (contentMatch t)) = true ->
  forallb (fun c => loopsOn (contentMatch t) (node_type c)) content_ = true ->
  validContent t content_ = true.
Proof.
  intros Hend H. unfold validContent. now rewrite loops_matchFragment.
Qed.

Lemma node_type_cutNode n f t : node_type (cutNode n f t) = node_type n.
Proof.
  destruct n as [x | ty a cs]; [reflexivity|]. cbn [cutNode].
  destruct ((f =? 0) && (t =? fragmentSize cs)); reflexivity.
Qed.

(** Cutting and appending bring no new node types. *)
Lemma types_cut (g : NodeType -> bool) cs f t :
  forallb (fun c => g (node_type c)) cs = true ->
  forallb (fun c => g (node_type c)) (cut cs f t) = true.
Proof.
  intros H. unfold cut.
  destruct ((f =? 0) && (t =? fragmentSize cs)); [assumption|].
  destruct (f <? t); [|reflexivity].
  generalize 0 as pos_.
  induction cs as [|c cs IHcs]; intros pos_; [reflexivity|].
  cbn [forallb] in H. apply andb_true_iff in H as [Hc Hcs].
  cbn [cutChildren].
  destruct (pos_ <? t); [|reflexivity].
  destruct (f <? pos_ + nodeSize c); [|now apply IHcs].
  cbn [forallb]. rewrite IHcs, andb_true_r by assumption.
  destruct ((pos_ <? f) || (t <? pos_ + nodeSize c)); [|assumption].
  destruct c as [x | cty ca cch]; [exact Hc|].
  now rewrite node_type_cutNode.
Qed.

Lemma types_append (g : NodeType -> bool) a : forall b,
  forallb (fun c => g (node_type c)) a = true ->
  forallb (fun c => g (node_type c)) b = true ->
  forallb (fun c => g (node_type c)) (append a b) = true.
Proof.
  induction a as [|x a IH]; intros b Ha Hb; [exact Hb|].
  cbn [forallb] in Ha. apply andb_true_iff in Ha as [Hx Ha].
  destruct a as [|y a].
  - destruct x as [s | t at_ cs].
    + destruct b as [|[s' | t' a' cs'] b]; cbn [append forallb] in *;
        rewrite ?Hx, ?Hb; auto.
    + cbn [append forallb]. now rewrite Hx, Hb.
  - assert (E : append (x :: y :: a) b = x :: append (y :: a) b)
      by (destruct x; reflexivity).
    rewrite E. cbn [forallb]. rewrite Hx. cbn [andb]. now apply IH.
Qed.

(** What a node that takes inline content gives the replacement. *)
Lemma takesInline_parts n :
  takesInline n = true ->
  validEnd (matchState (contentMatch (node_type n))) = true
  /\ loopsOn (contentMatch (node_type n)) textType = true
  /\ loopsOn (contentMatch (node_type n)) mentionType = true
  /\ forallb (fun c => loopsOn (contentMatch (node_type n)) (node_type c))
             (node_content n) = true.
Proof. unfold takesInline. intros H. bools. auto. Qed.

(** The new content of the parent, as [replace] builds it. *)
Lemma takesInline_replaced t a cs slice_ f to_ :
  takesInline (PMElem t a cs) = true ->
  forallb (fun c => loopsOn (contentMatch t) (node_type c)) slice_ = true ->
  takesInline
    (PMElem t a (append (append (cut cs 0 f) slice_)
                        (cut cs to_ (fragmentSize cs)))) = true.
Proof.
  intros H Hslice. apply takesInline_parts in H as (Hend & Htext & Hm & Hcs).
  unfold takesInline. cbn [node_type node_content] in *.
  rewrite Hend, Htext, Hm. cbn [andb].
  repeat apply types_append; auto using types_cut.
Qed.

(** The direct fit: a range with both ends in one parent is replaced
    there when the parent can take the new children. *)
Lemma replaceNode_fits guard slice_ n s P :
  within n s P ->
  forall d from_ to_ tP aP csP i j,
    P = PMElem tP aP csP ->
    s <= from_ -> from_ <= to_ ->
    indexAt csP (from_ - s) 0 0 = Some i ->
    indexAt csP (to_ - s) 0 0 = Some j ->
    canReplace P i j slice_ = true ->
    (forall dd, guard P (from_ - s) (to_ - s) dd = true) ->
    validContent tP
      (append (append (cut csP 0 (from_ - s)) slice_)
              (cut csP (to_ - s) (fragmentSize csP))) = true ->
    exists n',
      replaceNode guard slice_ d n from_ to_ = Some n'
      /\ node_type n' = node_type n
      /\ within n' s
           (PMElem tP aP
              (append (append (cut csP 0 (from_ - s)) slice_)
                      (cut csP (to_ - s) (fragmentSize csP)))).
Proof.
  induction 1 as [t a cs | t a before c after s P Hleaf Hw IH];
    intros d from_ to_ tP aP csP i j HP Hlo Hle Hi Hj Hcan Hguard Hvalid.
  - apply PMElem_inj in HP as (-> & -> & ->).
    rewrite !Nat.sub_0_r in *.
    eexists. cbn [replaceNode].
    rewrite (replaceChildren_here _ _ _ _ _ _ _ Hi Hle), Hi, Hj.
    replace (from_ <=? to_) with true by (symmetry; now apply Nat.leb_le).
    rewrite Hcan, Hguard. cbn [andb]. cbv zeta. rewrite Hvalid.
    split; [reflexivity|]. split; [reflexivity | constructor].
  - pose proof (within_bound _ _ _ Hw) as Hb. subst P. cbn [node_content] in Hb.
    pose proof (indexAt_range _ _ _ _ _ Hj) as Hto. cbn in Hto.
    assert (Hc : isText c = false) by now apply within_elem in Hw.
    assert (Hsz : nodeSize c = 2 + fragmentSize (node_content c)).
    { destruct c as [x | ct ca cc]; [discriminate|]. now apply nodeSize_elem. }
    destruct (IH (S d) (from_ - fragmentSize before - 1)
                (to_ - fragmentSize before - 1) tP aP csP i j eq_refl)
      as (c' & Hrep & Hty & Hw'); try lia.
    + now replace (from_ - fragmentSize before - 1 - s)
        with (from_ - (fragmentSize before + 1 + s)) by lia.
    + now replace (to_ - fragmentSize before - 1 - s)
        with (to_ - (fragmentSize before + 1 + s)) by lia.
    + assumption.
    + intros dd.
      replace (from_ - fragmentSize before - 1 - s)
        with (from_ - (fragmentSize before + 1 + s)) by lia.
      replace (to_ - fragmentSize before - 1 - s)
        with (to_ - (fragmentSize before + 1 + s)) by lia.
      apply Hguard.
    + replace (from_ - fragmentSize before - 1 - s)
        with (from_ - (fragmentSize before + 1 + s)) by lia.
      now replace (to_ - fragmentSize before - 1 - s)
        with (to_ - (fragmentSize before + 1 + s)) by lia.
    + replace (from_ - fragmentSize before - 1 - s)
        with (from_ - (fragmentSize before + 1 + s)) in Hw' by lia.
      replace (to_ - fragmentSize before - 1 - s)
        with (to_ - (fragmentSize before + 1 + s)) in Hw' by lia.
      exists (PMElem t a (before ++ c' :: after)). cbn [replaceNode].
      rewrite (replaceChildren_descend _ from_ to_ c after before 0) by (auto; lia).
      cbn [Nat.add]. rewrite Hrep. cbn [option_map].
      split; [reflexivity|]. split; [reflexivity|].
      constructor; [congruence | assumption].
Qed.

(** *** Resolving in the result *)

Lemma resolveChildren_here node_ rec q st cs : forall i off k,
  indexAt cs q i off = Some k ->
  exists cstart,
    resolveChildren node_ rec q st cs i off = ([(node_, k, cstart)], q).
Proof.
  induction cs as [|c cs IH]; intros i off k H;
    cbn [indexAt resolveChildren] in *.
  - destruct (q =? off); [|discriminate].
    assert (i = k) by congruence. subst. eauto.
  - destruct (q <=? off).
    + assert (i = k) by congruence. subst. eauto.
    + destruct (off + nodeSize c <=? q); [now apply IH|].
      destruct c as [x | ct ca cc]; [|discriminate].
      assert (i = k) by congruence. subst. eauto.
Qed.

Lemma resolveChildren_descend node_ rec q st c after before : forall i off,
  isText c = false ->
  off + fragmentSize before < q ->
  q < off + fragmentSize before + nodeSize c ->
  resolveChildren node_ rec q st (before ++ c :: after) i off
  = (let '(below, po) :=
       rec c (q - (off + fragmentSize before) - 1)
             (st + (off + fragmentSize before) + 1) in
     ((node_, i + length before, st + (off + fragmentSize before)) :: below, po)).
Proof.
  intros i off Hc. revert i off.
  induction before as [|x before IH]; intros i off Hlo Hhi;
    cbn [app resolveChildren].
  - cbn in Hlo, Hhi. rewrite Nat.add_0_r in *.
    replace (q <=? off) with false by (symmetry; apply Nat.leb_gt; lia).
    replace (off + nodeSize c <=? q) with false
      by (symmetry; apply Nat.leb_gt; lia).
    destruct c as [y | ct ca cc]; [discriminate|].
    cbn [fragmentSize map list_sum length].
    rewrite !Nat.add_0_r. reflexivity.
  - rewrite fragmentSize_cons in *.
    replace (q <=? off) with false by (symmetry; apply Nat.leb_gt; lia).
    replace (off + nodeSize x <=? q) with true
      by (symmetry; apply Nat.leb_le; lia).
    rewrite IH by lia. cbn [length].
    replace (off + nodeSize x + fragmentSize before)
      with (off + (nodeSize x + fragmentSize before)) by lia.
    replace (S i + length before) with (i + S (length before)) by lia.
    reflexivity.
Qed.

(** A position that lies in a node, outside its deeper nodes, resolves
    to that node. *)
Lemma within_resolveNode n s P :
  within n s P ->
  forall q st k,
    s <= q ->
    indexAt (node_content P) (q - s) 0 0 = Some k ->
    exists path_ cstart,
      resolveNode n q st = (path_, q - s)
      /\ last (map Some path_) None = Some (P, k, cstart).
Proof.
  induction 1 as [t a cs | t a before c after s P Hleaf Hw IH];
    intros q st k Hlo Hat.
  - cbn [node_content] in Hat. rewrite Nat.sub_0_r in *.
    cbn [resolveNode].
    destruct (resolveChildren_here (PMElem t a cs) resolveNode q st cs 0 0 k Hat)
      as [cstart ->].
    now exists [(PMElem t a cs, k, cstart)], cstart.
  - pose proof (within_bound _ _ _ Hw) as Hb.
    pose proof (indexAt_range _ _ _ _ _ Hat) as Hq. cbn [Nat.add] in Hq.
    assert (Hc : isText c = false) by now apply within_elem in Hw.
    assert (Hsz : nodeSize c = 2 + fragmentSize (node_content c)).
    { destruct c as [x | ct ca cc]; [discriminate|]. now apply nodeSize_elem. }
    cbn [resolveNode].
    rewrite (resolveChildren_descend _ resolveNode q st c after before 0 0)
      by (auto; lia).
    cbn [Nat.add].
    destruct (IH (q - fragmentSize before - 1) (st + fragmentSize before + 1) k)
      as (path_ & cstart & Hres & Hlast); [lia | |].
    { now replace (q - fragmentSize before - 1 - s)
        with (q - (fragmentSize before + 1 + s)) by lia. }
    rewrite Hres.
    replace (q - fragmentSize before - 1 - s)
      with (q - (fragmentSize before + 1 + s)) by lia.
    eexists. exists cstart. split; [reflexivity|].
    now apply last_Some_cons.
Qed.

(** *** Positions between children *)

Lemma indexAt_of_aligned cs : forall q i off,
  off <= q -> q <= off + fragmentSize cs ->
  aligned cs off q = true ->
  exists k, indexAt cs q i off = Some k.
Proof.
  induction cs as [|c cs IH]; intros q i off Hlo Hhi Hal; cbn [indexAt].
  - cbn in Hhi. replace (q =? off) with true
      by (symmetry; apply Nat.eqb_eq; lia). eauto.
  - rewrite fragmentSize_cons in Hhi. cbn [aligned] in Hal.
    apply andb_true_iff in Hal as [Hc Hrest].
    destruct (q <=? off) eqn:E1; [eauto|]. bools.
    destruct (off + nodeSize c <=? q) eqn:E2; bools.
    + apply IH; auto; lia.
    + destruct c as [x | ct ca cc]; [eauto|].
      apply aligned_here in Hc as [Hc | [Hc | Hc]]; [discriminate | lia | lia].
Qed.

Lemma aligned_append a : forall b p q,
  aligned a p q = true ->
  aligned b (p + fragmentSize a) q = true ->
  aligned (append a b) p q = true.
Proof.
  induction a as [|x a IH]; intros b p q Ha Hb.
  - cbn in Hb. now rewrite Nat.add_0_r in Hb.
  - rewrite fragmentSize_cons in Hb. cbn [aligned] in Ha.
    apply andb_true_iff in Ha as [Hx Ha].
    destruct a as [|y a].
    + cbn [fragmentSize map list_sum] in Hb. rewrite Nat.add_0_r in Hb.
      destruct x as [s | t at_ cs].
      * destruct b as [|[s' | t' a' cs'] b];
          cbn [append aligned isText] in *; rewrite ?orb_true_r; cbn [andb].
        -- reflexivity.
        -- apply andb_true_iff in Hb as [_ Hb].
           cbn [nodeSize] in *.
           assert (E : String.length (s ++ s') = String.length s + String.length s').
           { clear. induction s; cbn; auto. }
           now rewrite E, Nat.add_assoc.
        -- exact Hb.
      * cbn [append aligned]. now rewrite Hx, Hb.
    + assert (E : append (x :: y :: a) b = x :: append (y :: a) b)
        by (destruct x; reflexivity).
      rewrite E. cbn [aligned]. rewrite Hx. cbn [andb].
      apply IH; [assumption|]. now rewrite <- Nat.add_assoc.
Qed.

(** The size of a cut, and of the content a replacement makes. *)
Lemma fragmentSize_cut cs f t :
  f <= t -> t <= fragmentSize cs ->
  aligned cs 0 f = true -> aligned cs 0 t = true ->
  fragmentSize (cut cs f t) = t - f.
Proof.
  intros Hle Hhi Hf Ht.
  rewrite <- fragmentTokens_length, cut_tokens by assumption.
  rewrite length_skipn, length_firstn, fragmentTokens_length. lia.
Qed.

Lemma aligned_end cs p : aligned cs p (p + fragmentSize cs) = true.
Proof. apply aligned_after. lia. Qed.

(** Every position from the start to the end of the new nodes is a
    position of the new content, when the new nodes are leaves and
    texts. *)
Lemma aligned_replaced cs slice_ f t q :
  f <= t -> t <= fragmentSize cs ->
  aligned cs 0 f = true -> aligned cs 0 t = true ->
  f <= q -> q <= f + fragmentSize slice_ ->
  aligned slice_ f q = true ->
  aligned (append (append (cut cs 0 f) slice_) (cut cs t (fragmentSize cs))) 0 q
  = true.
Proof.
  intros Hle Hhi Hf Ht Hlo Hq Hs.
  assert (Hsz : fragmentSize (cut cs 0 f) = f).
  { rewrite fragmentSize_cut; auto; try lia. apply aligned_before. lia. }
  assert (Hsz' : fragmentSize (append (cut cs 0 f) slice_)
                 = f + fragmentSize slice_).
  { rewrite <- !fragmentTokens_length, fragmentTokens_append, length_app.
    rewrite !fragmentTokens_length. lia. }
  apply aligned_append.
  - apply aligned_append.
    + apply aligned_after. cbn. lia.
    + cbn [Nat.add]. now rewrite Hsz.
  - apply aligned_before. cbn [Nat.add]. lia.
Qed.

Lemma fragmentSize_replaced cs slice_ f t :
  f <= t -> t <= fragmentSize cs ->
  aligned cs 0 f = true -> aligned cs 0 t = true ->
  fragmentSize (append (append (cut cs 0 f) slice_) (cut cs t (fragmentSize cs)))
  = f + fragmentSize slice_ + (fragmentSize cs - t).
Proof.
  intros Hle Hhi Hf Ht.
  rewrite <- fragmentTokens_length, !fragmentTokens_append, !length_app.
  rewrite !fragmentTokens_length.
  rewrite !fragmentSize_cut; auto; try lia.
  - apply aligned_end with (p := 0).
  - apply aligned_before. lia.
Qed.

(** *** The suggestion command where the range fits *)

Lemma resolve_isText doc_ p rp P :
  resolve doc_ p = Some rp -> parent rp = Some P -> isText doc_ = false.
Proof.
  destruct doc_ as [x | t a cs]; [|reflexivity].
  unfold resolve. cbn. destruct (p <=? 0); [|discriminate].
  intros H. assert (E : path rp = []) by (injection H as <-; reflexivity).
  unfold parent, innermost. now rewrite E.
Qed.

Lemma resolve_in_range doc_ p :
  p <= fragmentSize (node_content doc_) ->
  exists rp, resolve doc_ p = Some rp.
Proof.
  intros H. unfold resolve.
  replace (p <=? fragmentSize (node_content doc_)) with true
    by (symmetry; now apply Nat.leb_le).
  destruct (resolveNode doc_ p 0). eauto.
Qed.

(** Both ends of a range in one parent: the positions in the parent. *)
Lemma same_parent doc_ f t rf rt P :
  resolve doc_ f = Some rf ->
  resolve doc_ t = Some rt ->
  start rf = start rt ->
  parent rf = Some P ->
  f <= t ->
  within doc_ (start rf) P
  /\ start rf <= f
  /\ t <= start rf + fragmentSize (node_content P)
  /\ (exists i, indexAt (node_content P) (f - start rf) 0 0 = Some i)
  /\ (exists j, indexAt (node_content P) (t - start rf) 0 0 = Some j).
Proof.
  intros Hrf Hrt Hstart HP Hle.
  pose proof (resolve_isText _ _ _ _ Hrf HP) as Hnt.
  destruct (resolve_within _ _ _ Hnt Hrf)
    as (P1 & i & HP1 & _ & Hpos1 & Hw1 & Hle1 & Hi & _).
  destruct (resolve_within _ _ _ Hnt Hrt)
    as (P2 & j & _ & _ & Hpos2 & Hw2 & Hle2 & Hj & _).
  assert (P1 = P) by congruence. subst P1.
  rewrite <- Hstart in Hw2.
  pose proof (within_functional _ _ _ Hw1 _ Hw2). subst P2.
  unfold start in *. rewrite Hpos1, Hpos2 in *.
  assert (E1 : f - (f - parentOffset rf) = parentOffset rf) by lia.
  assert (E2 : t - (f - parentOffset rf) = parentOffset rt) by lia.
  rewrite E1, E2.
  pose proof (indexAt_range _ _ _ _ _ Hj) as Hto. cbn [Nat.add] in Hto.
  repeat split; eauto; lia.
Qed.

Lemma mentionContent_loops cm :
  loopsOn cm textType = true -> loopsOn cm mentionType = true ->
  forall props,
    forallb (fun c => loopsOn cm (node_type c)) (mentionContent props) = true.
Proof.
  intros Ht Hm props. cbn [mentionContent forallb node_type].
  now rewrite Ht, Hm.
Qed.

Lemma suggestion_command_fits state range props rf rt tP aP csP :
  let toks := fragmentTokens (node_content (doc state)) in
  let to' := if isSpace (charAt toks (sel_to (selection state)))
             then to range + 1 else to range in
  let s := start rf in
  let content_ :=
    append (append (cut csP 0 (from range - s)) (mentionContent props))
           (cut csP (to' - s) (fragmentSize csP)) in
  noEmptyText (doc state) = true ->
  schema_nodes (schema state) mention_name = Some mentionType ->
  sel_to (selection state) <= fragmentSize (node_content (doc state)) ->
  resolve (doc state) (from range) = Some rf ->
  resolve (doc state) to' = Some rt ->
  start rf = start rt ->
  parent rf = Some (PMElem tP aP csP) ->
  takesInline (PMElem tP aP csP) = true ->
  inlineContent tP = true ->
  from range <= to' ->
  exists doc',
    suggestion_command state range props
    = Some {| doc := doc';
              selection := {| anchor := from range + 2; head := from range + 2 |};
              schema := schema state |}
    /\ replaceNode noGuard (mentionContent props) 0 (doc state) (from range) to'
       = Some doc'
    /\ within doc' s (PMElem tP aP content_)
    /\ s <= from range
    /\ to' <= s + fragmentSize csP
    /\ aligned csP 0 (from range - s) = true
    /\ aligned csP 0 (to' - s) = true.
Proof.
  intros toks to' s content_ Hwf Hsch Hcur Hrf Hrt Hstart HP Hstar Hinl Hle.
  pose proof (resolve_isText _ _ _ _ Hrf HP) as Hnt.
  destruct (same_parent _ _ _ _ _ _ Hrf Hrt Hstart HP Hle)
    as (Hw & Hlo & Hhi & [i Hi] & [j Hj]).
  fold s in Hw, Hlo, Hhi, Hi, Hj. cbn [node_content] in Hhi, Hi, Hj.
  pose proof (indexAt_aligned _ _ _ _ _ Hi) as Hai.
  pose proof (indexAt_aligned _ _ _ _ _ Hj) as Haj.
  pose proof (takesInline_parts _ Hstar) as (Hend & Htext & Hm & Hcs).
  cbn [node_type node_content] in Hend, Htext, Hm, Hcs.
  pose proof (mentionContent_loops _ Htext Hm props) as Hslice.
  destruct (replaceNode_fits noGuard (mentionContent props) _ _ _ Hw
              0 (from range) to' tP aP csP i j eq_refl Hlo Hle Hi Hj)
    as (doc' & Hrep & _ & Hw').
  { now apply loops_canReplace. }
  { reflexivity. }
  { apply loops_validContent; [assumption|].
    repeat apply types_append; auto using types_cut. }
  fold content_ in Hw'.
  exists doc'. split; [|repeat split; auto].
  (* the command *)
  unfold suggestion_command.
  destruct (resolve_in_range _ _ Hcur) as [rc Hrc]. rewrite Hrc.
  rewrite startsWith_space, (resolve_nodeAfter _ _ _ Hnt Hwf Hrc).
  fold toks.
  set (b := isSpace (charAt toks (sel_to (selection state)))) in *.
  set (r := if b then {| from := from range; to := to range + 1 |} else range).
  assert (Hfrom : from r = from range) by (unfold r; destruct b; reflexivity).
  assert (Hto : to r = to') by (unfold r, to'; destruct b; reflexivity).
  unfold insertContentAt. cbn [nodesFromJSON nodeFromJSON].
  rewrite Hsch. cbn [option_map String.eqb Ascii.eqb Bool.eqb].
  fold (mentionContent props).
  cbn [forallb isText isBlock mentionContent node_type mentionType isInline
       negb andb orb].
  fold (mentionContent props).
  rewrite Hfrom, Hto.
  unfold replaceWith.
  replace (fragmentSize (mentionContent props)) with 2 by reflexivity.
  cbn [Nat.eqb]. rewrite andb_false_r.
  unfold applyStep.
  replace (from range <=? to') with true by (symmetry; now apply Nat.leb_le).
  cbn [state_tr tr_doc]. rewrite Hrep. cbn [tr_doc tr_steps tr_selection].
  (* the cursor behind the insertion *)
  assert (Hsz : fragmentSize content_
                = from range - s + 2 + (fragmentSize csP - (to' - s))).
  { unfold content_. rewrite fragmentSize_replaced; auto; lia. }
  pose proof (within_bound _ _ _ Hw') as Hb. cbn [node_content] in Hb.
  assert (Hal : aligned content_ 0 (from range + 2 - s) = true).
  { unfold content_. apply aligned_replaced; auto; try lia.
    - replace (fragmentSize (mentionContent props)) with 2 by reflexivity. lia.
    - apply aligned_after.
      replace (fragmentSize (mentionContent props)) with 2 by reflexivity. lia. }
  destruct (indexAt_of_aligned content_ (from range + 2 - s) 0 0) as [k Hk];
    auto; try lia.
  destruct (within_resolveNode _ _ _ Hw' (from range + 2) 0 k)
    as (path_ & cstart & Hres & Hlast); [lia | exact Hk |].
  unfold near, resolve.
  replace (from range + 2 <=? fragmentSize (node_content doc')) with true
    by (symmetry; apply Nat.leb_le; lia).
  rewrite Hres. unfold parent, innermost. cbn [path]. rewrite Hlast.
  cbn [option_map fst node_type]. rewrite Hinl.
  unfold state_apply, collapseToEnd, sel_to. cbn [doc selection schema anchor head].
  now rewrite Nat.max_id.
Qed.

(** *** Replacing a node by a text where the parent takes it *)

Lemma insertText_fits tr text f t s tP aP csP :
  within (tr_doc tr) s (PMElem tP aP csP) ->
  takesInline (PMElem tP aP csP) = true ->
  s <= f -> f < t -> t <= s + fragmentSize csP ->
  aligned csP 0 (f - s) = true ->
  aligned csP 0 (t - s) = true ->
  exists tr', insertText tr text f t = Some tr'.
Proof.
  intros Hw Hstar Hlo Hlt Hhi Haf Hat.
  destruct (indexAt_of_aligned csP (f - s) 0 0) as [i Hi]; auto; try lia.
  destruct (indexAt_of_aligned csP (t - s) 0 0) as [j Hj]; auto; try lia.
  pose proof (takesInline_parts _ Hstar) as (Hend & Htext & Hm & Hcs).
  cbn [node_type node_content] in Hend, Htext, Hm, Hcs.
  unfold insertText.
  destruct (String.eqb text "").
  - unfold deleteRange.
    replace (f =? t) with false by (symmetry; apply Nat.eqb_neq; lia).
    unfold applyStep.
    replace (f <=? t) with true by (symmetry; apply Nat.leb_le; lia).
    destruct (replaceNode_fits deleteGuard [] _ _ _ Hw
                0 f t tP aP csP i j eq_refl)
      as (doc' & Hrep & _); auto; try lia.
    + now apply loops_canReplace.
    + intros dd. unfold deleteGuard. cbn [node_type].
      rewrite Hend. now rewrite orb_true_r.
    + apply loops_validContent; [assumption|].
      repeat apply types_append; auto using types_cut.
    + rewrite Hrep. eauto.
  - unfold applyStep.
    replace (f <=? t) with true by (symmetry; apply Nat.leb_le; lia).
    assert (Hslice : forallb (fun c => loopsOn (contentMatch tP) (node_type c))
                       [PMText text] = true).
    { cbn [forallb node_type]. now rewrite Htext. }
    destruct (replaceNode_fits noGuard [PMText text] _ _ _ Hw
                0 f t tP aP csP i j eq_refl)
      as (doc' & Hrep & _); auto; try lia.
    + now apply loops_canReplace.
    + apply loops_validContent; [assumption|].
      repeat apply types_append; auto using types_cut.
    + rewrite Hrep.
      match goal with
      | |- context [if ?c then _ else _] => destruct c
      end; eauto.
Qed.

(** The positions between the children of a node. *)
Lemma aligned_boundary cs : forall k p,
  aligned cs p (p + fragmentSize (firstn k cs)) = true.
Proof.
  induction cs as [|c cs IH]; intros k p; [reflexivity|].
  destruct k as [|k].
  - cbn [firstn]. apply aligned_before. cbn. lia.
  - cbn [firstn aligned]. rewrite fragmentSize_cons.
    replace (p + (nodeSize c + fragmentSize (firstn k cs)) <? p + nodeSize c)
      with false by (symmetry; apply Nat.ltb_ge; lia).
    rewrite andb_false_r. cbn [negb orb andb].
    rewrite Nat.add_assoc. apply IH.
Qed.

Lemma indexAt_index_le cs : forall q i off k,
  indexAt cs q i off = Some k -> i <= k.
Proof.
  induction cs as [|c cs IH]; intros q i off k H; cbn [indexAt] in H.
  - destruct (q =? off); [|discriminate]. assert (i = k) by congruence. lia.
  - destruct (q <=? off); [assert (i = k) by congruence; lia|].
    destruct (off + nodeSize c <=? q).
    + apply IH in H. lia.
    + destruct c; [assert (i = k) by congruence; lia | discriminate].
Qed.

(** A position whose index points at a node that is not a text lies
    right before that node. *)
Lemma indexAt_elem cs : forall q i off k t a ch,
  indexAt cs q i off = Some k ->
  nth_error cs (k - i) = Some (PMElem t a ch) ->
  q <= off + fragmentSize (firstn (k - i) cs).
Proof.
  induction cs as [|c cs IH]; intros q i off k t a ch H Hnth;
    cbn [indexAt] in H.
  - destruct (k - i); discriminate.
  - destruct (q <=? off) eqn:E1.
    + bools. lia.
    + destruct (off + nodeSize c <=? q) eqn:E2.
      * pose proof (indexAt_index_le _ _ _ _ _ H) as Hik.
        replace (k - i) with (S (k - S i)) in * by lia.
        cbn [nth_error firstn] in *. rewrite fragmentSize_cons.
        specialize (IH _ _ _ _ _ _ _ H Hnth). lia.
      * destruct c as [x|]; [|discriminate].
        assert (i = k) by congruence. subst.
        rewrite Nat.sub_diag in Hnth. discriminate.
Qed.

Lemma firstn_S_nth_error {A} (l : list A) : forall k x,
  nth_error l k = Some x -> firstn (S k) l = firstn k l ++ [x].
Proof.
  induction l as [|y l IH]; intros [|k] x H; try discriminate.
  - cbn in H. assert (y = x) by congruence. now subst.
  - cbn [nth_error] in H. cbn [firstn app] in *. f_equal. now apply IH.
Qed.

(** The position right before a leaf that is the node before a
    resolved position. *)
Lemma nodeBefore_leaf_aligned doc_ p rp P ty a ch :
  resolve doc_ p = Some rp ->
  parent rp = Some P ->
  nodeBefore rp = Some (PMElem ty a ch) ->
  isLeaf ty = true ->
  within doc_ (start rp) P
  /\ start rp + 1 <= p
  /\ p <= start rp + fragmentSize (node_content P)
  /\ aligned (node_content P) 0 (p - 1 - start rp) = true
  /\ aligned (node_content P) 0 (p - start rp) = true.
Proof.
  intros Hres HP Hnb Hleaf.
  pose proof (resolve_isText _ _ _ _ Hres HP) as Hnt.
  destruct (resolve_within _ _ _ Hnt Hres)
    as (P1 & i & HP1 & _ & Hpos & Hw & Hle & Hi & Hinner & Hfs).
  assert (P1 = P) by congruence. subst P1.
  pose proof (indexAt_range _ _ _ _ _ Hi) as Hhi. cbn [Nat.add] in Hhi.
  pose proof (indexAt_aligned _ _ _ _ _ Hi) as Hal.
  rewrite nodeBefore_nodeBeforeOf, Hinner in Hnb.
  cbn [nodeBeforeOf] in Hnb.
  unfold start in *. rewrite Hpos in *.
  set (po := parentOffset rp) in *.
  set (cs := node_content P) in *.
  replace (p - (p - po + fragmentSize (firstn i cs)))
    with (po - fragmentSize (firstn i cs)) in Hnb by lia.
  assert (E : p - (p - po) = po) by lia.
  destruct (0 <? po - fragmentSize (firstn i cs)) eqn:Ed; bools.
  - exfalso.
    destruct (nth_error cs i) as [[x | t' a' ch']|] eqn:Enth; try discriminate.
    pose proof (indexAt_elem cs po 0 0 i t' a' ch' Hi) as Hq.
    rewrite Nat.sub_0_r in Hq. specialize (Hq Enth). cbn [Nat.add] in Hq. lia.
  - destruct i as [|i']; [discriminate|].
    assert (Hpo : po = fragmentSize (firstn (S i') cs)) by lia.
    pose proof (firstn_S_nth_error _ _ _ Hnb) as Hsplit.
    rewrite Hsplit, fragmentSize_app, fragmentSize_cons in Hpo.
    cbn [nodeSize] in Hpo. rewrite Hleaf in Hpo. cbn in Hpo.
    rewrite E.
    repeat split; auto; try lia.
    replace (p - 1 - (p - po)) with (0 + fragmentSize (firstn i' cs)) by lia.
    apply aligned_boundary.
Qed.

(* ------------------------------------------------------------------ *)
(** * The claims                                                        *)
(* ------------------------------------------------------------------ *)

(** ** Rendering *)

(** C1.  The default [renderText] returns the trigger character followed
    by the label of the node when the label is set, and followed by the
    id of the node when the label is [null] or [undefined]; with the
    default options the trigger character is ["@"], so the text is
    ["@" + (label ?? id)]. *)
Theorem renderText_default :
  forall (mergeStyle : JSValue -> JSValue -> JSValue)
         (o : OptionsData) (t : NodeType) (i : JSValue) (l : string)
         (cs : list PMNode),
    default_renderText
      {| options := o; node := PMElem t {| id := i; label := Str l |} cs |}
    = (toString (suggestion_char o) ++ l)%string
    /\ default_renderText
         {| options := o; node := PMElem t {| id := i; label := Null |} cs |}
       = (toString (suggestion_char o) ++ toString i)%string
    /\ default_renderText
         {| options := o; node := PMElem t {| id := i; label := Undefined |} cs |}
       = (toString (suggestion_char o) ++ toString i)%string
    /\ Mention_renderText (addOptions mergeStyle)
         (PMElem t {| id := i; label := Str l |} cs) = (("@" ++ l)%string, [])
    /\ Mention_renderText (addOptions mergeStyle)
         (PMElem t {| id := i; label := Null |} cs)
       = (("@" ++ toString i)%string, [])
    /\ forall n : PMNode,
         Mention_renderText (addOptions mergeStyle) n
         = (("@" ++ toString (nullish (label (node_attrs n))
                                      (id (node_attrs n))))%string, []).
Proof.
  intros. repeat split.
Qed.

(** C5.  Markdown serialisation writes exactly
    ["[@" + (label ?? id) + "](/thoughts/" + id + ")"], in one call of
    [state.write], and the storage has no parse rule. *)
Theorem markdown_serialize_format :
  forall (state : MarkdownSerializerState) (n : PMNode),
    serialize addStorage_markdown state n
    = write state
        ("[@" ++ toString (nullish (label (node_attrs n)) (id (node_attrs n)))
         ++ "](/thoughts/" ++ toString (id (node_attrs n)) ++ ")")%string
    /\ written (serialize addStorage_markdown state n)
       = written state
         ++ [("[@" ++ toString (nullish (label (node_attrs n)) (id (node_attrs n)))
              ++ "](/thoughts/" ++ toString (id (node_attrs n)) ++ ")")%string]
    /\ parse addStorage_markdown = [].
Proof.
  intros. repeat split.
Qed.

(** C6, as stated, fails: an id that is set and empty is not rendered
    ([addAttributes] returns no attribute for a falsy value), and the
    markup of the node has no [data-id] at all. *)
Lemma empty_id_is_not_rendered :
  serializeHTML joinStyle (addOptions joinStyle)
    (PMElem mentionType Sample.emptyId [])
  = (DOMArray "a"
       [ ("class", Str "mention");
         ("href", Str "/thoughts/");
         ("data-type", Str "mention");
         ("data-label", Str "Notes") ]
       [DOMString "@Notes"],
     [])
  /\ hasKey (dom_attrs (fst (serializeHTML joinStyle (addOptions joinStyle)
                               (PMElem mentionType Sample.emptyId []))))
            "data-id" = false.
Proof.
  split; reflexivity.
Qed.

(** C6, amended.  With the default options, a mention node whose id and
    label are non-empty strings is serialised as an [a] element that
    carries [class="mention"], [data-type="mention"], [data-id] equal to
    the id and [data-label] equal to the label (and the [href] of the
    thought), with the text ["@" + label]. *)
Theorem serializeHTML_default :
  forall (mergeStyle : JSValue -> JSValue -> JSValue)
         (t : NodeType) (i l : string) (cs : list PMNode),
    name t = mention_name ->
    i <> "" -> l <> "" ->
    serializeHTML mergeStyle (addOptions mergeStyle)
      (PMElem t {| id := Str i; label := Str l |} cs)
    = (DOMArray "a"
         [ ("class", Str "mention");
           ("href", Str ("/thoughts/" ++ i)%string);
           ("data-type", Str "mention");
           ("data-id", Str i);
           ("data-label", Str l) ]
         [DOMString ("@" ++ l)%string],
       []).
Proof.
  intros mergeStyle t i l cs Hname Hi Hl.
  unfold serializeHTML, Mention_renderHTML, getRenderedAttributes, addAttributes.
  cbn [filter attr_type node_type]. rewrite Hname.
  cbn -[truthy mergeAttributes].
  rewrite !truthy_Str by assumption. reflexivity.
Qed.

Lemma serializeHTML_default_witness :
  serializeHTML joinStyle (addOptions joinStyle)
    (PMElem mentionType {| id := Str "doc123"; label := Str "Label" |} [])
  = (DOMArray "a"
       [ ("class", Str "mention");
         ("href", Str "/thoughts/doc123");
         ("data-type", Str "mention");
         ("data-id", Str "doc123");
         ("data-label", Str "Label") ]
       [DOMString "@Label"],
     []).
Proof.
  apply (serializeHTML_default joinStyle mentionType "doc123" "Label" []);
    [reflexivity | discriminate | discriminate].
Defined.

(** C7, as stated, fails: a render function of the user's own decides
    the element, and the one of [Sample.customOptions] renders a [span]
    with no [href] at all. *)
Lemma custom_renderHTML_has_no_href :
  fst (serializeHTML joinStyle Sample.customOptions
         (PMElem mentionType Sample.john []))
  = DOMArray "span" [("class", Str "chip")] [DOMString "doc123"]
  /\ get (dom_attrs (fst (serializeHTML joinStyle Sample.customOptions
                            (PMElem mentionType Sample.john []))))
         "href"
     <> Str "/thoughts/doc123".
Proof.
  split; [reflexivity | discriminate].
Qed.

(** C7, amended.  When no [renderLabel] is supplied, [renderHTML] is the
    default one and the configured [HTMLAttributes] have no [href] of
    their own, a mention node is rendered as an [a] element whose [href]
    is ["/thoughts/" + id]. *)
Theorem renderHTML_default_href :
  forall (mergeStyle : JSValue -> JSValue -> JSValue)
         (d : OptionsData) (rt : RenderProps -> string) (n : PMNode),
    name (node_type n) = mention_name ->
    hasKey (HTMLAttributes d) "href" = false ->
    exists attrs_ children,
      serializeHTML mergeStyle
        {| data := d; renderLabel := None; renderText := rt;
           renderHTML := default_renderHTML mergeStyle |} n
      = (DOMArray "a" attrs_ children, [])
      /\ get attrs_ "href"
         = Str ("/thoughts/" ++ toString (id (node_attrs n)))%string.
Proof.
  intros mergeStyle d rt n Hname Hkey.
  unfold serializeHTML, Mention_renderHTML. cbn [renderLabel renderHTML data].
  unfold default_renderHTML. cbn [options node HTMLAttributes].
  eexists _, _. split; [reflexivity|].
  rewrite get_mergeAttributes_first.
  - reflexivity.
  - cbn [existsb]. rewrite Hkey, hasKey_mergeAttributes. cbn [existsb].
    rewrite Hkey, hasKey_getRenderedAttributes by assumption.
    cbn. now rewrite !andb_false_r.
Qed.

Lemma renderHTML_default_href_witness :
  exists attrs_ children,
    serializeHTML joinStyle
      {| data := {| HTMLAttributes := [("class", Str "chip")];
                    deleteTriggerWithBackspace := false;
                    suggestion_char := Str "@" |};
         renderLabel := None; renderText := default_renderText;
         renderHTML := default_renderHTML joinStyle |}
      (PMElem mentionType Sample.john [])
    = (DOMArray "a" attrs_ children, [])
    /\ get attrs_ "href" = Str "/thoughts/doc123".
Proof.
  apply (renderHTML_default_href joinStyle
           {| HTMLAttributes := [("class", Str "chip")];
              deleteTriggerWithBackspace := false;
              suggestion_char := Str "@" |}
           default_renderText (PMElem mentionType Sample.john []));
    reflexivity.
Defined.

(** C8.  When [renderLabel] is supplied, [renderHTML] and [renderText]
    both render its result, whatever the other two render functions
    are; each logs the deprecation warning on the console and returns
    its result. *)
Theorem renderLabel_precedence :
  forall (mergeStyle : JSValue -> JSValue -> JSValue)
         (d : OptionsData) (f rt : RenderProps -> string)
         (rh : OptionsData -> RenderProps -> DOMOutputSpec)
         (n : PMNode) (attrs_ : Object),
    Mention_renderHTML mergeStyle
      {| data := d; renderLabel := Some f; renderText := rt; renderHTML := rh |}
      n attrs_
    = (DOMArray "a"
         (mergeAttributes mergeStyle
            [ [("data-type", Str "mention")]; HTMLAttributes d; attrs_ ])
         [DOMString (f {| options := d; node := n |})],
       ["renderLabel is deprecated use renderText and renderHTML instead"])
    /\ Mention_renderText
         {| data := d; renderLabel := Some f; renderText := rt; renderHTML := rh |}
         n
       = (f {| options := d; node := n |},
          ["renderLabel is deprecated use renderText and renderHTML instead"]).
Proof.
  intros. split; reflexivity.
Qed.

(** The keys [data-id] and [data-label] of the default markup come from
    the attributes of the node alone. *)
Lemma rendered_data_keys mergeStyle d rt n :
  name (node_type n) = mention_name ->
  hasKey (HTMLAttributes d) "data-id" = false ->
  hasKey (HTMLAttributes d) "data-label" = false ->
  hasKey (dom_attrs (fst (serializeHTML mergeStyle
            {| data := d; renderLabel := None; renderText := rt;
               renderHTML := default_renderHTML mergeStyle |} n))) "data-id"
  = truthy (id (node_attrs n))
  /\
  hasKey (dom_attrs (fst (serializeHTML mergeStyle
            {| data := d; renderLabel := None; renderText := rt;
               renderHTML := default_renderHTML mergeStyle |} n))) "data-label"
  = truthy (label (node_attrs n)).
Proof.
  intros Hname Hid Hlabel.
  unfold serializeHTML, Mention_renderHTML. cbn [renderLabel renderHTML data].
  unfold default_renderHTML.
  cbn [options node HTMLAttributes ret fst dom_attrs].
  rewrite !hasKey_mergeAttributes. cbn [existsb].
  rewrite !hasKey_mergeAttributes. cbn [existsb].
  rewrite !hasKey_getRenderedAttributes, Hid, Hlabel by assumption. cbn.
  rewrite !andb_false_r, !andb_true_r, !orb_false_r. auto.
Qed.

(** C10.  In the markup of the default [renderHTML] (the configured
    [HTMLAttributes] having no [data-id] and no [data-label] of their
    own), a mention node whose id is [null] or the empty string has no
    [data-id] attribute at all, and one whose label is [null] or the
    empty string has no [data-label] attribute at all. *)
Theorem falsy_attributes_omitted :
  forall (mergeStyle : JSValue -> JSValue -> JSValue)
         (d : OptionsData) (rt : RenderProps -> string)
         (t : NodeType) (i l : JSValue) (cs : list PMNode),
    name t = mention_name ->
    hasKey (HTMLAttributes d) "data-id" = false ->
    hasKey (HTMLAttributes d) "data-label" = false ->
    let markup (a : MentionNodeAttrs) :=
      dom_attrs (fst (serializeHTML mergeStyle
        {| data := d; renderLabel := None; renderText := rt;
           renderHTML := default_renderHTML mergeStyle |} (PMElem t a cs))) in
    hasKey (markup {| id := Null; label := l |}) "data-id" = false
    /\ hasKey (markup {| id := Str ""; label := l |}) "data-id" = false
    /\ hasKey (markup {| id := i; label := Null |}) "data-label" = false
    /\ hasKey (markup {| id := i; label := Str "" |}) "data-label" = false
    /\ get (markup {| id := Null; label := l |}) "data-id" = Undefined
    /\ get (markup {| id := Str ""; label := l |}) "data-id" = Undefined.
Proof.
  intros mergeStyle d rt t i l cs Hname Hid Hlabel markup.
  assert (Hget : forall (o : Object) k, hasKey o k = false -> get o k = Undefined).
  { induction o as [|[k0 v0] o IH]; intros k H; simpl in *; [reflexivity|].
    apply orb_false_iff in H as [H1 H2]. rewrite H1. now apply IH. }
  pose proof (fun a => rendered_data_keys mergeStyle d rt (PMElem t a cs)
                           Hname Hid Hlabel) as K.
  repeat split; try apply Hget;
    match goal with
    | |- hasKey (markup ?a) "data-id" = false => exact (proj1 (K a))
    | |- hasKey (markup ?a) "data-label" = false => exact (proj2 (K a))
    end.
Qed.

Lemma falsy_attributes_omitted_witness :
  let markup (a : MentionNodeAttrs) :=
    dom_attrs (fst (serializeHTML joinStyle
      {| data := data (addOptions joinStyle); renderLabel := None;
         renderText := default_renderText;
         renderHTML := default_renderHTML joinStyle |}
      (PMElem mentionType a []))) in
  hasKey (markup {| id := Null; label := Str "Label" |}) "data-id" = false
  /\ hasKey (markup {| id := Str ""; label := Str "Label" |}) "data-id" = false
  /\ hasKey (markup {| id := Str "doc123"; label := Null |}) "data-label" = false
  /\ hasKey (markup {| id := Str "doc123"; label := Str "" |}) "data-label" = false
  /\ get (markup {| id := Null; label := Str "Label" |}) "data-id" = Undefined
  /\ get (markup {| id := Str ""; label := Str "Label" |}) "data-id" = Undefined.
Proof.
  apply (falsy_attributes_omitted joinStyle (data (addOptions joinStyle))
           default_renderText mentionType (Str "doc123") (Str "Label") []);
    reflexivity.
Defined.

(** ** The suggestion command *)

(** C2, as stated, fails: with two spaces behind the cursor the command
    takes one of them into the range and inserts one, and the mention
    is followed by two spaces. *)
Lemma two_spaces_follow_the_mention :
  exists state',
    suggestion_command Sample.typingTwoSpaces {| from := 4; to := 7 |}
      Sample.john = Some state'
    /\ node_content (doc state')
       = [PMElem Sample.paragraphType Sample.noAttrs
            [PMText "hi "; PMElem mentionType Sample.john [];
             PMText "  there"]]
    /\ isSpace (charAt (fragmentTokens (node_content (doc state'))) 5) = true
    /\ isSpace (charAt (fragmentTokens (node_content (doc state'))) 6) = true.
Proof.
  eexists. split; [reflexivity|]. repeat split.
Qed.

(** C2, amended.  Where both ends of the range (its end one further
    when the character after the cursor is a space) lie in one parent
    that takes inline content, as a paragraph does, the command
    succeeds: the document afterwards is the one before with the range
    replaced by a mention node and one space, and the selection is the
    cursor right behind the inserted space.  With the cursor at the end
    of the range, as the suggestion plugin passes it, the mention is
    followed by exactly what followed the cursor when that began with a
    space, and by the new space and what followed the cursor otherwise:
    no space is added to the text and none is lost, and the space behind
    the mention is followed by another one only when two spaces followed
    the cursor. *)
Theorem suggestion_command_inserts_mention :
  forall (state : EditorState) (range : Range) (props : MentionNodeAttrs)
         (rf rt : ResolvedPos) (P : PMNode),
    let toks := fragmentTokens (node_content (doc state)) in
    let overrideSpace := isSpace (charAt toks (sel_to (selection state))) in
    let to' := if overrideSpace then to range + 1 else to range in
    noEmptyText (doc state) = true ->
    schema_nodes (schema state) mention_name = Some mentionType ->
    sel_to (selection state) <= fragmentSize (node_content (doc state)) ->
    resolve (doc state) (from range) = Some rf ->
    resolve (doc state) to' = Some rt ->
    start rf = start rt ->
    parent rf = Some P ->
    takesInline P = true ->
    inlineContent (node_type P) = true ->
    from range <= to' ->
    exists state',
      suggestion_command state range props = Some state'
      /\ fragmentTokens (node_content (doc state'))
         = firstn (from range) toks
           ++ [TLeaf mentionType (computeAttrs props); TChar " "]
           ++ skipn to' toks
      /\ selection state' = {| anchor := from range + 2; head := from range + 2 |}
      /\ (sel_to (selection state) = to range ->
          fragmentTokens (node_content (doc state'))
          = firstn (from range) toks
            ++ TLeaf mentionType (computeAttrs props)
               :: (if overrideSpace then skipn (to range) toks
                   else TChar " " :: skipn (to range) toks))
      /\ (sel_to (selection state) = to range ->
          isSpace (charAt (fragmentTokens (node_content (doc state')))
                          (from range + 1)) = true
          /\ isSpace (charAt (fragmentTokens (node_content (doc state')))
                             (from range + 2))
             = overrideSpace && isSpace (charAt toks (to range + 1))).
Proof.
  intros state range props rf rt P toks overrideSpace to'
    Hwf Hsch Hcur Hrf Hrt Hstart HP Hstar Hinl Hle.
  destruct P as [x | tP aP csP].
  { pose proof (resolve_isText _ _ _ _ Hrf HP) as Hnt.
    destruct (resolve_within _ _ _ Hnt Hrf) as (P1 & i & HP1 & _ & _ & Hw & _).
    assert (P1 = PMText x) by congruence. subst P1.
    now apply within_elem in Hw. }
  destruct (suggestion_command_fits state range props rf rt tP aP csP
              Hwf Hsch Hcur Hrf Hrt Hstart HP Hstar Hinl Hle)
    as (doc' & Hcmd & Hrep0 & Hw & Hlo & Hhi0 & _).
  assert (Hrep : replaceNode noGuard (mentionContent props) 0 (doc state)
                   (from range) to' = Some doc') by exact Hrep0.
  assert (Hhi : to' <= start rf + fragmentSize csP) by exact Hhi0.
  clear Hrep0 Hhi0.
  pose proof (within_bound _ _ _ (proj1 (same_parent _ _ _ _ _ _ Hrf Hrt Hstart HP Hle)))
    as Hbound.
  cbn [node_content] in Hbound.
  apply replaceNode_tokens in Hrep as [_ Htok]; [|assumption].
  fold toks in Htok.
  assert (Hdoc : fragmentTokens (node_content doc')
                 = firstn (from range) toks
                   ++ [TLeaf mentionType (computeAttrs props); TChar " "]
                   ++ skipn to' toks).
  { rewrite Htok. reflexivity. }
  assert (Hlen : length (firstn (from range) toks) = from range).
  { rewrite length_firstn. unfold toks. rewrite fragmentTokens_length. lia. }
  eexists. split; [exact Hcmd|]. cbn [doc selection].
  split; [exact Hdoc|]. split; [reflexivity|]. split.
  - intros Hcursor. rewrite Hdoc. f_equal. cbn [app]. f_equal.
    unfold to'. destruct overrideSpace eqn:Eos; [|reflexivity].
    unfold overrideSpace, isSpace, charAt in Eos. rewrite Hcursor in Eos.
    destruct (nth_error toks (to range)) as [[| | |c]|] eqn:Enth;
      try discriminate.
    apply Ascii.eqb_eq in Eos. subst c.
    rewrite (skipn_nth_error _ _ _ Enth). now rewrite Nat.add_1_r.
  - intros Hcursor. rewrite Hdoc. split.
    + rewrite charAt_app2 by lia. rewrite Hlen.
      replace (from range + 1 - from range) with 1 by lia. reflexivity.
    + rewrite charAt_app2 by lia. rewrite Hlen.
      replace (from range + 2 - from range) with 2 by lia.
      change (charAt ([TLeaf mentionType (computeAttrs props); TChar " "]
                      ++ skipn to' toks) 2)
        with (charAt (skipn to' toks) 0).
      rewrite charAt_skipn, Nat.add_0_r. unfold to'.
      destruct overrideSpace eqn:Eos; [reflexivity|].
      unfold overrideSpace in Eos. rewrite Hcursor in Eos. exact Eos.
Qed.

Lemma suggestion_command_inserts_mention_witness :
  let toks := fragmentTokens (node_content (doc Sample.typing)) in
  exists state',
    suggestion_command Sample.typing {| from := 4; to := 7 |} Sample.john
    = Some state'
    /\ fragmentTokens (node_content (doc state'))
       = firstn 4 toks
         ++ [TLeaf mentionType Sample.john; TChar " "]
         ++ skipn 8 toks
    /\ selection state' = {| anchor := 6; head := 6 |}
    /\ (7 = 7 ->
        fragmentTokens (node_content (doc state'))
        = firstn 4 toks ++ TLeaf mentionType Sample.john :: skipn 7 toks)
    /\ (7 = 7 ->
        isSpace (charAt (fragmentTokens (node_content (doc state'))) 5) = true
        /\ isSpace (charAt (fragmentTokens (node_content (doc state'))) 6)
           = false).
Proof.
  apply (suggestion_command_inserts_mention Sample.typing
           {| from := 4; to := 7 |} Sample.john
           Sample.typingFrom Sample.typingTo
           (PMElem Sample.paragraphType Sample.noAttrs [PMText "hi @jo there"]));
    try reflexivity; vm_compute; lia.
Defined.

(** ** The Backspace shortcut *)



(** ** Where suggestions are allowed *)

(** C4.  At a position of the document whose parent's content
    expression does not accept the mention type, [allow] returns
    [false], and so the suggestion is not active there and no popup is
    opened. *)
Theorem allow_false_where_schema_forbids :
  forall (state : EditorState) (range : Range) (rp : ResolvedPos)
         (parent_ : PMNode),
    resolve (doc state) (from range) = Some rp ->
    parent rp = Some parent_ ->
    matchType (contentMatch (node_type parent_))
              (schema_nodes (schema state) mention_name) = None ->
    suggestion_allow state range = Some false
    /\ suggestion_active state (Some range) = Some false.
Proof.
  intros state range rp parent_ Hres Hparent Hmatch.
  assert (H : suggestion_allow state range = Some false).
  { unfold suggestion_allow. now rewrite Hres, Hparent, Hmatch. }
  split; [exact H|]. unfold suggestion_active. now rewrite H.
Qed.

Lemma allow_false_where_schema_forbids_witness :
  suggestion_allow Sample.withImage {| from := 1; to := 1 |} = Some false
  /\ suggestion_active Sample.withImage (Some {| from := 1; to := 1 |})
     = Some false.
Proof.
  apply (allow_false_where_schema_forbids Sample.withImage
           {| from := 1; to := 1 |} Sample.afterImage (doc Sample.withImage));
    reflexivity.
Defined.

(** ** The label refresher *)

(** C9.  [updateMentionNodeNames] leaves the editor as it is: the
    document is the same, and with it the id and the label of every
    mention node. *)
Theorem updateMentionNodeNames_changes_nothing :
  forall editor : EditorState,
    fst (updateMentionNodeNames editor) = editor
    /\ doc (fst (updateMentionNodeNames editor)) = doc editor
    /\ getAllNodesWithType (fst (updateMentionNodeNames editor)) "mention"
       = getAllNodesWithType editor "mention".
Proof.
  intros editor. repeat split.
Qed.

(* ------------------------------------------------------------------ *)
(** * Further properties                                                *)
(* ------------------------------------------------------------------ *)

(** ** The suggestion popup *)

Lemma popupInv_step C b st e :
  popupInv b st ->
  popupInv (b || match e with
                 | OnStart props => isSome (clientRect props)
                 | _ => false
                 end)
           (fst (popupStep C st e)).
Proof.
  intros H. destruct b; cbn [orb].
  - destruct H as (renderer & instance & -> & Hvis).
    destruct e as [props | props | props |]; cbn [popupStep].
    + unfold onStart. destruct (clientRect props); cbn [fst].
      * eexists _, _. split; [reflexivity|]. discriminate.
      * eexists _, _. split; [reflexivity | exact Hvis].
    + unfold onUpdate. cbn [reactRenderer popup].
      destruct (clientRect props); cbn [fst].
      * eexists _, _. split; [reflexivity|].
        unfold setProps. destruct (isDestroyed instance) eqn:E; auto.
      * eexists _, _. split; [reflexivity | exact Hvis].
    + unfold onKeyDown. cbn [reactRenderer popup].
      destruct (rr_ref renderer) as [ref|]; cbn [fst].
      * destruct (callsHide (ref props)); cbn [fst].
        -- eexists _, _. split; [reflexivity|].
           unfold tippy_hide. destruct (isDestroyed instance) eqn:E; auto.
        -- eexists _, _. split; [reflexivity | exact Hvis].
      * eexists _, _. split; [reflexivity | exact Hvis].
    + unfold onExit. cbn [reactRenderer popup fst].
      eexists _, _. split; [reflexivity|].
      unfold tippy_destroy. destruct (isDestroyed instance) eqn:E; auto.
  - cbn in H. subst st.
    destruct e as [props | props | props |]; cbn [popupStep]; try exact eq_refl.
    unfold onStart. destruct (clientRect props); cbn [fst isSome].
    + eexists _, _. split; [reflexivity|]. discriminate.
    + reflexivity.
Qed.

Lemma popupInv_run C events : forall b st,
  popupInv b st ->
  popupInv (b || started events) (popupRun C st events).
Proof.
  induction events as [|e events IH]; intros b st H.
  - cbn. now rewrite orb_false_r.
  - cbn [popupRun fold_left started existsb].
    rewrite orb_assoc. apply IH. now apply popupInv_step.
Qed.

Lemma popupInv_reachable C events :
  popupInv (started events) (popupRun C mention_render events).
Proof. apply (popupInv_run C events false). reflexivity. Qed.

(** X1.  Whatever calls came before, [onStart] never throws, and each of
    [onUpdate], [onKeyDown] and [onExit] throws exactly when no
    [onStart] so far came with a [clientRect]: [onUpdate] with it (or
    with none: the renderer is read first), [onKeyDown] even when the
    component would not hide, [onExit] always. *)
Theorem popup_throws_iff_never_started :
  forall (C : Component) (events : list PopupEvent)
         (props : SuggestionProps) (k : KeyDownProps),
    let st := popupRun C mention_render events in
    throws (snd (onStart C st props)) = false
    /\ throws (snd (onUpdate st props)) = negb (started events)
    /\ throws (snd (onKeyDown st k)) = negb (started events)
    /\ throws (snd (onExit st)) = negb (started events).
Proof.
  intros C events props k st.
  pose proof (popupInv_reachable C events) as H. fold st in H.
  split.
  { unfold onStart. destruct (clientRect props); reflexivity. }
  destruct (started events); cbn [negb].
  - destruct H as (renderer & instance & -> & _).
    repeat split.
    + unfold onUpdate. cbn. destruct (clientRect props); reflexivity.
    + unfold onKeyDown. cbn. destruct (rr_ref renderer) as [ref|]; [|reflexivity].
      destruct (callsHide (ref k)); reflexivity.
  - cbn in H. rewrite H. repeat split.
Qed.

Lemma last_cons_default {A} (x d : A) l : last (x :: l) d = last l x.
Proof.
  revert x d. induction l as [|y l IH]; intros x d; [reflexivity|].
  change (last (x :: y :: l) d) with (last (y :: l) d).
  now rewrite !IH.
Qed.

Lemma popupRun_updates C updates : forall p ref r v,
  popupRun C
    {| reactRenderer :=
         Some {| rr_props := p; rr_ref := ref; rr_destroyed := false |};
       popup :=
         Some [ {| getReferenceClientRect := r; isVisible := v;
                   isDestroyed := false |} ] |}
    (map OnUpdate updates)
  = {| reactRenderer :=
         Some {| rr_props := last updates p; rr_ref := ref;
                 rr_destroyed := false |};
       popup :=
         Some [ {| getReferenceClientRect := lastRect r updates;
                   isVisible := v; isDestroyed := false |} ] |}.
Proof.
  induction updates as [|u updates IH]; intros p ref r v.
  - reflexivity.
  - rewrite last_cons_default.
    cbn [map popupRun fold_left popupStep].
    unfold onUpdate. cbn [reactRenderer popup updateProps rr_ref rr_destroyed].
    unfold lastRect. cbn [fold_left].
    destruct (clientRect u) as [r'|];
      cbn [fst reactRenderer popup setProps isDestroyed isVisible];
      apply IH.
Qed.

(** X2.  After [onStart] with a [clientRect] and any number of
    [onUpdate] calls, the popup is the one instance, shown, anchored to
    the [clientRect] of the latest call that had one, and the component
    holds the props of the latest call: an update without a [clientRect]
    passes its props on and leaves the popup where it is. *)
Theorem popup_follows_latest_clientRect :
  forall (C : Component) (r0 : ClientRect) (q0 : string)
         (updates : list SuggestionProps),
    popupRun C mention_render
      (OnStart {| clientRect := Some r0; query := q0 |} :: map OnUpdate updates)
    = {| reactRenderer :=
           Some {| rr_props := last updates {| clientRect := Some r0; query := q0 |};
                   rr_ref := C; rr_destroyed := false |};
         popup :=
           Some [ {| getReferenceClientRect := lastRect r0 updates;
                     isVisible := true; isDestroyed := false |} ] |}.
Proof.
  intros C r0 q0 updates.
  change (popupRun C mention_render
            (OnStart {| clientRect := Some r0; query := q0 |} :: map OnUpdate updates))
    with (popupRun C
            (fst (onStart C mention_render {| clientRect := Some r0; query := q0 |}))
            (map OnUpdate updates)).
  apply popupRun_updates.
Qed.

(** A closure with nothing live stays so through every call but a new
    [onStart], and [onExit] leaves nothing live. *)
Lemma closed_step C b st e :
  popupInv b st ->
  (isOnStart e = false -> closed st = true ->
   closed (fst (popupStep C st e)) = true)
  /\ (e = OnExit -> closed (fst (popupStep C st e)) = true).
Proof.
  intros H. destruct b.
  - destruct H as (renderer & instance & -> & Hvis).
    split.
    + intros He Hc. unfold closed in Hc. cbn [reactRenderer popup forallb] in Hc.
      apply andb_true_iff in Hc as [Hr Hi]. rewrite andb_true_r in Hi.
      apply andb_true_iff in Hi as [Hd Hv].
      destruct e as [props | props | props |]; [discriminate | | |];
        cbn [popupStep].
      * unfold onUpdate. cbn [reactRenderer popup].
        destruct (clientRect props); cbn [fst]; unfold closed, setProps;
          cbn [reactRenderer popup updateProps rr_destroyed forallb];
          rewrite ?Hd, Hr, ?Hd, ?Hv; reflexivity.
      * unfold onKeyDown. cbn [reactRenderer popup].
        destruct (rr_ref renderer) as [ref|]; cbn [fst].
        -- destruct (callsHide (ref props)); cbn [fst];
             unfold closed, tippy_hide; cbn [reactRenderer popup forallb];
             rewrite ?Hd, Hr, ?Hd, ?Hv; reflexivity.
        -- unfold closed. cbn [reactRenderer popup forallb].
           now rewrite Hr, Hd, Hv.
      * unfold onExit. cbn [reactRenderer popup fst].
        unfold closed, tippy_destroy.
        cbn [reactRenderer popup rr_destroy rr_destroyed forallb].
        now rewrite Hd, Hd, Hv.
    + intros ->. cbn [popupStep]. unfold onExit. cbn [reactRenderer popup fst].
      unfold closed, tippy_destroy.
      cbn [reactRenderer popup rr_destroy rr_destroyed forallb].
      destruct (isDestroyed instance) eqn:Ed.
      * rewrite Ed, (Hvis eq_refl). reflexivity.
      * reflexivity.
  - cbn in H. subst st. split.
    + intros He _.
      destruct e as [props | props | props |]; [discriminate | | |];
        reflexivity.
    + intros ->. reflexivity.
Qed.

(** In an orderly sequence of calls whatever an [onStart] leaves behind
    has nothing live. *)
Lemma leftBehind_closed C events : forall b st open,
  popupInv b st ->
  (open = false -> closed st = true) ->
  orderly open events = true ->
  forallb closed (leftBehind C st events) = true.
Proof.
  induction events as [|e events IH]; intros b st open Hinv Hopen Hord;
    [reflexivity|].
  cbn [leftBehind]. rewrite forallb_app.
  pose proof (popupInv_step C b st e Hinv) as Hinv'.
  destruct (closed_step C b st e Hinv) as [Hkeep Hexit].
  destruct e as [props | props | props |]; cbn [orderly] in Hord.
  - destruct (isSome (clientRect props)) eqn:Es.
    + apply andb_true_iff in Hord as [Ho Hord].
      apply negb_true_iff in Ho. cbn [forallb].
      rewrite (Hopen Ho). cbn [andb].
      apply (IH _ _ true Hinv'); [discriminate | assumption].
    + cbn [forallb andb].
      apply (IH _ _ open Hinv'); [|assumption].
      intros Ho. cbn [popupStep]. unfold onStart.
      destruct (clientRect props); [discriminate|]. cbn [fst]. auto.
  - cbn [forallb andb]. apply (IH _ _ open Hinv'); auto.
  - cbn [forallb andb]. apply (IH _ _ open Hinv'); auto.
  - cbn [forallb andb]. apply (IH _ _ false Hinv'); auto.
Qed.



(** X4.  A popup that is hidden (a key handler called [hide]) stays
    hidden through every later [onUpdate], [onKeyDown] and [onExit]:
    nothing but a new [onStart] shows a popup. *)
Theorem popup_stays_hidden :
  forall (C : Component) (renderer : ReactRenderer) (instance : TippyInstance)
         (events : list PopupEvent),
    isVisible instance = false ->
    forallb (fun e => negb (isOnStart e)) events = true ->
    exists renderer' instance',
      popupRun C {| reactRenderer := Some renderer; popup := Some [instance] |}
        events
      = {| reactRenderer := Some renderer'; popup := Some [instance'] |}
      /\ isVisible instance' = false.
Proof.
  intros C renderer instance events. revert renderer instance.
  induction events as [|e events IH]; intros renderer instance Hvis Hev.
  - eexists _, _. split; [reflexivity | exact Hvis].
  - cbn [forallb] in Hev. apply andb_true_iff in Hev as [He Hev].
    cbn [popupRun fold_left].
    destruct e as [props | props | props |]; [discriminate | | |];
      cbn [popupStep].
    + unfold onUpdate. cbn [reactRenderer popup].
      destruct (clientRect props); cbn [fst]; apply IH; auto.
      unfold setProps. destruct (isDestroyed instance); auto.
    + unfold onKeyDown. cbn [reactRenderer popup].
      destruct (rr_ref renderer) as [ref|]; cbn [fst]; [|apply IH; auto].
      destruct (callsHide (ref props)); cbn [fst]; apply IH; auto.
      unfold tippy_hide. destruct (isDestroyed instance); auto.
    + unfold onExit. cbn [reactRenderer popup fst]. apply IH; auto.
      unfold tippy_destroy. destruct (isDestroyed instance); auto.
Qed.

Lemma popup_stays_hidden_witness :
  exists renderer' instance',
    popupRun None
      {| reactRenderer :=
           Some {| rr_props := {| clientRect := Some 1; query := "" |};
                   rr_ref := None; rr_destroyed := false |};
         popup := Some [ {| getReferenceClientRect := 1; isVisible := false;
                            isDestroyed := false |} ] |}
      [OnUpdate {| clientRect := Some 2; query := "j" |}]
    = {| reactRenderer := Some renderer'; popup := Some [instance'] |}
    /\ isVisible instance' = false.
Proof.
  apply (popup_stays_hidden None
           {| rr_props := {| clientRect := Some 1; query := "" |};
              rr_ref := None; rr_destroyed := false |}
           {| getReferenceClientRect := 1; isVisible := false;
              isDestroyed := false |}
           [OnUpdate {| clientRect := Some 2; query := "j" |}]);
    reflexivity.
Defined.

(** ** The Backspace shortcut, in general *)

Lemma nodesBetweenChildren_stop {S} (f : PMNode -> nat -> S -> bool * S) rec
    from_ to_ nodeStart cs pos_ s :
  to_ <= pos_ ->
  nodesBetweenChildren f rec from_ to_ nodeStart cs pos_ s = s.
Proof.
  intros H. destruct cs as [|c cs]; cbn [nodesBetweenChildren]; [reflexivity|].
  replace (pos_ <? to_) with false by (symmetry; apply Nat.ltb_ge; lia).
  reflexivity.
Qed.

(** Over a range of at most one position the callback of the shortcut
    acts at most once: the traversal leaves its state as it was, or it
    is the one call of the callback at a node named [mention]. *)
Lemma nodesBetween_backspace_once o n :
  forall from_ to_ nodeStart s,
    to_ <= from_ + 1 ->
    nodesBetweenNode (backspaceVisit o) n from_ to_ nodeStart s = s
    \/ exists m pos_,
         name (node_type m) = mention_name
         /\ isText m = false
         /\ nodesBetweenNode (backspaceVisit o) n from_ to_ nodeStart s
            = snd (backspaceVisit o m pos_ s).
Proof.
  induction n as [txt | nty na cs IH] using PMNode_ind';
    intros from_ to_ nodeStart s Hrange.
  - left. reflexivity.
  - cbn [nodesBetweenNode].
    generalize 0 as pos_.
    induction cs as [|c cs IHcs]; intros pos_.
    + left. reflexivity.
    + apply Forall_cons_iff in IH as [IHc IHrest].
      specialize (IHcs IHrest).
      cbn [nodesBetweenChildren].
      destruct (pos_ <? to_) eqn:Epos; [|left; reflexivity]. bools.
      destruct (from_ <? pos_ + nodeSize c) eqn:Ein; [|apply IHcs]. bools.
      rewrite (nodesBetweenChildren_stop _ _ _ _ _ cs (pos_ + nodeSize c))
        by lia.
      destruct (String.eqb (name (node_type c)) mention_name) eqn:Ename.
      * right. exists c, (nodeStart + pos_).
        assert (Hnt : isText c = false).
        { destruct c; [discriminate | reflexivity]. }
        split; [now apply String.eqb_eq|]. split; [assumption|].
        unfold backspaceVisit. destruct s as [isMention tr].
        rewrite Ename. reflexivity.
      * rewrite backspaceVisit_other by assumption. cbn [andb].
        destruct (0 <? fragmentSize (node_content c)); [|left; reflexivity].
        apply IHc. lia.
Qed.

Lemma mention_node_size m :
  isText m = false -> 1 <= nodeSize m.
Proof.
  destruct m as [s | t a cs]; [discriminate|]. intros _.
  simpl. destruct (isLeaf t); lia.
Qed.

(** X5.  When the shortcut does not handle the key (the selection is
    not empty, or no mention is met), it returns the transaction it was
    given: no step, the same document, the same selection. *)
Theorem backspace_unhandled_changes_nothing :
  forall (o : OptionsData) (state : EditorState) (tr : Transaction),
    Backspace o state = Some (false, tr) ->
    tr = state_tr state.
Proof.
  intros o state tr H. unfold Backspace in H.
  destruct (negb (sel_empty (selection state))).
  - congruence.
  - unfold nodesBetween in H.
    destruct (nodesBetween_backspace_once o (doc state)
                (anchor (selection state) - 1) (anchor (selection state)) 0
                (false, Some (state_tr state))) as [E | (m & pos_ & _ & _ & E)];
      [lia | |]; rewrite E in H.
    + congruence.
    + unfold backspaceVisit in H.
      destruct (String.eqb (name (node_type m)) mention_name); cbn [snd] in H.
      * destruct (insertText _ _ _ _); congruence.
      * congruence.
Qed.

Lemma backspace_unhandled_changes_nothing_witness :
  state_tr MoreSamples.cursorAfterText = state_tr MoreSamples.cursorAfterText.
Proof.
  apply (backspace_unhandled_changes_nothing (data (addOptions joinStyle))
           MoreSamples.cursorAfterText (state_tr MoreSamples.cursorAfterText)).
  reflexivity.
Defined.

(** The node the callback of the shortcut acts on: a node of the
    document that is named [mention] and overlaps the range. *)
Lemma nodesBetween_backspace_node o n :
  forall from_ to_ nodeStart s,
    to_ <= from_ + 1 ->
    nodesBetweenNode (backspaceVisit o) n from_ to_ nodeStart s = s
    \/ exists m p,
         name (node_type m) = mention_name
         /\ isText m = false
         /\ startsAt n p m
         /\ p < to_
         /\ from_ < p + nodeSize m
         /\ nodesBetweenNode (backspaceVisit o) n from_ to_ nodeStart s
            = snd (backspaceVisit o m (nodeStart + p) s).
Proof.
  induction n as [txt | nty na all IH] using PMNode_ind';
    intros from_ to_ nodeStart s Hrange.
  - left. reflexivity.
  - cbn [nodesBetweenNode].
    assert (Hloop : forall cs pre pos_,
      all = pre ++ cs -> pos_ = fragmentSize pre ->
      nodesBetweenChildren (backspaceVisit o)
        (nodesBetweenNode (backspaceVisit o)) from_ to_ nodeStart cs pos_ s = s
      \/ exists m p,
           name (node_type m) = mention_name
           /\ isText m = false
           /\ startsAt (PMElem nty na all) p m
           /\ p < to_
           /\ from_ < p + nodeSize m
           /\ nodesBetweenChildren (backspaceVisit o)
                (nodesBetweenNode (backspaceVisit o)) from_ to_ nodeStart cs pos_ s
              = snd (backspaceVisit o m (nodeStart + p) s)).
    { induction cs as [|c cs IHcs]; intros pre pos_ Hall Hpos.
      - left. reflexivity.
      - cbn [nodesBetweenChildren].
        destruct (pos_ <? to_) eqn:Epos; [|left; reflexivity]. bools.
        destruct (from_ <? pos_ + nodeSize c) eqn:Ein.
        + bools.
          rewrite (nodesBetweenChildren_stop _ _ _ _ _ cs (pos_ + nodeSize c))
            by lia.
          destruct (String.eqb (name (node_type c)) mention_name) eqn:Ename.
          * right. exists c, pos_.
            assert (Hnt : isText c = false).
            { destruct c; [discriminate | reflexivity]. }
            split; [now apply String.eqb_eq|]. split; [assumption|].
            split; [subst all pos_; constructor|].
            split; [assumption|]. split; [assumption|].
            unfold backspaceVisit. destruct s as [isMention tr].
            rewrite Ename. reflexivity.
          * rewrite backspaceVisit_other by assumption. cbn [andb].
            destruct (0 <? fragmentSize (node_content c)); [|left; reflexivity].
            assert (IHc := IH). rewrite Hall in IHc.
            apply Forall_app in IHc as [_ IHc].
            apply Forall_cons_iff in IHc as [IHc _].
            destruct (IHc (Nat.max 0 (from_ - (pos_ + 1)))
                          (Nat.min (fragmentSize (node_content c))
                                   (to_ - (pos_ + 1)))
                          (nodeStart + (pos_ + 1)) s)
              as [E | (m & p & Hname & Hnt & Hat & Hlo & Hhi & E)]; [lia | |].
            -- left. exact E.
            -- right. exists m, (pos_ + 1 + p).
               split; [assumption|]. split; [assumption|].
               split; [subst all pos_; now constructor|].
               split; [lia|]. split; [lia|].
               rewrite E. now rewrite <- Nat.add_assoc.
        + bools. apply (IHcs (pre ++ [c])).
          * subst all. now rewrite <- app_assoc.
          * rewrite fragmentSize_app, fragmentSize_cons. cbn. lia. }
    apply (Hloop all [] 0); reflexivity.
Qed.



Lemma nodesBetweenNode_empty_range {S} (f : PMNode -> nat -> S -> bool * S)
    n from_ nodeStart s :
  nodesBetweenNode f n from_ 0 nodeStart s = s.
Proof.
  destruct n as [txt | t a cs]; [reflexivity|].
  cbn [nodesBetweenNode]. now apply nodesBetweenChildren_stop.
Qed.

Lemma nodesBetweenNode_past_end {S} (f : PMNode -> nat -> S -> bool * S)
    n from_ to_ nodeStart s :
  fragmentSize (node_content n) <= from_ ->
  nodesBetweenNode f n from_ to_ nodeStart s = s.
Proof.
  destruct n as [txt | t a cs]; [reflexivity|].
  cbn [nodesBetweenNode node_content]. intros H.
  assert (G : forall pos_, pos_ + fragmentSize cs <= from_ ->
    nodesBetweenChildren f (nodesBetweenNode f) from_ to_ nodeStart cs pos_ s = s).
  { clear H. induction cs as [|c cs IH]; intros pos_ H; cbn [nodesBetweenChildren];
      [reflexivity|].
    rewrite fragmentSize_cons in H.
    destruct (pos_ <? to_); [|reflexivity].
    replace (from_ <? pos_ + nodeSize c) with false
      by (symmetry; apply Nat.ltb_ge; lia).
    apply IH. lia. }
  apply G. lia.
Qed.

(** Where the token before the cursor is no mention, the traversal of
    the shortcut meets no mention. *)
Lemma nodesBetween_no_mention o n :
  forall p nodeStart s,
    forallb mentionsAreLeaves (node_content n) = true ->
    mentionBefore (fragmentTokens (node_content n)) (S p) = false ->
    nodesBetweenNode (backspaceVisit o) n p (p + 1) nodeStart s = s.
Proof.
  induction n as [txt | nty na cs IH] using PMNode_ind';
    intros p nodeStart s Hwf Htok.
  - reflexivity.
  - cbn [nodesBetweenNode node_content mentionBefore] in *.
    assert (Hloop : forall pos_,
      pos_ <= p ->
      match nth_error (fragmentTokens cs) (p - pos_) with
      | Some (TLeaf ty _) => String.eqb (name ty) mention_name
      | _ => false
      end = false ->
      nodesBetweenChildren (backspaceVisit o) (nodesBetweenNode (backspaceVisit o))
        p (p + 1) nodeStart cs pos_ s = s).
    { clear Htok. induction cs as [|c cs IHcs]; intros pos_ Hpos Htok.
      - reflexivity.
      - cbn [nodesBetweenChildren].
        apply Forall_cons_iff in IH as [IHc IHrest].
        cbn [forallb] in Hwf. apply andb_true_iff in Hwf as [Hwfc Hwfrest].
        specialize (IHcs IHrest Hwfrest).
        replace (pos_ <? p + 1) with true by (symmetry; apply Nat.ltb_lt; lia).
        rewrite fragmentTokens_cons in Htok.
        destruct (p <? pos_ + nodeSize c) eqn:Ein; bools.
        + rewrite (nodesBetweenChildren_stop _ _ _ _ _ cs (pos_ + nodeSize c))
            by lia.
          rewrite nth_error_app1 in Htok by (rewrite tokens_length; lia).
          destruct c as [txt | cty ca cch].
          * rewrite backspaceVisit_other by reflexivity. reflexivity.
          * destruct (isLeaf cty) eqn:Eleaf.
            -- simpl in Htok, Ein. rewrite Eleaf in Htok, Ein.
               replace (p - pos_) with 0 in Htok by lia. simpl in Htok.
               rewrite backspaceVisit_other by exact Htok. cbn [andb].
               destruct (0 <? fragmentSize (node_content (PMElem cty ca cch)));
                 [|reflexivity].
               replace (Nat.min (fragmentSize (node_content (PMElem cty ca cch)))
                          (p + 1 - (pos_ + 1))) with 0 by lia.
               apply nodesBetweenNode_empty_range.
            -- cbn [mentionsAreLeaves] in Hwfc. rewrite Eleaf in Hwfc.
               rewrite orb_false_r in Hwfc.
               apply andb_true_iff in Hwfc as [Hnm Hwfch].
               apply negb_true_iff in Hnm.
               rewrite backspaceVisit_other by assumption. cbn [andb node_content].
               destruct (0 <? fragmentSize cch) eqn:Esize; [|reflexivity].
               rewrite tokens_elem in Htok by assumption.
               rewrite nodeSize_elem in Ein by assumption.
               rewrite Nat.max_0_l.
               destruct (p - pos_) as [|k] eqn:Ek.
               ++ replace (Nat.min (fragmentSize cch) (p + 1 - (pos_ + 1)))
                    with 0 by lia.
                  apply nodesBetweenNode_empty_range.
               ++ cbn [nth_error] in Htok.
                  destruct (Nat.lt_ge_cases k (fragmentSize cch)) as [Hk|Hk].
                  ** rewrite nth_error_app1 in Htok
                       by (rewrite fragmentTokens_length; lia).
                     replace (p - (pos_ + 1)) with k by lia.
                     replace (Nat.min (fragmentSize cch) (p + 1 - (pos_ + 1)))
                       with (k + 1) by lia.
                     apply IHc; [assumption|]. exact Htok.
                  ** apply nodesBetweenNode_past_end. cbn [node_content]. lia.
        + rewrite nth_error_app2 in Htok by (rewrite tokens_length; lia).
          rewrite tokens_length in Htok.
          apply IHcs; [lia|].
          replace (p - (pos_ + nodeSize c)) with (p - pos_ - nodeSize c) by lia.
          exact Htok. }
    apply Hloop; [lia|]. now rewrite Nat.sub_0_r.
Qed.

(** The shortcut leaves the key alone where no mention is right before
    the cursor. *)
Lemma Backspace_no_mention_before o state :
  sel_empty (selection state) = true ->
  forallb mentionsAreLeaves (node_content (doc state)) = true ->
  mentionBefore (fragmentTokens (node_content (doc state)))
                (anchor (selection state)) = false ->
  Backspace o state = Some (false, state_tr state).
Proof.
  intros Hempty Hwf Hbefore.
  unfold Backspace. rewrite Hempty. cbn [negb]. unfold nodesBetween.
  destruct (anchor (selection state)) as [|p] eqn:Ea.
  - cbn [Nat.sub]. now rewrite nodesBetweenNode_empty_range.
  - replace (S p - 1) with p by lia. replace (S p) with (p + 1) at 1 by lia.
    now rewrite nodesBetween_no_mention.
Qed.

(** X7.  With an empty selection in a document whose mentions are
    leaves, the shortcut leaves the key to the other bindings whenever
    the token right before the cursor is not a mention: it answers
    [false] and returns the transaction untouched. *)
Theorem backspace_only_behind_a_mention :
  forall (o : OptionsData) (state : EditorState),
    sel_empty (selection state) = true ->
    mentionsAreLeaves (doc state) = true ->
    mentionBefore (fragmentTokens (node_content (doc state)))
                  (anchor (selection state)) = false ->
    Backspace o state = Some (false, state_tr state).
Proof.
  intros o state Hempty Hwf Hbefore.
  apply Backspace_no_mention_before; auto.
  destruct (doc state) as [s | t at_ cs]; [reflexivity|].
  cbn [mentionsAreLeaves node_content] in *.
  now apply andb_true_iff in Hwf as [_ Hwf].
Qed.

Lemma backspace_only_behind_a_mention_witness :
  Backspace (data (addOptions joinStyle)) MoreSamples.cursorAfterText
  = Some (false, state_tr MoreSamples.cursorAfterText).
Proof.
  apply (backspace_only_behind_a_mention (data (addOptions joinStyle))
           MoreSamples.cursorAfterText);
    reflexivity.
Defined.

Lemma nodesBetweenNode_ext {S} (f g : PMNode -> nat -> S -> bool * S) :
  (forall n p s, f n p s = g n p s) ->
  forall n from_ to_ nodeStart s,
    nodesBetweenNode f n from_ to_ nodeStart s
    = nodesBetweenNode g n from_ to_ nodeStart s.
Proof.
  intros Hfg n.
  induction n as [txt | t a cs IH] using PMNode_ind';
    intros from_ to_ nodeStart s; [reflexivity|].
  cbn [nodesBetweenNode]. generalize 0 as pos_. revert s.
  induction cs as [|c cs IHcs]; intros s pos_; [reflexivity|].
  apply Forall_cons_iff in IH as [IHc IHrest].
  cbn [nodesBetweenChildren].
  destruct (pos_ <? to_); [|reflexivity].
  destruct (from_ <? pos_ + nodeSize c); [|now apply IHcs].
  rewrite Hfg. destruct (g c (nodeStart + pos_) s) as [descend s1].
  destruct (descend && (0 <? fragmentSize (node_content c))).
  - rewrite IHc. now apply IHcs.
  - now apply IHcs.
Qed.

(** X8.  Without a trigger character ([suggestion.char] undefined, null
    or empty) the shortcut behaves as with
    [deleteTriggerWithBackspace]: the mention is deleted and nothing is
    put in its place. *)
Theorem backspace_without_trigger_character :
  forall (o : OptionsData) (state : EditorState),
    truthy (suggestion_char o) = false ->
    Backspace o state
    = Backspace {| HTMLAttributes := HTMLAttributes o;
                   deleteTriggerWithBackspace := true;
                   suggestion_char := suggestion_char o |} state.
Proof.
  intros o state Hchar. unfold Backspace.
  destruct (negb (sel_empty (selection state))); [reflexivity|].
  unfold nodesBetween.
  rewrite (nodesBetweenNode_ext
             (backspaceVisit o)
             (backspaceVisit {| HTMLAttributes := HTMLAttributes o;
                                deleteTriggerWithBackspace := true;
                                suggestion_char := suggestion_char o |}));
    [reflexivity|].
  intros n p [isMention tr]. unfold backspaceVisit.
  cbn [deleteTriggerWithBackspace suggestion_char].
  destruct (deleteTriggerWithBackspace o); [reflexivity|].
  unfold js_or. rewrite Hchar. reflexivity.
Qed.

Lemma backspace_without_trigger_character_witness :
  Backspace MoreSamples.noChar Sample.mentioned
  = Backspace {| HTMLAttributes := [];
                 deleteTriggerWithBackspace := true;
                 suggestion_char := Undefined |} Sample.mentioned.
Proof.
  apply (backspace_without_trigger_character MoreSamples.noChar Sample.mentioned).
  reflexivity.
Defined.

(** ** Markup and back *)

Lemma get_set_same o k v : get (set o k v) k = v.
Proof.
  induction o as [|[k0 v0] o IH]; simpl.
  - now rewrite String.eqb_refl.
  - destruct (String.eqb k0 k) eqn:E; simpl; now rewrite E.
Qed.

Lemma keys_set o k v :
  map fst (set o k v) = if hasKey o k then map fst o else map fst o ++ [k].
Proof.
  induction o as [|[k0 v0] o IH]; simpl; [reflexivity|].
  destruct (String.eqb k0 k) eqn:E; simpl; [reflexivity|].
  rewrite IH. destruct (hasKey o k); reflexivity.
Qed.

Lemma hasKey_In o k : hasKey o k = true <-> In k (map fst o).
Proof.
  induction o as [|[k0 v0] o IH]; simpl; [split; [discriminate | tauto]|].
  rewrite orb_true_iff, IH, String.eqb_eq. tauto.
Qed.

Lemma uniqueKeys_set o k v : uniqueKeys o -> uniqueKeys (set o k v).
Proof.
  unfold uniqueKeys. intros H. rewrite keys_set.
  destruct (hasKey o k) eqn:E; [assumption|].
  apply NoDup_app; [assumption | repeat constructor; auto |].
  intros x Hx [<-|[]]. apply hasKey_In in Hx. congruence.
Qed.

Section MergeFacts.
Variable mergeStyle : JSValue -> JSValue -> JSValue.

Lemma uniqueKeys_mergeEntry m e :
  uniqueKeys m -> uniqueKeys (mergeEntry mergeStyle m e).
Proof.
  destruct e as [key value]. unfold mergeEntry. intros H.
  destruct (negb (truthy (get m key))); [now apply uniqueKeys_set|].
  destruct (String.eqb key "class"); [now apply uniqueKeys_set|].
  destruct (String.eqb key "style"); now apply uniqueKeys_set.
Qed.

Lemma uniqueKeys_mergeItem item : forall m,
  uniqueKeys m -> uniqueKeys (fold_left (mergeEntry mergeStyle) item m).
Proof.
  induction item as [|e item IH]; intros m H; cbn [fold_left]; [assumption|].
  apply IH. now apply uniqueKeys_mergeEntry.
Qed.

(** [mergeAttributes] gives an object: each key once. *)
Lemma uniqueKeys_mergeAttributes objs :
  uniqueKeys (mergeAttributes mergeStyle objs).
Proof.
  unfold mergeAttributes.
  assert (G : forall m, uniqueKeys m ->
            uniqueKeys (fold_left
              (fun items item => fold_left (mergeEntry mergeStyle) item items)
              objs m)).
  { induction objs as [|o objs IH]; intros m H; cbn [fold_left]; [assumption|].
    apply IH. now apply uniqueKeys_mergeItem. }
  apply G. constructor.
Qed.

Lemma get_mergeEntry_same m k v :
  plainKey k -> get (mergeEntry mergeStyle m (k, v)) k = v.
Proof.
  intros [Hc Hs]. unfold mergeEntry.
  apply String.eqb_neq in Hc, Hs. rewrite Hc, Hs.
  destruct (negb (truthy (get m k))); apply get_set_same.
Qed.

(** Merging an object in: for a key other than [class] and [style] the
    value of the object wins where it has the key. *)
Lemma get_mergeItem item : forall m k,
  plainKey k -> uniqueKeys item ->
  get (fold_left (mergeEntry mergeStyle) item m) k
  = if hasKey item k then get item k else get m k.
Proof.
  induction item as [|[k0 v0] item IH]; intros m k Hk Hu; [reflexivity|].
  cbn [fold_left hasKey get]. unfold uniqueKeys in Hu. cbn [map fst] in Hu.
  apply NoDup_cons_iff in Hu as [Hnotin Hu].
  destruct (String.eqb k0 k) eqn:E; cbn [orb].
  - apply String.eqb_eq in E. subst k0.
    rewrite get_mergeItem_other.
    + now apply get_mergeEntry_same.
    + destruct (hasKey item k) eqn:Eh; [|reflexivity].
      apply hasKey_In in Eh. contradiction.
  - rewrite IH by assumption.
    destruct (hasKey item k); [reflexivity|].
    now apply get_mergeEntry_other.
Qed.

Lemma getRenderedAttributes_mention n :
  name (node_type n) = mention_name ->
  getRenderedAttributes mergeStyle n addAttributes
  = (if truthy (id (node_attrs n)) then [("data-id", id (node_attrs n))] else [])
    ++ (if truthy (label (node_attrs n))
        then [("data-label", label (node_attrs n))] else []).
Proof.
  intros Hname. unfold getRenderedAttributes, addAttributes.
  cbn [filter attr_type]. rewrite Hname. simpl.
  destruct (truthy (id (node_attrs n))), (truthy (label (node_attrs n)));
    reflexivity.
Qed.

Lemma nodeAttributes_get d n k :
  name (node_type n) = mention_name ->
  plainKey k ->
  hasKey (HTMLAttributes d) k = false ->
  get (nodeAttributes mergeStyle d n) k
  = get ([("data-type", Str mention_name)]
         ++ (if truthy (id (node_attrs n))
             then [("data-id", id (node_attrs n))] else [])
         ++ (if truthy (label (node_attrs n))
             then [("data-label", label (node_attrs n))] else [])) k.
Proof.
  intros Hname Hk Hha. unfold nodeAttributes, mergeAttributes.
  cbn [fold_left]. rewrite getRenderedAttributes_mention by assumption.
  rewrite get_mergeItem; [|assumption|].
  - rewrite get_mergeItem_other by assumption.
    cbn [fold_left app]. unfold mergeEntry at 1. cbn [get truthy negb set].
    destruct (truthy (id (node_attrs n))), (truthy (label (node_attrs n)));
      cbn [app hasKey get];
      repeat match goal with
      | |- context [String.eqb ?a k] => destruct (String.eqb a k) eqn:?
      end; cbn; try reflexivity;
      repeat match goal with
      | H : String.eqb _ k = true |- _ => apply String.eqb_eq in H; subst k
      end; try discriminate.
  - unfold uniqueKeys.
    destruct (truthy (id (node_attrs n))), (truthy (label (node_attrs n)));
      cbn; repeat constructor; cbn; intuition discriminate.
Qed.

End MergeFacts.

Lemma get_absent (o : Object) k : hasKey o k = false -> get o k = Undefined.
Proof.
  induction o as [|[k0 v0] o IH]; intros H; simpl in *; [reflexivity|].
  apply orb_false_iff in H as [H1 H2]. rewrite H1. now apply IH.
Qed.

Lemma lookup_setAttribute_same l k v :
  lookupAttribute (setAttribute l k v) k = Some v.
Proof.
  induction l as [|[k0 v0] l IH]; simpl.
  - now rewrite String.eqb_refl.
  - destruct (String.eqb k0 k) eqn:E; simpl; now rewrite E.
Qed.

Lemma lookup_setAttribute_other l k v k' :
  String.eqb k k' = false ->
  lookupAttribute (setAttribute l k v) k' = lookupAttribute l k'.
Proof.
  intros Hk. induction l as [|[k0 v0] l IH]; simpl.
  - now rewrite Hk.
  - destruct (String.eqb k0 k) eqn:E; simpl.
    + apply String.eqb_eq in E. subst k0. now rewrite Hk.
    + now rewrite IH.
Qed.

(** The attributes of a rendered element are those of the object that
    are strings. *)
Lemma renderSpec_attributes attrs_ k : forall acc,
  uniqueKeys attrs_ ->
  lookupAttribute
    (fold_left (fun l entry =>
                  match snd entry with
                  | Str v => setAttribute l (fst entry) v
                  | _ => l
                  end) attrs_ acc) k
  = match get attrs_ k with
    | Str v => Some v
    | _ => lookupAttribute acc k
    end.
Proof.
  induction attrs_ as [|[k0 v0] attrs_ IH]; intros acc Hu; [reflexivity|].
  cbn [fold_left get fst snd]. unfold uniqueKeys in Hu. cbn [map fst] in Hu.
  apply NoDup_cons_iff in Hu as [Hnotin Hu].
  rewrite IH by assumption.
  destruct (String.eqb k0 k) eqn:E.
  - apply String.eqb_eq in E. subst k0.
    assert (Eh : hasKey attrs_ k = false).
    { destruct (hasKey attrs_ k) eqn:Eh; [|reflexivity].
      apply hasKey_In in Eh. contradiction. }
    rewrite (get_absent _ _ Eh).
    destruct v0; [reflexivity | reflexivity | apply lookup_setAttribute_same].
  - destruct (get attrs_ k); try reflexivity;
      destruct v0; try reflexivity; now apply lookup_setAttribute_other.
Qed.

Lemma getAttribute_renderSpec tag attrs_ children k :
  uniqueKeys attrs_ ->
  exists element,
    renderSpec (DOMArray tag attrs_ children) = Some element
    /\ tagName element = tag
    /\ getAttribute element k
       = match get attrs_ k with
         | Str v => Str v
         | _ => Null
         end.
Proof.
  intros Hu. eexists. split; [reflexivity|]. split; [reflexivity|].
  unfold getAttribute. cbn [attributes].
  rewrite renderSpec_attributes by assumption.
  destruct (get attrs_ k); reflexivity.
Qed.

Lemma normalized_parse v :
  match (match (if truthy v then v else Undefined) with
         | Str s => Str s
         | _ => Null
         end) with
  | Undefined | Null => Null
  | w => w
  end = normalized v.
Proof.
  unfold normalized. destruct v as [| |s]; try reflexivity.
  destruct s; reflexivity.
Qed.

Section ParseFacts.
Variable mergeStyle : JSValue -> JSValue -> JSValue.

Lemma nodeAttributes_data d n :
  name (node_type n) = mention_name ->
  hasKey (HTMLAttributes d) "data-type" = false ->
  hasKey (HTMLAttributes d) "data-id" = false ->
  hasKey (HTMLAttributes d) "data-label" = false ->
  get (nodeAttributes mergeStyle d n) "data-type" = Str mention_name
  /\ get (nodeAttributes mergeStyle d n) "data-id"
     = (if truthy (id (node_attrs n)) then id (node_attrs n) else Undefined)
  /\ get (nodeAttributes mergeStyle d n) "data-label"
     = (if truthy (label (node_attrs n)) then label (node_attrs n) else Undefined).
Proof.
  intros Hname Ht Hi Hl.
  assert (P : forall k, In k ["data-type"; "data-id"; "data-label"] -> plainKey k).
  { intros k [<-|[<-|[<-|[]]]]; split; discriminate. }
  repeat split;
    (rewrite nodeAttributes_get; [| assumption | apply P; cbn; tauto | assumption]);
    destruct (truthy (id (node_attrs n))), (truthy (label (node_attrs n)));
    reflexivity.
Qed.

End ParseFacts.

(** An [a] element whose data attributes are those of the node parses
    back to the node's attributes, normalized. *)
Lemma parse_of_attributes (a : MentionNodeAttrs) attrs_ children :
  uniqueKeys attrs_ ->
  get attrs_ "data-type" = Str mention_name ->
  get attrs_ "data-id" = (if truthy (id a) then id a else Undefined) ->
  get attrs_ "data-label" = (if truthy (label a) then label a else Undefined) ->
  exists element,
    renderSpec (DOMArray "a" attrs_ children) = Some element
    /\ parseMention element
       = Some {| id := normalized (id a); label := normalized (label a) |}.
Proof.
  intros Hu Gt Gi Gl.
  eexists. split; [reflexivity|].
  unfold parseMention, parseHTML_matches, parseHTML_id, parseHTML_label,
    getAttribute.
  cbn [tagName attributes].
  rewrite !renderSpec_attributes by assumption.
  rewrite Gt, Gi, Gl. cbn [lookupAttribute andb].
  change (JSValue_eqb (Str mention_name) (Str mention_name) && true) with true.
  cbn iota. f_equal.
  pose proof (normalized_parse (id a)) as Ni.
  pose proof (normalized_parse (label a)) as Nl.
  destruct (if truthy (id a) then id a else Undefined),
    (if truthy (label a) then label a else Undefined);
    cbn in Ni, Nl |- *; rewrite <- Ni, <- Nl; reflexivity.
Qed.



(** ** Other render paths, and where [allow] answers *)

(** X10.  When the [renderHTML] of the options returns a string, the
    markup is an [a] element around that string that carries
    [data-type] and the attributes of the node, without a warning;
    unlike the default markup it has no [href] unless the configured
    [HTMLAttributes] bring one. *)
Theorem string_renderHTML_is_wrapped :
  forall (mergeStyle : JSValue -> JSValue -> JSValue)
         (d : OptionsData) (rt g : RenderProps -> string) (n : PMNode),
    name (node_type n) = mention_name ->
    let merged :=
      {| HTMLAttributes := nodeAttributes mergeStyle d n;
         deleteTriggerWithBackspace := deleteTriggerWithBackspace d;
         suggestion_char := suggestion_char d |} in
    serializeHTML mergeStyle
      {| data := d; renderLabel := None; renderText := rt;
         renderHTML := fun _ props => DOMString (g props) |} n
    = (DOMArray "a" (nodeAttributes mergeStyle d n)
         [DOMString (g {| options := merged; node := n |})],
       [])
    /\ hasKey (nodeAttributes mergeStyle d n) "data-type" = true
    /\ hasKey (nodeAttributes mergeStyle d n) "href"
       = hasKey (HTMLAttributes d) "href".
Proof.
  intros mergeStyle d rt g n Hname merged.
  split; [reflexivity|].
  unfold nodeAttributes. rewrite !hasKey_mergeAttributes. cbn [existsb].
  rewrite !hasKey_getRenderedAttributes by assumption.
  cbn. rewrite !andb_false_r, !orb_false_r. auto.
Qed.

Lemma string_renderHTML_is_wrapped_witness :
  serializeHTML joinStyle
    {| data := data (addOptions joinStyle); renderLabel := None;
       renderText := default_renderText;
       renderHTML := fun _ props => DOMString (default_renderText props) |}
    (PMElem mentionType Sample.john [])
  = (DOMArray "a" (nodeAttributes joinStyle (data (addOptions joinStyle))
                     (PMElem mentionType Sample.john []))
       [DOMString "@John's Notes"],
     [])
  /\ hasKey (nodeAttributes joinStyle (data (addOptions joinStyle))
               (PMElem mentionType Sample.john [])) "data-type" = true
  /\ hasKey (nodeAttributes joinStyle (data (addOptions joinStyle))
               (PMElem mentionType Sample.john [])) "href"
     = false.
Proof.
  apply (string_renderHTML_is_wrapped joinStyle (data (addOptions joinStyle))
           default_renderText default_renderText
           (PMElem mentionType Sample.john [])).
  reflexivity.
Defined.

(** X11.  On a document, [allow] throws exactly at a position beyond
    its end; at every other position it answers, and answers [true]
    exactly when the content expression of the parent there starts with
    an edge for the mention type. *)
Theorem allow_answers_inside_the_document :
  forall (state : EditorState) (range : Range),
    isText (doc state) = false ->
    match suggestion_allow state range with
    | None => fragmentSize (node_content (doc state)) < from range
    | Some answer =>
        from range <= fragmentSize (node_content (doc state))
        /\ exists rp parent_,
             resolve (doc state) (from range) = Some rp
             /\ parent rp = Some parent_
             /\ answer
                = isSome (matchType (contentMatch (node_type parent_))
                            (schema_nodes (schema state) mention_name))
    end.
Proof.
  intros state range Hnt.
  destruct (Nat.le_gt_cases (from range) (fragmentSize (node_content (doc state))))
    as [Hle | Hgt].
  - destruct (allow_defined state range Hnt Hle) as (rp & parent_ & Hr & Hp & Ha).
    rewrite Ha. split; [assumption|]. now exists rp, parent_.
  - unfold suggestion_allow, resolve.
    replace (from range <=? fragmentSize (node_content (doc state))) with false
      by (symmetry; apply Nat.leb_gt; lia).
    exact Hgt.
Qed.

Lemma allow_answers_inside_the_document_witness :
  match suggestion_allow Sample.withImage {| from := 2; to := 2 |} with
  | None => fragmentSize (node_content (doc Sample.withImage)) < 2
  | Some answer =>
      2 <= fragmentSize (node_content (doc Sample.withImage))
      /\ exists rp parent_,
           resolve (doc Sample.withImage) 2 = Some rp
           /\ parent rp = Some parent_
           /\ answer
              = isSome (matchType (contentMatch (node_type parent_))
                          (schema_nodes (schema Sample.withImage) mention_name))
  end.
Proof.
  apply (allow_answers_inside_the_document Sample.withImage
           {| from := 2; to := 2 |}).
  reflexivity.
Defined.

(** ** The command followed by Backspace *)

Lemma mentionsAreLeaves_append a b :
  forallb mentionsAreLeaves a = true ->
  forallb mentionsAreLeaves b = true ->
  forallb mentionsAreLeaves (append a b) = true.
Proof.
  intros Ha Hb. induction a as [|x a IH]; [assumption|].
  cbn [forallb] in Ha. apply andb_true_iff in Ha as [Hx Ha].
  destruct x as [s | t at_ cs].
  - destruct a as [|y a].
    + destruct b as [|[s' | t' a' cs'] b]; cbn [append forallb] in *; auto.
    + change (append (PMText s :: y :: a) b) with (PMText s :: append (y :: a) b).
      cbn [forallb]. now rewrite IH.
  - assert (E : append (PMElem t at_ cs :: a) b = PMElem t at_ cs :: append a b).
    { destruct a; reflexivity. }
    rewrite E. cbn [forallb]. now rewrite Hx, IH.
Qed.

Lemma mentionsAreLeaves_cutNode n : forall f t,
  mentionsAreLeaves n = true -> mentionsAreLeaves (cutNode n f t) = true.
Proof.
  induction n as [s | ty a cs IH] using PMNode_ind'; intros f t H;
    [reflexivity|].
  cbn [cutNode]. destruct ((f =? 0) && (t =? fragmentSize cs)); [assumption|].
  cbn [mentionsAreLeaves] in *. apply andb_true_iff in H as [H1 H2].
  rewrite H1. cbn [andb].
  destruct (f <? t); [|reflexivity].
  generalize 0 as pos_.
  induction cs as [|c cs IHcs]; intros pos_; [reflexivity|].
  apply Forall_cons_iff in IH as [IHc IHrest].
  cbn [forallb] in H2. apply andb_true_iff in H2 as [Hc Hcs].
  specialize (IHcs IHrest Hcs).
  cbn [cutChildren].
  destruct (pos_ <? t); [|reflexivity].
  destruct (f <? pos_ + nodeSize c); [|apply IHcs].
  cbn [forallb]. rewrite IHcs, andb_true_r.
  destruct ((pos_ <? f) || (t <? pos_ + nodeSize c)); [|assumption].
  destruct c as [s | cty ca cch]; [reflexivity|]. now apply IHc.
Qed.

Lemma mentionsAreLeaves_cut cs f t :
  forallb mentionsAreLeaves cs = true ->
  forallb mentionsAreLeaves (cut cs f t) = true.
Proof.
  intros H. unfold cut.
  destruct ((f =? 0) && (t =? fragmentSize cs)); [assumption|].
  destruct (f <? t); [|reflexivity].
  generalize 0 as pos_.
  induction cs as [|c cs IHcs]; intros pos_; [reflexivity|].
  cbn [forallb] in H. apply andb_true_iff in H as [Hc Hcs].
  cbn [cutChildren].
  destruct (pos_ <? t); [|reflexivity].
  destruct (f <? pos_ + nodeSize c); [|now apply IHcs].
  cbn [forallb]. rewrite IHcs, andb_true_r by assumption.
  destruct ((pos_ <? f) || (t <? pos_ + nodeSize c)); [|assumption].
  destruct c as [s | cty ca cch]; [reflexivity|].
  now apply mentionsAreLeaves_cutNode.
Qed.

(** A replacement by nodes whose mentions are leaves keeps the mentions
    of the document leaves. *)
Lemma replaceNode_mentionsAreLeaves guard slice_ n :
  forall depth_ from_ to_ n',
    mentionsAreLeaves n = true ->
    forallb mentionsAreLeaves slice_ = true ->
    replaceNode guard slice_ depth_ n from_ to_ = Some n' ->
    mentionsAreLeaves n' = true.
Proof.
  induction n as [s | ty a cs IH] using PMNode_ind';
    intros depth_ from_ to_ n' Hwf Hslice H; [discriminate|].
  cbn [replaceNode] in H.
  cbn [mentionsAreLeaves] in Hwf. apply andb_true_iff in Hwf as [Hty Hcs].
  destruct (replaceChildren (replaceNode guard slice_ (S depth_)) from_ to_ cs 0)
    as [r|] eqn:Edesc.
  - apply replaceChildren_spec in Edesc
      as (pre & c & post & -> & Hc & Hlo & Hhi & ->).
    cbn [Nat.add] in *.
    destruct (replaceNode guard slice_ (S depth_) c
                (from_ - fragmentSize pre - 1) (to_ - fragmentSize pre - 1))
      as [inner|] eqn:Einner; [|discriminate].
    cbn [option_map] in H.
    assert (Hn : n' = PMElem ty a (pre ++ inner :: post)) by congruence.
    subst n'. cbn [mentionsAreLeaves]. rewrite Hty. cbn [andb].
    rewrite forallb_app in *. cbn [forallb] in *.
    apply andb_true_iff in Hcs as [Hpre Hrest].
    apply andb_true_iff in Hrest as [Hcwf Hpost].
    rewrite Hpre, Hpost, andb_true_r. cbn [andb].
    apply Forall_app in IH as [_ IH]. apply Forall_cons_iff in IH as [IHc _].
    eapply IHc; eauto.
  - destruct (indexAt cs from_ 0 0) as [i|]; [|discriminate].
    destruct (indexAt cs to_ 0 0) as [j|]; [|discriminate].
    destruct ((from_ <=? to_) && canReplace (PMElem ty a cs) i j slice_
              && guard (PMElem ty a cs) from_ to_ depth_); [|discriminate].
    cbv zeta in H.
    destruct (validContent ty _); [|discriminate].
    match type of H with Some ?x = _ => assert (Hn : n' = x) by congruence end.
    subst n'. cbn [mentionsAreLeaves]. rewrite Hty. cbn [andb].
    repeat apply mentionsAreLeaves_append; auto using mentionsAreLeaves_cut.
Qed.


(** A replacement that applies lies inside the node. *)
Lemma replaceNode_in_range guard slice_ depth_ n from_ to_ n' :
  replaceNode guard slice_ depth_ n from_ to_ = Some n' ->
  to_ <= fragmentSize (node_content n).
Proof.
  destruct n as [s | ty a cs]; [discriminate|]. cbn [replaceNode node_content].
  intros H.
  destruct (replaceChildren (replaceNode guard slice_ (S depth_)) from_ to_ cs 0)
    as [r|] eqn:Edesc.
  - apply replaceChildren_spec in Edesc
      as (pre & c & post & -> & Hc & Hlo & Hhi & ->).
    rewrite fragmentSize_app, fragmentSize_cons. lia.
  - destruct (indexAt cs from_ 0 0) as [i|]; [|discriminate].
    destruct (indexAt cs to_ 0 0) as [j|] eqn:Ej; [|discriminate].
    apply indexAt_range in Ej. lia.
Qed.

(** What a run of the suggestion command comes to. *)
Lemma suggestion_command_result state range props state' :
  noEmptyText (doc state) = true ->
  schema_nodes (schema state) mention_name = Some mentionType ->
  suggestion_command state range props = Some state' ->
  let toks := fragmentTokens (node_content (doc state)) in
  let to' := if isSpace (charAt toks (sel_to (selection state)))
             then to range + 1 else to range in
  from range <= to'
  /\ replaceNode noGuard (mentionContent props) 0 (doc state) (from range) to'
     = Some (doc state')
  /\ selection state' = {| anchor := from range + 2; head := from range + 2 |}
  /\ schema state' = schema state.
Proof.
  intros Hwf Hsch H toks to'.
  unfold suggestion_command in H.
  destruct (resolve (doc state) (sel_to (selection state))) as [rp|] eqn:Eres;
    [|discriminate].
  rewrite startsWith_space in H.
  match type of H with
  | match insertContentAt _ _ ?r _ with _ => _ end = _ =>
      destruct (insertContentAt (schema state) (state_tr state) r
                  [JSONNode mention_name props; JSONText " "])
        as [tr|] eqn:Eins; [|discriminate]
  end.
  injection H as <-. cbn [doc selection schema state_apply].
  apply insertContentAt_mention in Eins as (Hle & Hrep & Hsel); [|assumption].
  cbn [state_tr tr_doc] in Hrep.
  assert (Hnt : isText (doc state) = false).
  { destruct (doc state); [discriminate | reflexivity]. }
  rewrite (resolve_nodeAfter _ _ _ Hnt Hwf Eres) in *.
  fold toks in Hle, Hrep.
  assert (Hfrom : forall b : bool,
            from (if b then {| from := from range; to := to range + 1 |} else range)
            = from range) by (intros []; reflexivity).
  assert (Hto : forall b : bool,
            to (if b then {| from := from range; to := to range + 1 |} else range)
            = if b then to range + 1 else to range) by (intros []; reflexivity).
  rewrite Hfrom, Hto in *.
  repeat split; auto.
  rewrite Hsel. unfold collapseToEnd, sel_to. cbn [anchor head].
  now rewrite Nat.max_id.
Qed.

(** The document after the command, token by token. *)
Lemma suggestion_command_tokens state range props state' :
  noEmptyText (doc state) = true ->
  mentionsAreLeaves (doc state) = true ->
  schema_nodes (schema state) mention_name = Some mentionType ->
  suggestion_command state range props = Some state' ->
  let toks := fragmentTokens (node_content (doc state)) in
  let to' := if isSpace (charAt toks (sel_to (selection state)))
             then to range + 1 else to range in
  fragmentTokens (node_content (doc state'))
  = firstn (from range) toks
    ++ [TLeaf mentionType (computeAttrs props); TChar " "] ++ skipn to' toks
  /\ length (firstn (from range) toks) = from range
  /\ forallb mentionsAreLeaves (node_content (doc state')) = true
  /\ selection state' = {| anchor := from range + 2; head := from range + 2 |}.
Proof.
  intros Hwf Hleaves Hsch H toks to'.
  destruct (suggestion_command_result state range props state' Hwf Hsch H)
    as (Hle & Hrep & Hsel & _).
  fold toks in Hle, Hrep. fold to' in Hle, Hrep.
  pose proof (replaceNode_in_range _ _ _ _ _ _ _ Hrep) as Hrange.
  pose proof (replaceNode_mentionsAreLeaves _ (mentionContent props) _ _ _ _ _
                Hleaves eq_refl Hrep)
    as Hleaves'.
  apply replaceNode_tokens in Hrep as [_ Htok]; [|assumption].
  repeat split; auto.
  - rewrite length_firstn. unfold toks. rewrite fragmentTokens_length. lia.
  - destruct (doc state') as [s | t a cs]; [reflexivity|].
    cbn [mentionsAreLeaves node_content] in *.
    now apply andb_true_iff in Hleaves' as [_ Hl].
Qed.


(** X12.  Right after a candidate is chosen the cursor stands behind
    the inserted space, and the shortcut does not handle Backspace
    there: the key is left to the other bindings, and the mention
    stays. *)
Theorem backspace_right_after_command_is_unhandled :
  forall (o : OptionsData) (state : EditorState) (range : Range)
         (props : MentionNodeAttrs) (state' : EditorState),
    noEmptyText (doc state) = true ->
    mentionsAreLeaves (doc state) = true ->
    schema_nodes (schema state) mention_name = Some mentionType ->
    suggestion_command state range props = Some state' ->
    Backspace o state' = Some (false, state_tr state').
Proof.
  intros o state range props state' Hwf Hleaves Hsch H.
  destruct (suggestion_command_tokens state range props state'
              Hwf Hleaves Hsch H) as (Htok & Hlen & Hleaves' & Hsel).
  apply Backspace_no_mention_before; auto.
  - rewrite Hsel. unfold sel_empty. cbn [anchor head]. apply Nat.eqb_refl.
  - rewrite Hsel, Htok. cbn [anchor].
    replace (from range + 2) with (S (from range + 1)) by lia.
    unfold mentionBefore.
    rewrite nth_error_app2 by lia. rewrite Hlen.
    replace (from range + 1 - from range) with 1 by lia. reflexivity.
Qed.

Lemma backspace_right_after_command_is_unhandled_witness :
  Backspace (data (addOptions joinStyle)) Sample.typingDone
  = Some (false, state_tr Sample.typingDone).
Proof.
  apply (backspace_right_after_command_is_unhandled
           (data (addOptions joinStyle)) Sample.typing
           {| from := 4; to := 7 |} Sample.john Sample.typingDone);
    reflexivity.
Defined.

(** X13.  Where the suggestion command applies (both ends of its range
    in one parent that takes inline content), Backspace with the cursor
    moved right behind the new mention is handled: the mention gives way
    to the replacement text (the trigger character by default, nothing
    with [deleteTriggerWithBackspace]), in front of the space the
    command has put behind it. *)
Theorem backspace_takes_back_inserted_mention :
  forall (o : OptionsData) (state : EditorState) (range : Range)
         (props : MentionNodeAttrs) (rf rt : ResolvedPos) (P : PMNode),
    let toks := fragmentTokens (node_content (doc state)) in
    let to' := if isSpace (charAt toks (sel_to (selection state)))
               then to range + 1 else to range in
    noEmptyText (doc state) = true ->
    mentionsAreLeaves (doc state) = true ->
    schema_nodes (schema state) mention_name = Some mentionType ->
    sel_to (selection state) <= fragmentSize (node_content (doc state)) ->
    resolve (doc state) (from range) = Some rf ->
    resolve (doc state) to' = Some rt ->
    start rf = start rt ->
    parent rf = Some P ->
    takesInline P = true ->
    inlineContent (node_type P) = true ->
    from range <= to' ->
    exists state' tr,
      suggestion_command state range props = Some state'
      /\ Backspace o (withCursor state' (from range + 1)) = Some (true, tr)
      /\ fragmentTokens (node_content (tr_doc tr))
         = firstn (from range) toks
           ++ textTokens (backspaceText o)
           ++ TChar " " :: skipn to' toks.
Proof.
  intros o state range props rf rt P toks to'
    Hwf Hleaves Hsch Hcur Hrf Hrt Hstart HP Hstar Hinl Hle.
  destruct P as [x | tP aP csP].
  { pose proof (resolve_isText _ _ _ _ Hrf HP) as Hnt.
    destruct (resolve_within _ _ _ Hnt Hrf) as (P1 & i & HP1 & _ & _ & Hw & _).
    assert (P1 = PMText x) by congruence. subst P1.
    now apply within_elem in Hw. }
  destruct (suggestion_command_fits state range props rf rt tP aP csP
              Hwf Hsch Hcur Hrf Hrt Hstart HP Hstar Hinl Hle)
    as (doc' & Hcmd & _ & Hw0 & Hlo & Hhi0 & Haf0 & Hat0).
  set (s := start rf) in *.
  assert (Hhi : to' <= s + fragmentSize csP) by exact Hhi0.
  assert (Haf : aligned csP 0 (from range - s) = true) by exact Haf0.
  assert (Hat : aligned csP 0 (to' - s) = true) by exact Hat0.
  set (content_ :=
         append (append (cut csP 0 (from range - s)) (mentionContent props))
                (cut csP (to' - s) (fragmentSize csP))) in *.
  assert (Hw : within doc' s (PMElem tP aP content_)) by exact Hw0.
  clear Hhi0 Haf0 Hat0 Hw0.
  set (state' := {| doc := doc';
                    selection := {| anchor := from range + 2;
                                    head := from range + 2 |};
                    schema := schema state |}) in *.
  destruct (suggestion_command_tokens state range props state'
              Hwf Hleaves Hsch Hcmd) as (Htok & Hlen & Hleaves' & _).
  fold toks in Htok, Hlen. fold to' in Htok. cbn [doc state'] in Htok, Hleaves'.
  pose proof (takesInline_parts _ Hstar) as (_ & Htext & Hm & _).
  cbn [node_type] in Htext, Hm.
  assert (Hstar' : takesInline (PMElem tP aP content_) = true).
  { apply takesInline_replaced; [assumption|].
    now apply mentionContent_loops. }
  assert (Hsz : fragmentSize content_
                = from range - s + 2 + (fragmentSize csP - (to' - s))).
  { unfold content_. rewrite fragmentSize_replaced; auto; lia. }
  assert (Hslice : forall q, q = from range - s \/ q = from range - s + 1 ->
            aligned (mentionContent props) (from range - s) q = true).
  { intros q [-> | ->]; [apply aligned_before; lia|].
    cbn [mentionContent aligned nodeSize mentionType isLeaf isText].
    rewrite Nat.ltb_irrefl, andb_false_r. reflexivity. }
  destruct (insertText_fits (state_tr (withCursor state' (from range + 1)))
              (backspaceText o) (from range) (from range + 1)
              s tP aP content_) as [tr Hins]; auto; try lia.
  { unfold content_. apply aligned_replaced; auto; try lia. }
  { unfold content_.
    replace (from range + 1 - s) with (from range - s + 1) by lia.
    apply aligned_replaced; auto; try lia.
    replace (fragmentSize (mentionContent props)) with 2 by reflexivity. lia. }
  assert (Hnth : nth_error (fragmentTokens (node_content doc')) (from range)
                 = Some (TLeaf mentionType (computeAttrs props))).
  { rewrite Htok, nth_error_app2 by lia. rewrite Hlen, Nat.sub_diag.
    reflexivity. }
  exists state', tr. split; [exact Hcmd|]. split.
  - unfold Backspace, withCursor. cbn [selection anchor head doc state'].
    unfold sel_empty. cbn [anchor head]. rewrite Nat.eqb_refl. cbn [negb].
    replace (from range + 1 - 1) with (from range) by lia.
    unfold nodesBetween.
    rewrite (nodesBetween_mention o doc' (from range) 0 _
               mentionType (computeAttrs props) Hleaves' Hnth eq_refl).
    unfold backspaceResult. cbn [snd Nat.add].
    unfold withCursor in Hins. cbn [doc selection state'] in Hins.
    now rewrite Hins.
  - apply insertText_tokens in Hins as [Hdoc _]; [|lia].
    unfold withCursor in Hdoc. cbn [state_tr tr_doc doc state'] in Hdoc.
    rewrite Hdoc, Htok.
    rewrite firstn_app, Hlen, Nat.sub_diag, firstn_O, app_nil_r.
    rewrite firstn_all2 by lia.
    rewrite skipn_app, Hlen.
    rewrite (skipn_all2 (firstn (from range) toks)) by lia.
    replace (from range + 1 - from range) with 1 by lia.
    reflexivity.
Qed.

Lemma backspace_takes_back_inserted_mention_witness :
  let toks := fragmentTokens (node_content (doc Sample.typing)) in
  exists state' tr,
    suggestion_command Sample.typing {| from := 4; to := 7 |} Sample.john
    = Some state'
    /\ Backspace Sample.deleting (withCursor state' 5) = Some (true, tr)
    /\ fragmentTokens (node_content (tr_doc tr))
       = firstn 4 toks ++ textTokens "" ++ TChar " " :: skipn 8 toks.
Proof.
  apply (backspace_takes_back_inserted_mention Sample.deleting Sample.typing
           {| from := 4; to := 7 |} Sample.john
           Sample.typingFrom Sample.typingTo
           (PMElem Sample.paragraphType Sample.noAttrs [PMText "hi @jo there"]));
    try reflexivity; vm_compute; lia.
Defined.

(** ** The class and the text of the default markup *)

Lemma append_nil_r (s : string) : (s ++ "")%string = s.
Proof. induction s as [|c s IH]; simpl; congruence. Qed.

Lemma append_assoc (a b c : string) :
  ((a ++ b) ++ c)%string = (a ++ (b ++ c))%string.
Proof. induction a as [|x a IH]; simpl; congruence. Qed.

Lemma occurs_append sep a b :
  occurs sep (a ++ b)%string = occurs sep a || occurs sep b.
Proof.
  induction a as [|x a IH]; simpl; [reflexivity|].
  now rewrite IH, orb_assoc.
Qed.

(** Splitting runs over a piece without a separator. *)
Lemma split_from_append sep x : forall cur s,
  occurs sep x = false ->
  split_from sep cur (x ++ s)%string = split_from sep (cur ++ x)%string s.
Proof.
  induction x as [|c x IH]; intros cur s Hx; simpl.
  - now rewrite append_nil_r.
  - simpl in Hx. apply orb_false_iff in Hx as [Hc Hx].
    rewrite Hc, IH by assumption. now rewrite append_assoc.
Qed.

(** The pieces of a split hold no separator. *)
Lemma split_from_pieces sep s : forall cur,
  occurs sep cur = false ->
  Forall (fun x => occurs sep x = false) (split_from sep cur s).
Proof.
  induction s as [|c s IH]; intros cur Hcur; simpl.
  - now constructor.
  - destruct (Ascii.eqb c sep) eqn:Ec.
    + constructor; [assumption|]. now apply IH.
    + apply IH. rewrite occurs_append, Hcur. simpl. now rewrite Ec.
Qed.

(** Joining pieces that hold no space and splitting again gives the
    pieces back. *)
Lemma split_from_join l : forall cur x,
  Forall (fun y => occurs " "%char y = false) (x :: l) ->
  split_from " "%char cur (join " " (x :: l)) = (cur ++ x)%string :: l.
Proof.
  induction l as [|y l IH]; intros cur x Hall.
  - cbn [join]. rewrite <- (append_nil_r x) at 1.
    apply Forall_inv in Hall.
    now rewrite split_from_append.
  - change (join " " (x :: y :: l))
      with (x ++ String " "%char (join " " (y :: l)))%string.
    pose proof (Forall_inv Hall) as Hx. apply Forall_inv_tail in Hall.
    rewrite split_from_append by assumption.
    cbn [split_from]. rewrite Ascii.eqb_refl. f_equal.
    now rewrite IH.
Qed.

Lemma split_join l :
  l <> [] ->
  Forall (fun y => occurs " "%char y = false) l ->
  split " "%char (join " " l) = l.
Proof.
  destruct l as [|x l]; [congruence|]. intros _ Hall.
  unfold split. now rewrite split_from_join.
Qed.

Lemma classes_truthy m c :
  In c (classes m) -> truthy (get m "class") = true.
Proof.
  unfold classes. destruct (truthy (get m "class")); [reflexivity|].
  intros [].
Qed.

Section ClassFacts.

Variable mergeStyle : JSValue -> JSValue -> JSValue.

(** Merging an entry in never takes a class away. *)
Lemma classes_mergeEntry m e c :
  c <> ""%string ->
  In c (classes m) -> In c (classes (mergeEntry mergeStyle m e)).
Proof.
  intros Hc Hin. pose proof (classes_truthy _ _ Hin) as Ht.
  destruct e as [key value].
  destruct (String.eqb key "class") eqn:Ek.
  - apply String.eqb_eq in Ek. subst key.
    unfold mergeEntry. rewrite Ht. cbn [negb]. rewrite String.eqb_refl.
    unfold classes in Hin. rewrite Ht in Hin.
    remember (split " "%char (toString (get m "class"))) as existing eqn:Eex.
    remember (filter (fun valueClass => negb (includes existing valueClass))
                (if truthy value then split " "%char (toString value) else []))
      as insert eqn:Eins.
    assert (Hall : Forall (fun y => occurs " "%char y = false)
                     (existing ++ insert)).
    { apply Forall_app. split.
      - subst existing. now apply split_from_pieces.
      - subst insert. apply Forall_forall. intros y Hy.
        apply filter_In in Hy as [Hy _].
        destruct (truthy value); [|destruct Hy].
        revert y Hy. apply Forall_forall. now apply split_from_pieces. }
    assert (Hne : existing ++ insert <> []).
    { destruct existing; [destruct Hin | discriminate]. }
    pose proof (split_join _ Hne Hall) as Hsplit.
    unfold classes. rewrite get_set_same. cbn [toString].
    assert (Hin' : In c (split " "%char (join " " (existing ++ insert)))).
    { rewrite Hsplit. apply in_or_app. now left. }
    destruct (join " " (existing ++ insert)) as [|a s] eqn:Ej.
    + destruct Hin' as [E | []]. now symmetry in E.
    + exact Hin'.
  - unfold classes in *.
    rewrite (get_mergeEntry_other mergeStyle m (key, value) "class" Ek).
    exact Hin.
Qed.

Lemma classes_mergeItem item c : forall m,
  c <> ""%string ->
  In c (classes m) ->
  In c (classes (fold_left (mergeEntry mergeStyle) item m)).
Proof.
  induction item as [|e item IH]; intros m Hc Hin; cbn [fold_left].
  - exact Hin.
  - apply IH; [assumption|]. now apply classes_mergeEntry.
Qed.

End ClassFacts.

(** X14.  The default markup always carries the class [mention]:
    whatever classes and other attributes the options or the caller
    bring, merging them in never takes it away. *)
Theorem default_markup_keeps_mention_class :
  forall (mergeStyle : JSValue -> JSValue -> JSValue)
         (o : MentionOptions) (n : PMNode) (HTMLAttributes_ : Object),
    renderLabel o = None ->
    renderHTML o = default_renderHTML mergeStyle ->
    exists attrs_ children,
      Mention_renderHTML mergeStyle o n HTMLAttributes_
      = (DOMArray "a" attrs_ children, [])
      /\ In "mention"%string (classes attrs_).
Proof.
  intros mergeStyle o n HTMLAttributes_ Hlabel Hrender.
  unfold Mention_renderHTML. rewrite Hlabel, Hrender.
  unfold default_renderHTML. cbn [options node HTMLAttributes ret].
  eexists. eexists. split; [reflexivity|].
  unfold mergeAttributes at 1. cbn [fold_left].
  apply classes_mergeItem; [discriminate|].
  apply classes_mergeItem; [discriminate|].
  apply classes_mergeEntry; [discriminate|].
  cbn. now left.
Qed.

Lemma default_markup_keeps_mention_class_witness :
  exists attrs_ children,
    Mention_renderHTML joinStyle MoreSamples.styled
      (PMElem mentionType Sample.john []) [("class", Str "wide")]
    = (DOMArray "a" attrs_ children, [])
    /\ In "mention"%string (classes attrs_).
Proof.
  apply (default_markup_keeps_mention_class joinStyle MoreSamples.styled
           (PMElem mentionType Sample.john []) [("class", Str "wide")]);
    reflexivity.
Defined.

(** X15.  With the render functions of [addOptions], the text inside
    the markup is the plain text of the node, and the two renderings
    log the same warnings: this holds for every trigger character and
    every [HTMLAttributes], with and without [renderLabel]. *)
Theorem markup_text_is_plain_text :
  forall (mergeStyle : JSValue -> JSValue -> JSValue)
         (o : MentionOptions) (n : PMNode) (HTMLAttributes_ : Object),
    renderText o = default_renderText ->
    renderHTML o = default_renderHTML mergeStyle ->
    exists attrs_,
      Mention_renderHTML mergeStyle o n HTMLAttributes_
      = (DOMArray "a" attrs_ [DOMString (fst (Mention_renderText o n))],
         snd (Mention_renderText o n)).
Proof.
  intros mergeStyle o n HTMLAttributes_ Htext Hrender.
  unfold Mention_renderHTML, Mention_renderText.
  destruct (renderLabel o) as [f|].
  - eexists. reflexivity.
  - rewrite Htext, Hrender. eexists. reflexivity.
Qed.

Lemma markup_text_is_plain_text_witness :
  exists attrs_,
    Mention_renderHTML joinStyle MoreSamples.styled
      (PMElem mentionType Sample.john []) []
    = (DOMArray "a" attrs_
         [DOMString (fst (Mention_renderText MoreSamples.styled
                            (PMElem mentionType Sample.john [])))],
       snd (Mention_renderText MoreSamples.styled
              (PMElem mentionType Sample.john []))).
Proof.
  apply (markup_text_is_plain_text joinStyle MoreSamples.styled
           (PMElem mentionType Sample.john []) []);
    reflexivity.
Defined.

(* ------------------------------------------------------------------ *)
(** * The extension on the sample documents                             *)
(* ------------------------------------------------------------------ *)

(** Choosing a candidate at the end of a paragraph adds the space. *)
Example command_at_end_of_text :
  option_map (fun s => (node_content (doc s), selection s))
    (suggestion_command Sample.typingAtEnd {| from := 4; to := 7 |} Sample.john)
  = Some ([PMElem Sample.paragraphType Sample.noAttrs
             [PMText "hi "; PMElem mentionType Sample.john []; PMText " "]],
          {| anchor := 6; head := 6 |}).
Proof. reflexivity. Qed.

(** Choosing one before a space keeps that one space. *)
Example command_before_space :
  node_content (doc Sample.typingDone)
  = [PMElem Sample.paragraphType Sample.noAttrs
       [PMText "hi "; PMElem mentionType Sample.john []; PMText " there"]].
Proof. reflexivity. Qed.

(** Backspace with [deleteTriggerWithBackspace] removes the mention. *)
Example backspace_deletes_mention :
  option_map (fun r => (fst r, node_content (tr_doc (snd r))))
    (Backspace {| HTMLAttributes := []; deleteTriggerWithBackspace := true;
                  suggestion_char := Str "@" |} Sample.mentioned)
  = Some (true,
          [PMElem Sample.paragraphType Sample.noAttrs [PMText "hi  x"];
           PMElem Sample.paragraphType Sample.noAttrs
             [PMElem mentionType Sample.john []]]).
Proof. reflexivity. Qed.

(** By default Backspace puts the trigger character in its place. *)
Example backspace_puts_trigger_back :
  option_map (fun r => (fst r, node_content (tr_doc (snd r))))
    (Backspace (data (addOptions joinStyle)) Sample.mentioned)
  = Some (true,
          [PMElem Sample.paragraphType Sample.noAttrs [PMText "hi @ x"];
           PMElem Sample.paragraphType Sample.noAttrs
             [PMElem mentionType Sample.john []]]).
Proof. reflexivity. Qed.

(** Backspace elsewhere is left to the other key bindings. *)
Example backspace_after_text :
  Backspace (data (addOptions joinStyle))
    {| doc := doc Sample.mentioned;
       selection := {| anchor := 4; head := 4 |};
       schema := schema Sample.mentioned |}
  = Some (false,
          state_tr {| doc := doc Sample.mentioned;
                      selection := {| anchor := 4; head := 4 |};
                      schema := schema Sample.mentioned |}).
Proof. reflexivity. Qed.

(** Suggestions are allowed inside the paragraph, and [allow] throws
    outside the document. *)
Example allow_in_paragraph :
  suggestion_allow Sample.withImage {| from := 2; to := 2 |} = Some true
  /\ suggestion_allow Sample.withImage {| from := 9; to := 9 |} = None.
Proof. split; reflexivity. Qed.

(** [mergeAttributes] joins classes and lets a later value win. *)
Example mergeAttributes_classes :
  mergeAttributes joinStyle
    [ [("class", Str "mention"); ("href", Str "/thoughts/a")];
      [("class", Str "chip mention"); ("href", Str "/elsewhere")] ]
  = [("class", Str "mention chip"); ("href", Str "/elsewhere")].
Proof. reflexivity. Qed.

(** The label refresher finds both mentions of the sample. *)
Example mentions_of_sample :
  getAllNodesWithType Sample.mentioned "mention"
  = [(Sample.john, 4); (Sample.john, 9)].
Proof. reflexivity. Qed.

(** A replacement that [canReplace] accepts by the indices of the range
    is refused when the parent is closed over its new content: inside
    the text of a [mention? text*] parent the mention would come after
    a text. *)
Example insertion_refused_on_closing :
  canReplace (PMElem MoreSamples.leadType Sample.noAttrs [PMText "ab"]) 0 0
    (mentionContent Sample.john) = true
  /\ replaceNode noGuard (mentionContent Sample.john) 0 MoreSamples.leadDoc 2 2
     = None
  /\ replaceNode noGuard (mentionContent Sample.john) 0 MoreSamples.leadDoc 1 1
     = Some (PMElem Sample.docType Sample.noAttrs
               [PMElem MoreSamples.leadType Sample.noAttrs
                  [PMElem mentionType Sample.john []; PMText " ab"]]).
Proof. repeat split. Qed.

(** An [onStart] that follows another one without an [onExit] leaves
    the popup of the first on the page, shown. *)
Example second_start_leaves_a_popup :
  leftBehind None mention_render
    [ OnStart {| clientRect := Some 1; query := "" |};
      OnStart {| clientRect := Some 2; query := "" |};
      OnExit ]
  = [ mention_render;
      {| reactRenderer :=
           Some {| rr_props := {| clientRect := Some 1; query := "" |};
                   rr_ref := None; rr_destroyed := false |};
         popup := Some [ {| getReferenceClientRect := 1; isVisible := true;
                            isDestroyed := false |} ] |} ].
Proof. reflexivity. Qed.
